(** * folly/Range.h

    A [Range] is a pair of iterators into storage it does not own.  The
    development below follows the header for [Range<const T*>]: iterators
    are element addresses, the storage is a partial map from addresses to
    elements, and every call returns an [outcome] that tells a normal
    return from a thrown exception, a failed [CHECK_*]/[assert], or a read
    outside live storage. *)

From Stdlib Require Import String Ascii.
From Stdlib Require Import ZArith List Bool Lia.
Import ListNotations.
Local Open Scope Z_scope.

(** ** Outcomes *)

Inductive outcome (A : Type) : Type :=
| Ret (a : A)              (* normal return *)
| Throw (what : string)    (* throw std::out_of_range(what) *)
| Abort                    (* CHECK_xx or assert failed *)
| Fault (addr : Z)         (* read through a pointer into no live object *)
| OutOfFuel.               (* the iteration bound of the model was too small *)

Arguments Ret {A} a.
Arguments Throw {A} what.
Arguments Abort {A}.
Arguments Fault {A} addr.
Arguments OutOfFuel {A}.

Definition bind {A B : Type} (c : outcome A) (k : A -> outcome B) : outcome B :=
  match c with
  | Ret a => k a
  | Throw w => Throw w
  | Abort => Abort
  | Fault p => Fault p
  | OutOfFuel => OutOfFuel
  end.

Notation "x <- c ;; k" := (bind c (fun x => k))
  (at level 61, c at next level, right associativity).
Notation "c ;;; k" := (bind c (fun _ => k))
  (at level 61, right associativity).

(** [assert(c)] and glog's [CHECK_LE], [CHECK_GT]: nothing happens when the
    condition holds, the program stops otherwise. *)
Definition check (c : bool) : outcome unit := if c then Ret tt else Abort.

(** ** Machine integers *)

(** [size_t] is 64 bits wide, [uint32_t] and [int] 32 bits. *)
Definition wrap64 (z : Z) : Z := z mod 2 ^ 64.
Definition wrap32 (z : Z) : Z := z mod 2 ^ 32.

(** Conversion of an unsigned value to [int]. *)
Definition to_int (z : Z) : Z := (z + 2 ^ 31) mod 2 ^ 32 - 2 ^ 31.

(** [static const size_type npos = -1;] *)
Definition npos : Z := wrap64 (-1).

(** ** The view *)

(** [Range<const T*>]: the iterators are addresses counted in elements. *)
Record Range : Type := mkRange { b_ : Z; e_ : Z }.

(** [reachable(b, e, std::random_access_iterator_tag)] *)
Definition reachable (b e : Z) : bool := b <=? e.

(** [Range(Iter start, Iter end)] *)
Definition Range_of_iters (start end_ : Z) : outcome Range :=
  check (reachable start end_) ;;;
  Ret (mkRange start end_).

(** [Range(Iter start, size_t size)] *)
Definition Range_of_size (start size : Z) : Range :=
  mkRange start (start + size).

(** [makeRange(first, last)] *)
Definition makeRange (first last : Z) : outcome Range :=
  Range_of_iters first last.

Definition size (r : Range) : outcome Z :=
  check (b_ r <=? e_ r) ;;;
  Ret (wrap64 (e_ r - b_ r)).

Definition empty (r : Range) : bool := b_ r =? e_ r.
Definition data (r : Range) : Z := b_ r.
Definition begin (r : Range) : Z := b_ r.
Definition end_ (r : Range) : Z := e_ r.

(** [operator[](size_t i)]: the result is a reference, here the address of
    the element. *)
Definition index (r : Range) (i : Z) : outcome Z :=
  sz <- size r ;;
  check (sz >? i) ;;;
  Ret (b_ r + i).

(** [at(size_t i) const] *)
Definition at_const (r : Range) (i : Z) : outcome Z :=
  sz <- size r ;;
  if i >=? sz then Throw "index out of range"%string
  else Ret (b_ r + i).

(** [at(size_t i)], the overload on a non-const view: the view after the
    call is part of the result. *)
Definition at_ (this : Range) (i : Z) : outcome Z * Range :=
  (sz <- size this ;;
   if i >=? sz then Throw "index out of range"%string
   else Ret (b_ this + i),
   this).

(** [subpiece(first, length)] *)
Definition subpiece (this : Range) (first length : Z) : outcome Range :=
  sz <- size this ;;
  check (first <=? sz) ;;;
  sz <- size this ;;
  Ret (Range_of_size (b_ this + first) (Z.min length (wrap64 (sz - first)))).

(** A view whose iterators are ordered addresses of the 64-bit space, and
    whose distance [e_ - b_] fits [ptrdiff_t]. *)
Definition valid (r : Range) : Prop :=
  0 <= b_ r /\ b_ r <= e_ r /\ e_ r < 2 ^ 64 /\ e_ r - b_ r < 2 ^ 63.

(** ** qfind with a comparator *)

Section RangeOver.

Variable T : Type.

(** Storage: the element found at each address, if the address is inside a
    live object. *)
Definition memory : Type := Z -> option T.

(** [*p] and [p[k]] on a raw iterator. *)
Definition load (m : memory) (p : Z) : outcome T :=
  match m p with
  | Some x => Ret x
  | None => Fault p
  end.

Inductive iter : Type :=
| Return (r : Z)              (* the function returns r *)
| Continue (i skip : Z).      (* back to the test of the outer loop *)

Section QFindLoops.

Variable m : memory.
Variables haystack needle : Range.
Variable eq : T -> T -> bool.
Variables nsize nsize_1 : Z.
Variable lastNeedle : T.
Variable iEnd : Z.

(** [while (!eq(i[nsize_1], lastNeedle)) if (++i == iEnd) return npos;]
    [None] stands for the [return] inside the loop. *)
Fixpoint find_last (fuel : nat) (i : Z) : outcome (option Z) :=
  match fuel with
  | O => OutOfFuel
  | S fuel' =>
      c <- load m (i + nsize_1) ;;
      if negb (eq c lastNeedle) then
        let i := i + 1 in
        if i =? iEnd then Ret None else find_last fuel' i
      else Ret (Some i)
  end.

(** [skip = 1; while (skip <= nsize_1 && !eq(needle[nsize_1 - skip],
    lastNeedle)) ++skip;] entered with the value of [skip]. *)
Fixpoint skip_loop (fuel : nat) (skip : Z) : outcome Z :=
  match fuel with
  | O => OutOfFuel
  | S fuel' =>
      if skip <=? nsize_1 then
        r <- index needle (wrap64 (nsize_1 - skip)) ;;
        c <- load m r ;;
        if negb (eq c lastNeedle) then skip_loop fuel' (wrap64 (skip + 1))
        else Ret skip
      else Ret skip
  end.

(** [if (skip == 0) { ... }]: the value of [skip] after the statement. *)
Definition lazy_skip (skip : Z) : outcome Z :=
  if skip =? 0 then skip_loop (S (Z.to_nat nsize_1)) 1 else Ret skip.

(** [for (size_t j = 0; ; ) { ... }] entered with the value of [j]. *)
Fixpoint pedestrian (fuel : nat) (i skip j : Z) : outcome iter :=
  match fuel with
  | O => OutOfFuel
  | S fuel' =>
      check (j <? nsize) ;;;
      a <- load m (i + j) ;;
      r <- index needle j ;;
      b <- load m r ;;
      if negb (eq a b) then
        skip <- lazy_skip skip ;;
        Ret (Continue (i + skip) skip)
      else
        let j := wrap64 (j + 1) in
        if j =? nsize then Ret (Return (wrap64 (i - begin haystack)))
        else pedestrian fuel' i skip j
  end.

(** One pass through the body of [while (i < iEnd)]. *)
Definition outer_body (i skip : Z) : outcome iter :=
  f <- find_last (Z.to_nat (iEnd - i)) i ;;
  match f with
  | None => Ret (Return npos)
  | Some i => pedestrian (Z.to_nat nsize) i skip 0
  end.

(** [while (i < iEnd) { ... } return npos;] *)
Fixpoint outer_loop (fuel : nat) (i skip : Z) : outcome Z :=
  match fuel with
  | O => OutOfFuel
  | S fuel' =>
      if i <? iEnd then
        r <- outer_body i skip ;;
        match r with
        | Return k => Ret k
        | Continue i skip => outer_loop fuel' i skip
        end
      else Ret npos
  end.

End QFindLoops.

(** [qfind(haystack, needle, eq)] *)
Definition qfind3 (m : memory) (haystack needle : Range)
    (eq : T -> T -> bool) : outcome Z :=
  nsize <- size needle ;;
  hsize <- size haystack ;;
  if hsize <? nsize then Ret npos
  else if nsize =? 0 then Ret 0
  else
    let nsize_1 := wrap64 (nsize - 1) in
    r <- index needle nsize_1 ;;
    lastNeedle <- load m r ;;
    let skip := 0 in
    let i := begin haystack in
    let iEnd := end_ haystack - nsize_1 in
    outer_loop m haystack needle eq nsize nsize_1 lastNeedle iEnd
      (S (Z.to_nat hsize)) i skip.

(** ** Views and the sequences they show *)

Fixpoint read_seq (m : memory) (p : Z) (n : nat) : option (list T) :=
  match n with
  | O => Some []
  | S n' =>
      match m p, read_seq m (p + 1) n' with
      | Some x, Some l => Some (x :: l)
      | _, _ => None
      end
  end.

(** The elements a view shows, when all of them are in live storage. *)
Definition contents (m : memory) (r : Range) : option (list T) :=
  read_seq m (b_ r) (Z.to_nat (e_ r - b_ r)).

(** Storage holding the list [l] from address [base] on, and [m] elsewhere. *)
Definition place (base : Z) (l : list T) (m : memory) : memory :=
  fun p =>
    if (base <=? p) && (p <? base + Z.of_nat (length l))
    then nth_error l (Z.to_nat (p - base))
    else m p.

Definition no_memory : memory := fun _ => None.

End RangeOver.

Arguments load {T}.
Arguments find_last {T}.
Arguments skip_loop {T}.
Arguments lazy_skip {T}.
Arguments pedestrian {T}.
Arguments outer_body {T}.
Arguments outer_loop {T}.
Arguments qfind3 {T}.
Arguments read_seq {T}.
Arguments contents {T}.
Arguments place {T}.
Arguments no_memory {T}.

(** ** Notions used to state what qfind does *)

Section Notions.

Variable T : Type.
Variable m : memory T.
Variable needle : Range.
Variable eq : T -> T -> bool.
Variables nsize nsize_1 : Z.
Variable lastNeedle : T.

(** The element at an address, [lastNeedle] standing in where there is none. *)
Definition peek (p : Z) : T :=
  match m p with
  | Some x => x
  | None => lastNeedle
  end.

(** The haystack element over the needle's last slot, for the needle laid
    at address [i], passes the comparator. *)
Definition last_ok (i : Z) : Prop :=
  eq (peek (i + nsize_1)) lastNeedle = true.

(** The needle laid at address [i] of the haystack agrees with it at slot [j]. *)
Definition eq_at (i j : Z) : bool :=
  eq (peek (i + j)) (peek (b_ needle + j)).

(** The needle laid at address [i] agrees with the haystack at every slot. *)
Definition hit (i : Z) : Prop :=
  forall j, 0 <= j < nsize -> eq_at i j = true.

(** [s] is the distance from the last slot of the needle back to the nearest
    earlier slot that passes the comparator against [lastNeedle], and the
    length of the needle when no earlier slot does. *)
Definition is_skip (s : Z) : Prop :=
  1 <= s <= nsize
  /\ (s <= nsize_1 -> eq (peek (b_ needle + (nsize_1 - s))) lastNeedle = true)
  /\ (forall d, 1 <= d < s ->
        eq (peek (b_ needle + (nsize_1 - d))) lastNeedle = false).

(** The comparator never accepts one element against two that it tells
    apart. Every equivalence has the property. *)
Definition euclidean : Prop :=
  forall a b c, eq a b = true -> eq a c = true -> eq b c = true.

End Notions.

Arguments peek {T}.
Arguments last_ok {T}.
Arguments eq_at {T}.
Arguments hit {T}.
Arguments is_skip {T}.
Arguments euclidean {T}.


(** ** The loops of qfind, counted *)

Section Counted.

Variable T : Type.
Variable m : memory T.
Variables haystack needle : Range.
Variable eq : T -> T -> bool.
Variables nsize nsize_1 : Z.
Variable lastNeedle : T.
Variable iEnd : Z.

(** [if (skip == 0) { ... }] with the number of times the block between
    the braces ran: the value of [skip] after the statement, and 1 or 0. *)
Definition lazy_skip_counted (skip : Z) : outcome (Z * nat) :=
  if skip =? 0 then
    s <- skip_loop m needle eq nsize_1 lastNeedle (S (Z.to_nat nsize_1)) 1 ;;
    Ret (s, 1%nat)
  else Ret (skip, 0%nat).

(** The [for] loop, with the number of times the block ran in it. *)
Fixpoint pedestrian_counted (fuel : nat) (i skip j : Z)
  : outcome (iter * nat) :=
  match fuel with
  | O => OutOfFuel
  | S fuel' =>
      check (j <? nsize) ;;;
      a <- load m (i + j) ;;
      r <- index needle j ;;
      b <- load m r ;;
      if negb (eq a b) then
        p <- lazy_skip_counted skip ;;
        Ret (Continue (i + fst p) (fst p), snd p)
      else
        let j := wrap64 (j + 1) in
        if j =? nsize then Ret (Return (wrap64 (i - begin haystack)), 0%nat)
        else pedestrian_counted fuel' i skip j
  end.

(** One pass through the body of the outer loop, counted. *)
Definition outer_body_counted (i skip : Z) : outcome (iter * nat) :=
  f <- find_last m eq nsize_1 lastNeedle iEnd (Z.to_nat (iEnd - i)) i ;;
  match f with
  | None => Ret (Return npos, 0%nat)
  | Some i => pedestrian_counted (Z.to_nat nsize) i skip 0
  end.

(** What a call did: the value returned, the values [skip] had at each
    [i += skip] in order, and the number of times the block that computes
    the skip ran. *)
Record run : Type := mkRun { returned : Z; skips : list Z; computed : nat }.

(** The outer loop, counted. *)
Fixpoint outer_loop_counted (fuel : nat) (i skip : Z) : outcome run :=
  match fuel with
  | O => OutOfFuel
  | S fuel' =>
      if i <? iEnd then
        p <- outer_body_counted i skip ;;
        match fst p with
        | Return k => Ret (mkRun k [] (snd p))
        | Continue i skip =>
            rest <- outer_loop_counted fuel' i skip ;;
            Ret (mkRun (returned rest) (skip :: skips rest)
                   (snd p + computed rest))
        end
      else Ret (mkRun npos [] 0)
  end.

End Counted.

Arguments lazy_skip_counted {T}.
Arguments pedestrian_counted {T}.
Arguments outer_body_counted {T}.
Arguments outer_loop_counted {T}.

(** [qfind(haystack, needle, eq)], counted. *)
Definition qfind3_counted {T : Type} (m : memory T) (haystack needle : Range)
    (eq : T -> T -> bool) : outcome run :=
  nsize <- size needle ;;
  hsize <- size haystack ;;
  if hsize <? nsize then Ret (mkRun npos [] 0)
  else if nsize =? 0 then Ret (mkRun 0 [] 0)
  else
    let nsize_1 := wrap64 (nsize - 1) in
    r <- index needle nsize_1 ;;
    lastNeedle <- load m r ;;
    let skip := 0 in
    let i := begin haystack in
    let iEnd := end_ haystack - nsize_1 in
    outer_loop_counted m haystack needle eq nsize nsize_1 lastNeedle iEnd
      (S (Z.to_nat hsize)) i skip.

Section Sequences.

Variable T : Type.

(** [n] lies in [h] from index [k] on. *)
Definition occurs_at (h n : list T) (k : nat) : Prop :=
  exists pre post, h = pre ++ n ++ post /\ length pre = k.

(** The same through a comparator: slot by slot, the element of [h] against
    the element of [n]. *)
Definition matches_at (eq : T -> T -> bool) (h n : list T) (k : nat) : Prop :=
  (k + length n <= length h)%nat
  /\ forall j x y,
       nth_error h (k + j) = Some x -> nth_error n j = Some y -> eq x y = true.

(** What a search for [n] in [h] has to return: the least index at which
    [n] occurs when it occurs, an index that is not [npos]; and [npos]
    exactly when [n] occurs nowhere. *)
Definition finds_leftmost (res : outcome Z) (h n : list T) : Prop :=
  (forall k,
     occurs_at h n k ->
     (forall k', occurs_at h n k' -> (k <= k')%nat) ->
     res = Ret (Z.of_nat k) /\ Z.of_nat k <> npos)
  /\ ((exists k, occurs_at h n k) ->
      exists k,
        occurs_at h n k
        /\ (forall k', occurs_at h n k' -> (k <= k')%nat)
        /\ res = Ret (Z.of_nat k))
  /\ (res = Ret npos <-> forall k, ~ occurs_at h n k).

End Sequences.

Arguments occurs_at {T}.
Arguments matches_at {T}.
Arguments finds_leftmost {T}.

(** ** Character views: StringPiece *)

(** A [char] by its value. *)
Definition char : Type := Z.
Definition StringPiece : Type := Range.

(** [AsciiCaseSensitive::operator()] *)
Definition AsciiCaseSensitive (lhs rhs : char) : bool := lhs =? rhs.

(** [toupper] on the values of the C locale. *)
Definition toupper (c : Z) : Z :=
  if (97 <=? c) && (c <=? 122) then c - 32 else c.

(** [AsciiCaseInsensitive::operator()] *)
Definition AsciiCaseInsensitive (lhs rhs : char) : bool :=
  toupper lhs =? toupper rhs.

Definition asciiCaseSensitive : char -> char -> bool := AsciiCaseSensitive.
Definition asciiCaseInsensitive : char -> char -> bool := AsciiCaseInsensitive.

(** [qfind(haystack, needle)] *)
Definition qfind (m : memory char) (haystack needle : StringPiece) : outcome Z :=
  qfind3 m haystack needle asciiCaseSensitive.

(** [qfind(haystack, const value_type& needle)]: the needle is passed by
    reference, [needle] is the address of the element. *)
Definition qfind_elem (m : memory char) (haystack : StringPiece) (needle : Z)
  : outcome Z :=
  r <- makeRange needle (needle + 1) ;;
  qfind m haystack r.

(** [find(Range str)] *)
Definition find (m : memory char) (this str : StringPiece) : outcome Z :=
  qfind m this str.

(** [find(Range str, size_t pos)] *)
Definition find_from (m : memory char) (this str : StringPiece) (pos : Z)
  : outcome Z :=
  sz <- size this ;;
  if pos >? sz then Ret npos
  else
    sub <- subpiece this pos npos ;;
    ret <- qfind m sub str ;;
    Ret (if ret =? npos then ret else wrap64 (ret + pos)).

(** The characters of a string literal. *)
Definition chars (s : String.string) : list char :=
  map (fun c => Z.of_nat (Ascii.nat_of_ascii c)) (String.list_ascii_of_string s).

(** Storage with the literal [h] at address 16 and the literal [n] at
    address 4096, and the views of the two. *)
Definition two_strings (h n : String.string) : memory char :=
  place 16 (chars h) (place 4096 (chars n) no_memory).
Definition view_at (base : Z) (s : String.string) : StringPiece :=
  mkRange base (base + Z.of_nat (String.length s)).

(** Modelled from the spec: [traits_type::compare], which is
    [std::char_traits<const char>::compare] ([value_type] is [const char],
    lines 105-109), is the C++ library's generic template and not part of
    the header; a "three-way lexicographic comparison" of [n] positions, by
    [<] on the characters, which are signed, with result -1, 0 or 1. *)
Fixpoint traits_compare (m : memory char) (s1 s2 : Z) (n : nat) : outcome Z :=
  match n with
  | O => Ret 0
  | S n' =>
      a <- load m s1 ;;
      b <- load m s2 ;;
      if a <? b then Ret (-1)
      else if b <? a then Ret 1
      else traits_compare m (s1 + 1) (s2 + 1) n'
  end.

(** [compare(const Range& o)] *)
Definition compare (m : memory char) (this o : StringPiece) : outcome Z :=
  tsize <- size this ;;
  osize <- size o ;;
  let msize := Z.min tsize osize in
  r <- traits_compare m (data this) (data o) (Z.to_nat msize) ;;
  let r := if r =? 0 then to_int (wrap64 (tsize - osize)) else r in
  Ret r.

(** [operator==(const Range<T>& lhs, const Range<T>& rhs)] *)
Definition op_eq (m : memory char) (lhs rhs : StringPiece) : outcome bool :=
  ls <- size lhs ;;
  rs <- size rhs ;;
  if ls =? rs then c <- compare m lhs rhs ;; Ret (c =? 0)
  else Ret false.

(** [operator<(const Range<T>& lhs, const Range<T>& rhs)] *)
Definition op_lt (m : memory char) (lhs rhs : StringPiece) : outcome bool :=
  c <- compare m lhs rhs ;;
  Ret (c <? 0).

(** [for (size_t ix = 0; ix < size(); ix++) hash = ((hash << 5) + hash) +
    b_[ix];] entered with the values of [ix] and [hash]. *)
Fixpoint hash_loop (m : memory char) (this : StringPiece) (fuel : nat)
    (ix hash : Z) : outcome Z :=
  match fuel with
  | O => OutOfFuel
  | S fuel' =>
      sz <- size this ;;
      if ix <? sz then
        c <- load m (b_ this + ix) ;;
        let hash := wrap32 (wrap32 (wrap32 (Z.shiftl hash 5) + hash) + c) in
        hash_loop m this fuel' (wrap64 (ix + 1)) hash
      else Ret hash
  end.

(** [hash()] *)
Definition hash (m : memory char) (this : StringPiece) : outcome Z :=
  hash_loop m this (S (Z.to_nat (e_ this - b_ this))) 0 5381.

(** The hash as the documentation words it: seed 5381, then
    [hash = hash * 33 + element] for each element in order, in arithmetic
    modulo 2^32. *)
Definition bernstein (l : list char) : Z :=
  fold_left (fun h c => (h * 33 + c) mod 2 ^ 32) l 5381.

(** Storage in which the 2^32 + 2^31 characters from address 0 on are live
    and zero. *)
Definition six_gib : memory char :=
  fun p => if (0 <=? p) && (p <? 2 ^ 32 + 2 ^ 31) then Some 0 else None.

(** The order of the documentation on two sequences of characters:
    lexicographic by [<] on the characters, a sequence before its proper
    extensions; -1, 0 or 1. *)
Fixpoint lexicographic (a b : list char) : Z :=
  match a, b with
  | [], [] => 0
  | [], _ :: _ => -1
  | _ :: _, [] => 1
  | x :: a', y :: b' =>
      if x <? y then -1
      else if y <? x then 1
      else lexicographic a' b'
  end.

(** The values of a [char]. *)
Definition is_char (c : Z) : Prop := -128 <= c <= 127.

(** ** The members that move the bounds *)

(** A member that writes [b_] or [e_] returns the view after the call. *)

(** [advance(size_type n)] *)
Definition advance (this : Range) (n : Z) : outcome Range :=
  sz <- size this ;;
  check (n <=? sz) ;;;
  Ret (mkRange (b_ this + n) (e_ this)).

(** [subtract(size_type n)] *)
Definition subtract (this : Range) (n : Z) : outcome Range :=
  sz <- size this ;;
  check (n <=? sz) ;;;
  Ret (mkRange (b_ this) (e_ this - n)).

(** [pop_front()] *)
Definition pop_front (this : Range) : outcome Range :=
  check (b_ this <? e_ this) ;;;
  Ret (mkRange (b_ this + 1) (e_ this)).

(** [pop_back()] *)
Definition pop_back (this : Range) : outcome Range :=
  check (b_ this <? e_ this) ;;;
  Ret (mkRange (b_ this) (e_ this - 1)).

(** [detail::value_before(Iter i)] on a random-access iterator: the
    reference [i[-1]]. *)
Definition value_before (i : Z) : Z := i - 1.

(** [front()]: a reference. *)
Definition front (this : Range) : outcome Z :=
  check (b_ this <? e_ this) ;;;
  Ret (b_ this).

(** [back()]: a reference. *)
Definition back (this : Range) : outcome Z :=
  check (b_ this <? e_ this) ;;;
  Ret (value_before (e_ this)).

(** [n] calls of one member in a row, each on the view the call before
    left. *)
Fixpoint times (f : Range -> outcome Range) (n : nat) (this : Range)
  : outcome Range :=
  match n with
  | O => Ret this
  | S n' => next <- f this ;; times f n' next
  end.

(** ** Views of a [std::string] *)

(** What the constructors read of a [std::string] (and of an [fbstring]):
    [data()] and [size()]. *)
Record cxx_string : Type := mkString { str_data : Z; str_size : Z }.

(** [Range(const std::string& str)] *)
Definition Range_of_string (str : cxx_string) : Range :=
  mkRange (str_data str) (str_data str + str_size str).

(** [Range(const std::string& str, size_type startFrom)] *)
Definition Range_of_string_from (str : cxx_string) (startFrom : Z)
  : outcome Range :=
  check (startFrom <=? str_size str) ;;;
  Ret (mkRange (str_data str + startFrom) (str_data str + str_size str)).

(** [Range(const std::string& str, size_type startFrom, size_type size)]:
    [b_ = str.data() + startFrom; e_ = b_ + size;] on pointers of 64 bits,
    as the sum of the check is on [size_t]. *)
Definition Range_of_string_slice (str : cxx_string) (startFrom size : Z)
  : outcome Range :=
  check (wrap64 (startFrom + size) <=? str_size str) ;;;
  let b := wrap64 (str_data str + startFrom) in
  Ret (mkRange b (wrap64 (b + size))).

(** ** The other overloads of find *)

(** [find(Iter s, size_t pos, size_t n)] *)
Definition find_ptr_n (m : memory char) (this : StringPiece) (s pos n : Z)
  : outcome Z :=
  sz <- size this ;;
  if pos >? sz then Ret npos
  else
    sub <- (if pos =? 0 then Ret this else subpiece this pos npos) ;;
    ret <- qfind m sub (Range_of_size s n) ;;
    Ret (if ret =? npos then ret else wrap64 (ret + pos)).

(** [find(value_type c)].  The parameter [c] is an object of the call; the
    element overload of [qfind] takes its address, [arg], and reads it
    there. *)
Definition find_char (m : memory char) (this : StringPiece) (c : char)
    (arg : Z) : outcome Z :=
  qfind_elem (place arg [c] m) this arg.

(** [find(value_type c, size_t pos)], with [arg] the address of [c]. *)
Definition find_char_from (m : memory char) (this : StringPiece) (c : char)
    (pos arg : Z) : outcome Z :=
  sz <- size this ;;
  if pos >? sz then Ret npos
  else
    sub <- subpiece this pos npos ;;
    ret <- qfind_elem (place arg [c] m) sub arg ;;
    Ret (if ret =? npos then ret else wrap64 (ret + pos)).

(** * Proofs *)

(** ** Arithmetic of the machine integers *)

Lemma wrap64_small (z : Z) : 0 <= z < 2 ^ 64 -> wrap64 z = z.
Proof. intros H. unfold wrap64. apply Z.mod_small. exact H. Qed.

Lemma npos_value : npos = 2 ^ 64 - 1.
Proof. reflexivity. Qed.

Lemma size_valid (r : Range) : valid r -> size r = Ret (e_ r - b_ r).
Proof.
  intros (H0 & H1 & H2). unfold size.
  apply Z.leb_le in H1 as Hb. rewrite Hb. simpl.
  rewrite wrap64_small; [reflexivity | lia].
Qed.

Lemma index_valid (r : Range) (i : Z) :
  valid r -> 0 <= i < e_ r - b_ r -> index r i = Ret (b_ r + i).
Proof.
  intros Hv Hi. unfold index. rewrite (size_valid r Hv). simpl.
  assert (E : (e_ r - b_ r >? i) = true) by (apply Z.gtb_lt; lia).
  rewrite E. reflexivity.
Qed.

(** ** The loops of qfind *)

Section QFindProofs.

Variable T : Type.
Variable m : memory T.
Variables haystack needle : Range.
Variable eq : T -> T -> bool.
Variables nsize nsize_1 : Z.
Variable lastNeedle : T.
Variable iEnd : Z.

Local Abbreviation pk := (peek m lastNeedle).
Local Abbreviation lastOk := (last_ok m eq nsize_1 lastNeedle).
Local Abbreviation eqAt := (eq_at m needle eq lastNeedle).
Local Abbreviation hitAt := (hit m needle eq nsize lastNeedle).
Local Abbreviation isSkip := (is_skip m needle eq nsize nsize_1 lastNeedle).


Hypothesis Hvh : valid haystack.
Hypothesis Hvn : valid needle.
Hypothesis Hnsize : nsize = e_ needle - b_ needle.
Hypothesis Hnsize_1 : nsize_1 = nsize - 1.
Hypothesis Hpos : 1 <= nsize.
Hypothesis Hfits : nsize <= e_ haystack - b_ haystack.
Hypothesis HiEnd : iEnd = e_ haystack - nsize_1.
Hypothesis Hlast : m (b_ needle + nsize_1) = Some lastNeedle.
Hypothesis Hlive_h : forall p, b_ haystack <= p < e_ haystack -> m p <> None.
Hypothesis Hlive_n : forall p, b_ needle <= p < e_ needle -> m p <> None.

Lemma load_haystack (p : Z) :
  b_ haystack <= p < e_ haystack -> load m p = Ret (pk p).
Proof.
  intros Hp. unfold load, peek. specialize (Hlive_h p Hp).
  destruct (m p); [reflexivity | congruence].
Qed.

Lemma index_needle (j : Z) :
  0 <= j < nsize -> index needle j = Ret (b_ needle + j).
Proof. intros Hj. apply index_valid; [assumption | lia]. Qed.

Lemma load_needle (j : Z) :
  0 <= j < nsize -> load m (b_ needle + j) = Ret (pk (b_ needle + j)).
Proof.
  intros Hj. unfold load, peek. assert (Hl := Hlive_n (b_ needle + j)).
  destruct (m (b_ needle + j));
    [reflexivity | exfalso; apply Hl; [lia | reflexivity]].
Qed.

Lemma peek_last : pk (b_ needle + nsize_1) = lastNeedle.
Proof. unfold peek. rewrite Hlast. reflexivity. Qed.

Lemma hit_last_ok (i : Z) : hitAt i -> lastOk i.
Proof.
  intros Hh. unfold last_ok. specialize (Hh nsize_1).
  unfold eq_at in Hh. rewrite peek_last in Hh. apply Hh. lia.
Qed.

Lemma is_skip_unique (s s' : Z) : isSkip s -> isSkip s' -> s = s'.
Proof.
  intros (R1 & Y1 & N1) (R2 & Y2 & N2).
  destruct (Z.lt_trichotomy s s') as [L | [E | L]]; [exfalso | exact E | exfalso].
  - assert (Ht : eq (pk (b_ needle + (nsize_1 - s))) lastNeedle = true)
      by (apply Y1; lia).
    rewrite N2 in Ht by lia. discriminate.
  - assert (Ht : eq (pk (b_ needle + (nsize_1 - s'))) lastNeedle = true)
      by (apply Y2; lia).
    rewrite N1 in Ht by lia. discriminate.
Qed.

(** The scan for the last element. *)
Lemma find_last_spec (fuel : nat) :
  forall i,
    b_ haystack <= i < iEnd ->
    (Z.to_nat (iEnd - i) <= fuel)%nat ->
    match find_last m eq nsize_1 lastNeedle iEnd fuel i with
    | Ret (Some i') =>
        i <= i' < iEnd /\ lastOk i' /\ forall k, i <= k < i' -> ~ lastOk k
    | Ret None => forall k, i <= k < iEnd -> ~ lastOk k
    | _ => False
    end.
Proof.
  induction fuel as [| fuel IH]; intros i Hi Hfuel.
  - lia.
  - simpl. rewrite load_haystack by lia. simpl.
    destruct (eq (pk (i + nsize_1)) lastNeedle) eqn:E; simpl.
    + split; [lia |]. split; [exact E |]. intros k Hk. lia.
    + destruct (i + 1 =? iEnd) eqn:E2.
      * apply Z.eqb_eq in E2. intros k Hk.
        assert (k = i) by lia. subst k. unfold last_ok. rewrite E. discriminate.
      * apply Z.eqb_neq in E2.
        specialize (IH (i + 1)).
        destruct (find_last m eq nsize_1 lastNeedle iEnd fuel (i + 1))
          as [[i' |] | | | |]; try (apply IH; lia).
        -- destruct IH as (R & L & N); [lia | lia |].
           split; [lia |]. split; [exact L |].
           intros k Hk. destruct (Z.eq_dec k i) as [-> | Hne].
           ++ unfold last_ok. rewrite E. discriminate.
           ++ apply N. lia.
        -- intros k Hk. destruct (Z.eq_dec k i) as [-> | Hne].
           ++ unfold last_ok. rewrite E. discriminate.
           ++ apply IH; lia.
Qed.

(** The computation of the skip. *)
Lemma skip_loop_spec (fuel : nat) :
  forall s0,
    1 <= s0 <= nsize ->
    (Z.to_nat (nsize - s0) < fuel)%nat ->
    match skip_loop m needle eq nsize_1 lastNeedle fuel s0 with
    | Ret s =>
        s0 <= s <= nsize
        /\ (s <= nsize_1 ->
            eq (pk (b_ needle + (nsize_1 - s))) lastNeedle = true)
        /\ (forall d, s0 <= d < s ->
              eq (pk (b_ needle + (nsize_1 - d))) lastNeedle = false)
    | _ => False
    end.
Proof.
  induction fuel as [| fuel IH]; intros s0 Hs Hfuel.
  - lia.
  - simpl. destruct (s0 <=? nsize_1) eqn:E.
    + apply Z.leb_le in E.
      assert (Hb : 0 <= nsize_1 - s0 < 2 ^ 64) by (destruct Hvn; lia).
      rewrite (wrap64_small _ Hb).
      rewrite index_needle by lia. simpl. rewrite load_needle by lia. simpl.
      destruct (eq (pk (b_ needle + (nsize_1 - s0))) lastNeedle) eqn:E2; simpl.
      * split; [lia |]. split; [intros _; exact E2 |]. intros d Hd. lia.
      * assert (Hw : wrap64 (s0 + 1) = s0 + 1)
          by (apply wrap64_small; destruct Hvn; lia).
        rewrite Hw. specialize (IH (s0 + 1)).
        destruct (skip_loop m needle eq nsize_1 lastNeedle fuel (s0 + 1));
          try (apply IH; lia).
        destruct IH as (R & Y & N); [lia | lia |].
        split; [lia |]. split; [exact Y |].
        intros d Hd. destruct (Z.eq_dec d s0) as [-> | Hne];
          [exact E2 | apply N; lia].
    + apply Z.leb_gt in E. split; [lia |]. split; [lia |]. intros d Hd. lia.
Qed.

Lemma lazy_skip_spec (skip : Z) :
  match lazy_skip m needle eq nsize_1 lastNeedle skip with
  | Ret s => (skip = 0 /\ isSkip s) \/ (skip <> 0 /\ s = skip)
  | _ => False
  end.
Proof.
  unfold lazy_skip. destruct (skip =? 0) eqn:E.
  - apply Z.eqb_eq in E.
    assert (H := skip_loop_spec (S (Z.to_nat nsize_1)) 1).
    destruct (skip_loop m needle eq nsize_1 lastNeedle (S (Z.to_nat nsize_1)) 1);
      try (apply H; lia).
    left. split; [exact E |]. apply H; lia.
  - apply Z.eqb_neq in E. right. split; [exact E | reflexivity].
Qed.


(** The verification of one alignment. *)
Lemma pedestrian_spec (i skip : Z) (fuel : nat) :
  b_ haystack <= i < iEnd ->
  forall j,
    0 <= j < nsize ->
    (Z.to_nat (nsize - j) <= fuel)%nat ->
    match pedestrian m haystack needle eq nsize nsize_1 lastNeedle fuel i skip j with
    | Ret (Return r) =>
        r = i - b_ haystack /\ forall t, j <= t < nsize -> eqAt i t = true
    | Ret (Continue i' s') =>
        lazy_skip m needle eq nsize_1 lastNeedle skip = Ret s'
        /\ i' = i + s'
        /\ exists t, j <= t < nsize /\ eqAt i t = false
    | _ => False
    end.
Proof.
  intros Hi. induction fuel as [| fuel IH]; intros j Hj Hfuel.
  - lia.
  - simpl. assert (E : (j <? nsize) = true) by (apply Z.ltb_lt; lia).
    rewrite E. simpl.
    rewrite load_haystack by lia. simpl.
    rewrite index_needle by lia. simpl. rewrite load_needle by lia. simpl.
    fold (eqAt i j). destruct (eqAt i j) eqn:Ej; simpl.
    + assert (Hw : wrap64 (j + 1) = j + 1)
        by (apply wrap64_small; destruct Hvn; lia).
      rewrite Hw. destruct (j + 1 =? nsize) eqn:E2.
      * apply Z.eqb_eq in E2. unfold begin.
        rewrite wrap64_small by (destruct Hvh; lia).
        split; [reflexivity |]. intros t Ht.
        assert (t = j) by lia. subst t. exact Ej.
      * apply Z.eqb_neq in E2. specialize (IH (j + 1)).
        destruct (pedestrian m haystack needle eq nsize nsize_1 lastNeedle
                    fuel i skip (j + 1)) as [[r | i' s'] | | | |];
          try (apply IH; lia).
        -- destruct IH as (R & A); [lia | lia |]. split; [exact R |].
           intros t Ht. destruct (Z.eq_dec t j) as [-> | Hne];
             [exact Ej | apply A; lia].
        -- destruct IH as (L & I & t & Ht & Et); [lia | lia |].
           split; [exact L |]. split; [exact I |].
           exists t. split; [lia | exact Et].
    + assert (Hs := lazy_skip_spec skip).
      destruct (lazy_skip m needle eq nsize_1 lastNeedle skip) as [s' | | | |];
        try contradiction.
      simpl. split; [reflexivity |]. split; [reflexivity |].
      exists j. split; [lia | exact Ej].
Qed.


(** No alignment strictly inside the skipped stretch can be a match. *)
Lemma skip_is_safe (i s d : Z) :
  (euclidean eq) -> lastOk i -> isSkip s -> 0 < d < s -> ~ hitAt (i + d).
Proof.
  intros He Hl (R & _ & N) Hd Hh.
  specialize (Hh (nsize_1 - d)). unfold eq_at in Hh.
  replace (i + d + (nsize_1 - d)) with (i + nsize_1) in Hh by lia.
  assert (Hx : eq (pk (b_ needle + (nsize_1 - d))) lastNeedle = true).
  { apply (He (pk (i + nsize_1))); [apply Hh; lia | exact Hl]. }
  rewrite N in Hx by lia. discriminate.
Qed.

(** The outer loop: it returns; an offset it returns is a match; and under
    a (euclidean eq) comparator no alignment before the returned one is a match,
    none at all when it returns [npos]. *)
Lemma outer_loop_spec (fuel : nat) :
  forall i skip,
    b_ haystack <= i <= e_ haystack ->
    skip = 0 \/ isSkip skip ->
    (Z.to_nat (iEnd - i) < fuel)%nat ->
    match outer_loop m haystack needle eq nsize nsize_1 lastNeedle iEnd
            fuel i skip with
    | Ret r =>
        (r = npos /\ ((euclidean eq) -> forall k, i <= k < iEnd -> ~ hitAt k))
        \/ (i <= b_ haystack + r < iEnd
            /\ hitAt (b_ haystack + r)
            /\ ((euclidean eq) -> forall k, i <= k < b_ haystack + r -> ~ hitAt k))
    | _ => False
    end.
Proof.
  induction fuel as [| fuel IH]; intros i skip Hi Hskip Hfuel.
  - lia.
  - simpl. destruct (i <? iEnd) eqn:E.
    2:{ apply Z.ltb_ge in E. left. split; [reflexivity |]. intros _ k Hk. lia. }
    apply Z.ltb_lt in E. unfold outer_body.
    assert (Hf := find_last_spec (Z.to_nat (iEnd - i)) i).
    destruct (find_last m eq nsize_1 lastNeedle iEnd (Z.to_nat (iEnd - i)) i)
      as [[i' |] | | | |]; try (apply Hf; lia).
    2:{ simpl. left. split; [reflexivity |]. intros _ k Hk Hh.
        apply (Hf ltac:(lia) ltac:(lia) k Hk). apply hit_last_ok. exact Hh. }
    destruct Hf as (Ri & Li & Ni); [lia | lia |]. simpl.
    assert (Hp := pedestrian_spec i' skip (Z.to_nat nsize) ltac:(lia) 0).
    destruct (pedestrian m haystack needle eq nsize nsize_1 lastNeedle
                (Z.to_nat nsize) i' skip 0) as [[r | i2 s'] | | | |];
      try (apply Hp; lia).
    + simpl. destruct Hp as (-> & A); [lia | lia |]. right.
      replace (b_ haystack + (i' - b_ haystack)) with i' by lia.
      split; [lia |]. split; [exact A |].
      intros _ k Hk Hh. apply (Ni k Hk). apply hit_last_ok. exact Hh.
    + simpl. destruct Hp as (L & -> & t & Ht & Et); [lia | lia |].
      assert (Hs : isSkip s').
      { assert (Hz := lazy_skip_spec skip). rewrite L in Hz.
        destruct Hz as [(_ & Hz) | (Hne & ->)]; [exact Hz |].
        destruct Hskip; [contradiction | assumption]. }
      assert (Hrange : 1 <= s' <= nsize) by (destruct Hs; assumption).
      assert (Hgap : (euclidean eq) -> forall k, i <= k < i' + s' -> ~ hitAt k).
      { intros He k Hk Hh.
        destruct (Z.lt_trichotomy k i') as [Lt | [-> | Gt]].
        - apply (Ni k ltac:(lia)). apply hit_last_ok. exact Hh.
        - rewrite (Hh t Ht) in Et. discriminate.
        - apply (skip_is_safe i' s' (k - i') He Li Hs ltac:(lia)).
          replace (i' + (k - i')) with k by lia. exact Hh. }
      specialize (IH (i' + s') s').
      destruct (outer_loop m haystack needle eq nsize nsize_1 lastNeedle iEnd
                  fuel (i' + s') s'); try (apply IH; [lia | right; exact Hs | lia]).
      destruct IH as [(-> & Hn) | (Rr & Hr & Hn)]; [lia | right; exact Hs | lia | |].
      * left. split; [reflexivity |]. intros He k Hk.
        destruct (Z_lt_le_dec k (i' + s')); [apply Hgap; [exact He | lia] |].
        apply Hn; [exact He | lia].
      * right. split; [lia |]. split; [exact Hr |]. intros He k Hk.
        destruct (Z_lt_le_dec k (i' + s')); [apply Hgap; [exact He | lia] |].
        apply Hn; [exact He | lia].
Qed.

(** The counted loops return what the loops return, in every storage. *)
Lemma lazy_skip_erase (skip : Z) :
  lazy_skip m needle eq nsize_1 lastNeedle skip
  = (p <- lazy_skip_counted m needle eq nsize_1 lastNeedle skip ;;
     Ret (fst p)).
Proof.
  unfold lazy_skip, lazy_skip_counted.
  destruct (skip =? 0); [| reflexivity].
  destruct (skip_loop m needle eq nsize_1 lastNeedle (S (Z.to_nat nsize_1)) 1);
    reflexivity.
Qed.

Lemma pedestrian_erase (fuel : nat) :
  forall i skip j,
    pedestrian m haystack needle eq nsize nsize_1 lastNeedle fuel i skip j
    = (p <- pedestrian_counted m haystack needle eq nsize nsize_1 lastNeedle
              fuel i skip j ;;
       Ret (fst p)).
Proof.
  induction fuel as [| fuel IH]; intros i skip j; [reflexivity |].
  cbn [pedestrian pedestrian_counted].
  destruct (check (j <? nsize)) as [[] | | | |]; try reflexivity.
  cbn [bind].
  destruct (load m (i + j)) as [a | | | |]; try reflexivity. cbn [bind].
  destruct (index needle j) as [r | | | |]; try reflexivity. cbn [bind].
  destruct (load m r) as [b | | | |]; try reflexivity. cbn [bind].
  destruct (negb (eq a b)).
  - rewrite lazy_skip_erase.
    destruct (lazy_skip_counted m needle eq nsize_1 lastNeedle skip)
      as [[s c] | | | |]; reflexivity.
  - cbv zeta. destruct (wrap64 (j + 1) =? nsize); [reflexivity | apply IH].
Qed.

Lemma outer_body_erase (i skip : Z) :
  outer_body m haystack needle eq nsize nsize_1 lastNeedle iEnd i skip
  = (p <- outer_body_counted m haystack needle eq nsize nsize_1 lastNeedle
            iEnd i skip ;;
     Ret (fst p)).
Proof.
  unfold outer_body, outer_body_counted.
  destruct (find_last m eq nsize_1 lastNeedle iEnd (Z.to_nat (iEnd - i)) i)
    as [[i1 |] | | | |]; try reflexivity.
  cbn [bind]. apply pedestrian_erase.
Qed.

Lemma outer_loop_erase (fuel : nat) :
  forall i skip,
    outer_loop m haystack needle eq nsize nsize_1 lastNeedle iEnd fuel i skip
    = (p <- outer_loop_counted m haystack needle eq nsize nsize_1 lastNeedle
              iEnd fuel i skip ;;
       Ret (returned p)).
Proof.
  induction fuel as [| fuel IH]; intros i skip; [reflexivity |].
  cbn [outer_loop outer_loop_counted].
  destruct (i <? iEnd); [| reflexivity].
  rewrite outer_body_erase.
  destruct (outer_body_counted m haystack needle eq nsize nsize_1 lastNeedle
              iEnd i skip) as [[[k | i' skip'] c] | | | |]; try reflexivity.
  cbn [bind fst snd]. rewrite IH.
  destruct (outer_loop_counted m haystack needle eq nsize nsize_1 lastNeedle
              iEnd fuel i' skip'); reflexivity.
Qed.

(** A pass of the counted [for] loop ends in a [return], the block not
    run, or in a mismatch, with the skip and the count of the block. *)
Lemma pedestrian_counted_shape (fuel : nat) :
  forall i skip j it c,
    pedestrian_counted m haystack needle eq nsize nsize_1 lastNeedle
      fuel i skip j = Ret (it, c) ->
    match it with
    | Return _ => c = 0%nat
    | Continue i' s' =>
        lazy_skip_counted m needle eq nsize_1 lastNeedle skip = Ret (s', c)
        /\ i' = i + s'
    end.
Proof.
  induction fuel as [| fuel IH]; intros i skip j it c H; [discriminate H |].
  cbn [pedestrian_counted] in H.
  destruct (check (j <? nsize)) as [[] | | | |]; try discriminate H.
  cbn [bind] in H.
  destruct (load m (i + j)) as [a | | | |]; try discriminate H.
  cbn [bind] in H.
  destruct (index needle j) as [r | | | |]; try discriminate H.
  cbn [bind] in H.
  destruct (load m r) as [b | | | |]; try discriminate H. cbn [bind] in H.
  destruct (negb (eq a b)).
  - destruct (lazy_skip_counted m needle eq nsize_1 lastNeedle skip)
      as [[s c'] | | | |]; try discriminate H.
    cbn [bind fst snd] in H. injection H as <- <-. split; reflexivity.
  - cbv zeta in H. destruct (wrap64 (j + 1) =? nsize).
    + injection H as <- <-. reflexivity.
    + apply (IH _ _ _ _ _ H).
Qed.

Lemma lazy_skip_counted_spec (skip : Z) :
  match lazy_skip_counted m needle eq nsize_1 lastNeedle skip with
  | Ret (s, c) =>
      (skip = 0 /\ isSkip s /\ c = 1%nat)
      \/ (skip <> 0 /\ s = skip /\ c = 0%nat)
  | _ => False
  end.
Proof.
  unfold lazy_skip_counted. destruct (skip =? 0) eqn:E.
  - apply Z.eqb_eq in E.
    assert (H := skip_loop_spec (S (Z.to_nat nsize_1)) 1).
    destruct (skip_loop m needle eq nsize_1 lastNeedle (S (Z.to_nat nsize_1)) 1);
      try (apply H; lia).
    cbn [bind]. left. split; [exact E |]. split; [apply H; lia | reflexivity].
  - apply Z.eqb_neq in E. right. split; [exact E |]. split; reflexivity.
Qed.

(** The counted outer loop on live views: it returns; every value [skip]
    had at an [i += skip] is the skip distance; entered with [skip] still
    0 the block ran once if there was a mismatch and not at all if there
    was none; entered with the skip known the block did not run; and when
    the first alignment that passes the probe of the last element is not a
    match, there is a mismatch. *)
Lemma outer_loop_counted_spec (fuel : nat) :
  forall i skip,
    b_ haystack <= i <= e_ haystack ->
    skip = 0 \/ isSkip skip ->
    (Z.to_nat (iEnd - i) < fuel)%nat ->
    exists p,
      outer_loop_counted m haystack needle eq nsize nsize_1 lastNeedle iEnd
        fuel i skip = Ret p
      /\ Forall (fun s => isSkip s) (skips p)
      /\ (skip = 0 ->
          (skips p = [] /\ computed p = 0%nat)
          \/ (skips p <> [] /\ computed p = 1%nat))
      /\ (skip <> 0 -> computed p = 0%nat)
      /\ (forall i1,
            i <= i1 < iEnd -> lastOk i1 ->
            (forall k, i <= k < i1 -> ~ lastOk k) ->
            ~ hitAt i1 -> skips p <> []).
Proof.
  induction fuel as [| fuel IH]; intros i skip Hi Hskip Hfuel; [lia |].
  cbn [outer_loop_counted]. destruct (i <? iEnd) eqn:E.
  2:{ apply Z.ltb_ge in E. eexists. split; [reflexivity |]. simpl.
      split; [constructor |]. split; [intros _; left; split; reflexivity |].
      split; [intros _; reflexivity |]. intros i1 Hi1. lia. }
  apply Z.ltb_lt in E. unfold outer_body_counted.
  assert (Hf := find_last_spec (Z.to_nat (iEnd - i)) i).
  destruct (find_last m eq nsize_1 lastNeedle iEnd (Z.to_nat (iEnd - i)) i)
    as [[i' |] | | | |]; try (exfalso; apply Hf; lia).
  2:{ cbn [bind fst snd]. eexists. split; [reflexivity |]. simpl.
      split; [constructor |]. split; [intros _; left; split; reflexivity |].
      split; [intros _; reflexivity |]. intros i1 Hi1 Hl _ _. exfalso.
      apply (Hf ltac:(lia) ltac:(lia) i1 Hi1 Hl). }
  destruct Hf as (Ri & Li & Ni); [lia | lia |]. cbn [bind].
  assert (Hp := pedestrian_spec i' skip (Z.to_nat nsize) ltac:(lia) 0).
  rewrite pedestrian_erase in Hp.
  destruct (pedestrian_counted m haystack needle eq nsize nsize_1 lastNeedle
              (Z.to_nat nsize) i' skip 0) as [[it c] | | | |] eqn:Ep;
    try (exfalso; apply Hp; lia).
  cbn [bind fst snd] in Hp |- *.
  assert (Hshape := pedestrian_counted_shape _ _ _ _ _ _ Ep).
  destruct it as [r | i2 s'].
  - subst c. destruct Hp as (_ & A); [lia | lia |].
    eexists. split; [reflexivity |]. simpl.
    split; [constructor |]. split; [intros _; left; split; reflexivity |].
    split; [intros _; reflexivity |].
    intros i1 Hi1 Hl Hfirst Hno. exfalso.
    assert (i1 = i').
    { destruct (Z.lt_trichotomy i1 i') as [Lt | [Eq | Gt]]; [| exact Eq |].
      - exfalso. apply (Ni i1 ltac:(lia) Hl).
      - exfalso. apply (Hfirst i' ltac:(lia) Li). }
    subst i1. apply Hno. exact A.
  - destruct Hshape as (Hl & ->).
    assert (Hs := lazy_skip_counted_spec skip). rewrite Hl in Hs.
    assert (Hs' : isSkip s').
    { destruct Hs as [(_ & Hs & _) | (Hne & -> & _)]; [exact Hs |].
      destruct Hskip; [contradiction | assumption]. }
    assert (Hrange : 1 <= s' <= nsize) by (destruct Hs'; assumption).
    destruct (IH (i' + s') s' ltac:(lia) (or_intror Hs') ltac:(lia))
      as (rest & Hrest & Hall & _ & Hzero & _).
    rewrite Hrest. cbn [bind]. eexists. split; [reflexivity |]. simpl.
    assert (Hc : computed rest = 0%nat) by (apply Hzero; lia).
    split; [constructor; assumption |].
    split; [| split].
    + intros Hz. right. split; [discriminate |].
      destruct Hs as [(_ & _ & ->) | (Hne & _)]; [lia | contradiction].
    + intros Hnz. destruct Hs as [(Hz & _) | (_ & _ & ->)];
        [contradiction | lia].
    + intros i1 _ _ _ _. discriminate.
Qed.

End QFindProofs.


(** ** Occurrences of one sequence in another *)

Section Occurrences.

Variable T : Type.


Lemma occurs_at_nth (h n : list T) (k : nat) :
  occurs_at h n k <->
  (k + length n <= length h)%nat
  /\ forall j, (j < length n)%nat -> nth_error h (k + j) = nth_error n j.
Proof.
  split.
  - intros (pre & post & -> & <-). split.
    + rewrite !length_app. lia.
    + intros j Hj. rewrite nth_error_app2 by lia.
      replace (length pre + j - length pre)%nat with j by lia.
      apply nth_error_app1. exact Hj.
  - intros (Hlen & Hnth).
    exists (firstn k h), (skipn (k + length n) h).
    assert (Hk : length (firstn k h) = k) by (rewrite length_firstn; lia).
    split; [| exact Hk].
    apply nth_error_ext. intros i.
    destruct (Nat.lt_ge_cases i k) as [Lt | Ge].
    + rewrite nth_error_app1 by lia. rewrite nth_error_firstn.
      apply Nat.ltb_lt in Lt. rewrite Lt. reflexivity.
    + rewrite nth_error_app2 by lia. rewrite Hk.
      destruct (Nat.lt_ge_cases (i - k) (length n)) as [Lt2 | Ge2].
      * rewrite nth_error_app1 by lia. rewrite <- Hnth by lia.
        f_equal. lia.
      * rewrite nth_error_app2 by lia. rewrite nth_error_skipn.
        f_equal. lia.
Qed.

Lemma matches_at_occurs (eq : T -> T -> bool) (h n : list T) (k : nat) :
  (forall a b, eq a b = true <-> a = b) ->
  (matches_at eq h n k <-> occurs_at h n k).
Proof.
  intros Heq. rewrite occurs_at_nth. unfold matches_at.
  split; intros (Hlen & Hnth); (split; [exact Hlen |]).
  - intros j Hj.
    destruct (nth_error h (k + j)) as [x |] eqn:Ex.
    2:{ apply nth_error_None in Ex. lia. }
    destruct (nth_error n j) as [y |] eqn:Ey.
    2:{ apply nth_error_None in Ey. lia. }
    f_equal. apply Heq. apply (Hnth j); assumption.
  - intros j x y Hx Hy. apply Heq.
    assert (Hj : (j < length n)%nat)
      by (apply nth_error_Some; rewrite Hy; discriminate).
    rewrite (Hnth j Hj) in Hx. congruence.
Qed.

Lemma equality_euclidean (eq : T -> T -> bool) :
  (forall a b, eq a b = true <-> a = b) -> euclidean eq.
Proof.
  intros Heq a b c Hab Hac. apply Heq in Hab, Hac. apply Heq. congruence.
Qed.

(** ** What a view shows *)

Variable m : memory T.

Lemma read_seq_spec (n : nat) :
  forall p l,
    read_seq m p n = Some l ->
    length l = n
    /\ forall j, (j < n)%nat -> m (p + Z.of_nat j) = nth_error l j.
Proof.
  induction n as [| n IH]; intros p l H; simpl in H.
  - injection H as <-. split; [reflexivity | intros j Hj; lia].
  - destruct (m p) as [x |] eqn:Ep; [| discriminate].
    destruct (read_seq m (p + 1) n) as [l' |] eqn:Er; [| discriminate].
    injection H as <-. destruct (IH _ _ Er) as (L & N).
    split; [simpl; lia |].
    intros [| j] Hj.
    + simpl. rewrite Z.add_0_r. exact Ep.
    + simpl nth_error. rewrite <- N by lia. f_equal. lia.
Qed.

Lemma contents_length (r : Range) (l : list T) :
  valid r -> contents m r = Some l -> Z.of_nat (length l) = e_ r - b_ r.
Proof.
  intros (H0 & H1 & H2) H. apply read_seq_spec in H. destruct H as (L & _).
  rewrite L. lia.
Qed.

Lemma contents_nth (r : Range) (l : list T) (j : nat) :
  contents m r = Some l -> (j < length l)%nat ->
  m (b_ r + Z.of_nat j) = nth_error l j.
Proof.
  intros H Hj. apply read_seq_spec in H. destruct H as (L & N).
  apply N. lia.
Qed.

Lemma contents_live (r : Range) (l : list T) :
  valid r -> contents m r = Some l ->
  forall p, b_ r <= p < e_ r -> m p <> None.
Proof.
  intros Hv H p Hp. assert (L := contents_length r l Hv H).
  replace p with (b_ r + Z.of_nat (Z.to_nat (p - b_ r))) by lia.
  rewrite (contents_nth r l _ H) by lia.
  apply nth_error_Some. lia.
Qed.

Lemma peek_contents (r : Range) (l : list T) (d x : T) (j : nat) :
  contents m r = Some l -> nth_error l j = Some x ->
  peek m d (b_ r + Z.of_nat j) = x.
Proof.
  intros H Hx. unfold peek. rewrite (contents_nth r l j H).
  - rewrite Hx. reflexivity.
  - apply nth_error_Some. rewrite Hx. discriminate.
Qed.

(** On live views, the memory-level match is the match of the sequences. *)
Lemma hit_matches (haystack needle : Range) (eq : T -> T -> bool)
    (h n : list T) (d : T) (k : nat) :
  valid haystack -> valid needle ->
  contents m haystack = Some h -> contents m needle = Some n ->
  (k + length n <= length h)%nat ->
  (hit m needle eq (e_ needle - b_ needle) d (b_ haystack + Z.of_nat k)
   <-> matches_at eq h n k).
Proof.
  intros Hvh Hvn Hh Hn Hk.
  assert (Ln := contents_length needle n Hvn Hn).
  split.
  - intros Hhit. split; [exact Hk |]. intros j x y Hx Hy.
    assert (Hj : (j < length n)%nat)
      by (apply nth_error_Some; rewrite Hy; discriminate).
    specialize (Hhit (Z.of_nat j) ltac:(lia)). unfold eq_at in Hhit.
    rewrite (peek_contents needle n d y j Hn Hy) in Hhit.
    replace (b_ haystack + Z.of_nat k + Z.of_nat j)
      with (b_ haystack + Z.of_nat (k + j)) in Hhit by lia.
    rewrite (peek_contents haystack h d x (k + j) Hh Hx) in Hhit.
    exact Hhit.
  - intros (_ & Hm) j Hj. unfold eq_at.
    destruct (nth_error n (Z.to_nat j)) as [y |] eqn:Ey.
    2:{ apply nth_error_None in Ey. lia. }
    destruct (nth_error h (k + Z.to_nat j)) as [x |] eqn:Ex.
    2:{ apply nth_error_None in Ex. lia. }
    replace (b_ haystack + Z.of_nat k + j)
      with (b_ haystack + Z.of_nat (k + Z.to_nat j)) by lia.
    rewrite (peek_contents haystack h d x _ Hh Ex).
    replace (b_ needle + j) with (b_ needle + Z.of_nat (Z.to_nat j)) by lia.
    rewrite (peek_contents needle n d y _ Hn Ey).
    apply (Hm (Z.to_nat j)); assumption.
Qed.

End Occurrences.


(** ** qfind on live views *)

(** [qfind3] returns. What it returns is [npos] or the index of a match;
    when the comparator is euclidean, [npos] is returned only if there is
    no match, and an index only if there is no match before it. *)
Lemma qfind3_correct (T : Type) (m : memory T) (haystack needle : Range)
    (eq : T -> T -> bool) (h n : list T) :
  valid haystack -> valid needle ->
  contents m haystack = Some h -> contents m needle = Some n ->
  exists r,
    qfind3 m haystack needle eq = Ret r
    /\ ((r = npos /\ (euclidean eq -> forall k, ~ matches_at eq h n k))
        \/ (exists k,
              r = Z.of_nat k /\ r <> npos /\ matches_at eq h n k
              /\ (euclidean eq ->
                  forall k', matches_at eq h n k' -> (k <= k')%nat))).
Proof.
  intros Hvh Hvn Hh Hn.
  assert (Lh := contents_length T m haystack h Hvh Hh).
  assert (Ln := contents_length T m needle n Hvn Hn).
  assert (Bh : 0 <= b_ haystack /\ e_ haystack < 2 ^ 64)
    by (destruct Hvh as (? & ? & ?); lia).
  assert (Bn : 0 <= b_ needle /\ e_ needle < 2 ^ 64)
    by (destruct Hvn as (? & ? & ?); lia).
  unfold qfind3. rewrite (size_valid needle Hvn), (size_valid haystack Hvh).
  cbn [bind].
  destruct (e_ haystack - b_ haystack <? e_ needle - b_ needle) eqn:E1.
  { apply Z.ltb_lt in E1. exists npos. split; [reflexivity |]. left.
    split; [reflexivity |]. intros _ k (Hk & _). lia. }
  apply Z.ltb_ge in E1.
  destruct (e_ needle - b_ needle =? 0) eqn:E2.
  { apply Z.eqb_eq in E2. exists 0. split; [reflexivity |]. right.
    exists 0%nat. split; [reflexivity |]. split; [discriminate |].
    assert (Hnil : n = []) by (apply length_zero_iff_nil; lia). subst n.
    split.
    - split; [simpl; lia |]. intros [| j] x y _ Hy; discriminate Hy.
    - intros _ k' _. lia. }
  apply Z.eqb_neq in E2.
  set (nsize := e_ needle - b_ needle) in *.
  assert (Hpos : 1 <= nsize) by lia.
  rewrite wrap64_small by lia.
  rewrite index_valid by (try assumption; fold nsize; lia). cbn [bind].
  assert (Hlive_n := contents_live T m needle n Hvn Hn).
  assert (Hlive_h := contents_live T m haystack h Hvh Hh).
  unfold load at 1.
  destruct (m (b_ needle + (nsize - 1))) as [lastNeedle |] eqn:Elast.
  2:{ exfalso. apply (Hlive_n (b_ needle + (nsize - 1))); [lia | exact Elast]. }
  cbn [bind]. unfold begin, end_.
  assert (Hloop :=
    outer_loop_spec T m haystack needle eq nsize (nsize - 1) lastNeedle
      (e_ haystack - (nsize - 1)) Hvh Hvn eq_refl eq_refl Hpos E1 eq_refl
      Elast Hlive_h Hlive_n
      (S (Z.to_nat (e_ haystack - b_ haystack))) (b_ haystack) 0
      ltac:(lia) (or_introl eq_refl) ltac:(lia)).
  destruct (outer_loop m haystack needle eq nsize (nsize - 1) lastNeedle
              (e_ haystack - (nsize - 1))
              (S (Z.to_nat (e_ haystack - b_ haystack))) (b_ haystack) 0)
    as [r | | | |]; try contradiction.
  exists r. split; [reflexivity |].
  destruct Hloop as [(-> & Hno) | (Rr & Hr & Hno)].
  - left. split; [reflexivity |]. intros He k Hm.
    apply (Hno He (b_ haystack + Z.of_nat k)).
    + destruct Hm as (Hk & _). lia.
    + apply (hit_matches T m haystack needle eq h n lastNeedle k);
        try assumption. destruct Hm as (Hk & _). exact Hk.
  - right. exists (Z.to_nat r).
    assert (Hr0 : 0 <= r) by lia.
    split; [lia |]. split; [rewrite npos_value; lia |].
    assert (Hfit : (Z.to_nat r + length n <= length h)%nat) by lia.
    split.
    + apply (hit_matches T m haystack needle eq h n lastNeedle (Z.to_nat r));
        try assumption.
      replace (Z.of_nat (Z.to_nat r)) with r by lia. exact Hr.
    + intros He k' Hm.
      destruct (Nat.le_gt_cases (Z.to_nat r) k') as [Le | Gt]; [exact Le |].
      exfalso. apply (Hno He (b_ haystack + Z.of_nat k')); [lia |].
      apply (hit_matches T m haystack needle eq h n lastNeedle k');
        try assumption. destruct Hm as (Hk & _). exact Hk.
Qed.

(** ** The examples of the documentation *)

Example qfind_abcde :
  qfind (two_strings "abcxabcdabcdabcde" "abcde")
        (view_at 16 "abcxabcdabcdabcde") (view_at 4096 "abcde") = Ret 12.
Proof. vm_compute. reflexivity. Qed.

Example qfind_aaa :
  qfind (two_strings "aaaaa" "aaa") (view_at 16 "aaaaa") (view_at 4096 "aaa")
  = Ret 0.
Proof. vm_compute. reflexivity. Qed.

Example qfind_abcd_in_abc :
  qfind (two_strings "abc" "abcd") (view_at 16 "abc") (view_at 4096 "abcd")
  = Ret npos.
Proof. vm_compute. reflexivity. Qed.

Example qfind_empty_empty :
  qfind (two_strings "" "") (view_at 16 "") (view_at 4096 "") = Ret 0.
Proof. vm_compute. reflexivity. Qed.

Example qfind_insensitive :
  qfind3 (two_strings "ABC" "abc") (view_at 16 "ABC") (view_at 4096 "abc")
         asciiCaseInsensitive = Ret 0
  /\ qfind (two_strings "ABC" "abc") (view_at 16 "ABC") (view_at 4096 "abc")
     = Ret npos.
Proof. vm_compute. split; reflexivity. Qed.

Example hash_abc :
  hash (two_strings "abc" "") (view_at 16 "abc") = Ret 193485963.
Proof. vm_compute. reflexivity. Qed.

Example compare_abc_abd :
  compare (two_strings "abc" "abd") (view_at 16 "abc") (view_at 4096 "abd")
  = Ret (-1).
Proof. vm_compute. reflexivity. Qed.

Example compare_ab_abc :
  compare (two_strings "ab" "abc") (view_at 16 "ab") (view_at 4096 "abc")
  = Ret (-1).
Proof. vm_compute. reflexivity. Qed.

(** ** Search in character views *)

Lemma AsciiCaseSensitive_spec (a b : char) :
  asciiCaseSensitive a b = true <-> a = b.
Proof. unfold asciiCaseSensitive, AsciiCaseSensitive. apply Z.eqb_eq. Qed.

(** Under a comparator that is equality of elements: the leftmost
    occurrence, or [npos] when there is none. *)
Lemma qfind3_exact (T : Type) (m : memory T) (haystack needle : Range)
    (eq : T -> T -> bool) (h n : list T) :
  (forall a b, eq a b = true <-> a = b) ->
  valid haystack -> valid needle ->
  contents m haystack = Some h -> contents m needle = Some n ->
  exists r,
    qfind3 m haystack needle eq = Ret r
    /\ ((r = npos /\ forall k, ~ occurs_at h n k)
        \/ (exists k,
              r = Z.of_nat k /\ r <> npos /\ occurs_at h n k
              /\ forall k', occurs_at h n k' -> (k <= k')%nat)).
Proof.
  intros Heq Hvh Hvn Hh Hn.
  destruct (qfind3_correct T m haystack needle eq h n Hvh Hvn Hh Hn)
    as (r & Hr & Hcases).
  assert (He := equality_euclidean T eq Heq).
  assert (Hiff := fun k => matches_at_occurs T eq h n k Heq).
  exists r. split; [exact Hr |].
  destruct Hcases as [(-> & Hno) | (k & -> & Hne & Hm & Hmin)].
  - left. split; [reflexivity |]. intros k Hk. apply (Hno He k).
    apply Hiff. exact Hk.
  - right. exists k. split; [reflexivity |]. split; [exact Hne |].
    split; [apply Hiff; exact Hm |].
    intros k' Hk'. apply (Hmin He). apply Hiff. exact Hk'.
Qed.

Lemma qfind_correct (m : memory char) (haystack needle : StringPiece)
    (h n : list char) :
  valid haystack -> valid needle ->
  contents m haystack = Some h -> contents m needle = Some n ->
  exists r,
    qfind m haystack needle = Ret r
    /\ ((r = npos /\ forall k, ~ occurs_at h n k)
        \/ (exists k,
              r = Z.of_nat k /\ r <> npos /\ occurs_at h n k
              /\ forall k', occurs_at h n k' -> (k <= k')%nat)).
Proof.
  apply qfind3_exact. exact AsciiCaseSensitive_spec.
Qed.

Lemma leftmost_or_npos (T : Type) (res : outcome Z) (h n : list T) :
  (exists r,
     res = Ret r
     /\ ((r = npos /\ forall k, ~ occurs_at h n k)
         \/ (exists k,
               r = Z.of_nat k /\ r <> npos /\ occurs_at h n k
               /\ forall k', occurs_at h n k' -> (k <= k')%nat))) ->
  finds_leftmost res h n.
Proof.
  intros (r & -> & Hcases).
  destruct Hcases as [(-> & Hno) | (k0 & -> & Hne & Hocc & Hmin)].
  - split; [| split; [| split]].
    + intros k Hk _. exfalso. exact (Hno k Hk).
    + intros (k & Hk). exfalso. exact (Hno k Hk).
    + intros _. exact Hno.
    + intros _. reflexivity.
  - split; [| split; [| split]].
    + intros k Hk Hkmin.
      assert (k = k0)
        by (apply Nat.le_antisymm; [apply Hkmin | apply Hmin]; assumption).
      subst k. split; [reflexivity | exact Hne].
    + intros _. exists k0. split; [exact Hocc |].
      split; [exact Hmin | reflexivity].
    + intros E. injection E as E. contradiction.
    + intros Hno. exfalso. exact (Hno k0 Hocc).
Qed.

(** C1. For views [haystack] and [needle] that are live and show the
    sequences [h] and [n]: under a comparator that is equality of elements,
    [qfind] returns the smallest index at which [n] occurs in [h] when [n]
    occurs in [h], whatever elements repeat in [h] or [n], and it returns
    [npos] if and only if [n] occurs at no index of [h]; on character views
    the same holds of the two-argument [qfind], and [find] is that
    [qfind]. *)
Theorem qfind_leftmost_occurrence (haystack needle : Range) :
  valid haystack -> valid needle ->
  (forall (T : Type) (m : memory T) (eq : T -> T -> bool) (h n : list T),
      (forall a b, eq a b = true <-> a = b) ->
      contents m haystack = Some h -> contents m needle = Some n ->
      finds_leftmost (qfind3 m haystack needle eq) h n)
  /\ (forall (m : memory char) (h n : list char),
        contents m haystack = Some h -> contents m needle = Some n ->
        find m haystack needle = qfind m haystack needle
        /\ finds_leftmost (qfind m haystack needle) h n).
Proof.
  intros Hvh Hvn. split.
  - intros T m eq h n Heq Hh Hn. apply leftmost_or_npos.
    apply qfind3_exact; assumption.
  - intros m h n Hh Hn. split; [reflexivity |]. apply leftmost_or_npos.
    apply qfind_correct; assumption.
Qed.

Lemma qfind_leftmost_occurrence_witness :
  valid (view_at 16 "abcxabcdabcdabcde")
  /\ valid (view_at 4096 "abcde")
  /\ finds_leftmost
       (qfind (two_strings "abcxabcdabcdabcde" "abcde")
          (view_at 16 "abcxabcdabcdabcde") (view_at 4096 "abcde"))
       (chars "abcxabcdabcdabcde") (chars "abcde").
Proof.
  assert (V1 : valid (view_at 16 "abcxabcdabcdabcde"))
    by (unfold valid, view_at; cbn; lia).
  assert (V2 : valid (view_at 4096 "abcde"))
    by (unfold valid, view_at; cbn; lia).
  split; [exact V1 |]. split; [exact V2 |].
  apply (qfind_leftmost_occurrence
           (view_at 16 "abcxabcdabcdabcde") (view_at 4096 "abcde") V1 V2);
    vm_compute; reflexivity.
Defined.

(** C3. Whatever the haystack, the empty one included, and whatever the
    storage and the comparator, [qfind] with an empty needle returns offset
    0; so do the two-argument [qfind] and [find]. *)
Theorem qfind_empty_needle (haystack needle : Range) :
  valid haystack -> empty needle = true ->
  (forall (T : Type) (m : memory T) (eq : T -> T -> bool),
      qfind3 m haystack needle eq = Ret 0)
  /\ (forall m : memory char,
        qfind m haystack needle = Ret 0 /\ find m haystack needle = Ret 0).
Proof.
  intros Hv He.
  assert (H3 : forall (T : Type) (m : memory T) (eq : T -> T -> bool),
             qfind3 m haystack needle eq = Ret 0).
  { intros T m eq. unfold qfind3. rewrite (size_valid haystack Hv).
    unfold empty in He. apply Z.eqb_eq in He. unfold size at 1.
    rewrite He, Z.leb_refl, Z.sub_diag. cbn [bind check].
    change (wrap64 0) with 0.
    destruct Hv as (H0 & H1 & H2).
    assert (E : (e_ haystack - b_ haystack <? 0) = false)
      by (apply Z.ltb_ge; lia).
    rewrite E. reflexivity. }
  split; [exact H3 |]. intros m. unfold find, qfind. split; apply H3.
Qed.

Lemma qfind_empty_needle_witness :
  valid (mkRange 16 16) /\ empty (mkRange 4096 4096) = true
  /\ qfind (two_strings "" "") (mkRange 16 16) (mkRange 4096 4096) = Ret 0.
Proof.
  assert (V : valid (mkRange 16 16)) by (unfold valid; cbn; lia).
  split; [exact V |]. split; [reflexivity |].
  apply (qfind_empty_needle (mkRange 16 16) (mkRange 4096 4096) V eq_refl).
Defined.

(** C4. [qfind] is total and safe.  On views that are live in the storage
    (no cell outside the two views need be live, and a read of a cell that
    is not live is a [Fault]), whatever the comparator, it returns [npos]
    or an offset at which the needle fits in the haystack: it never stops
    on a failed check, never reads outside the views and never exhausts its
    iteration bound.  When the needle is longer than the haystack it
    returns [npos] in every storage, even one with no live cell at all: it
    reads no element. *)
Theorem qfind_total_and_safe (T : Type) (haystack needle : Range) :
  valid haystack -> valid needle ->
  (e_ haystack - b_ haystack < e_ needle - b_ needle ->
   forall (m : memory T) (eq : T -> T -> bool),
     qfind3 m haystack needle eq = Ret npos)
  /\ (forall (m : memory T) (eq : T -> T -> bool) (h n : list T),
        contents m haystack = Some h -> contents m needle = Some n ->
        exists r,
          qfind3 m haystack needle eq = Ret r
          /\ (r = npos
              \/ (0 <= r
                  /\ r + (e_ needle - b_ needle) <= e_ haystack - b_ haystack))).
Proof.
  intros Hvh Hvn. split.
  - intros Hlt m eq. unfold qfind3.
    rewrite (size_valid needle Hvn), (size_valid haystack Hvh). cbn [bind].
    apply Z.ltb_lt in Hlt. rewrite Hlt. reflexivity.
  - intros m eq h n Hh Hn.
    destruct (qfind3_correct T m haystack needle eq h n Hvh Hvn Hh Hn)
      as (r & Hr & Hcases).
    exists r. split; [exact Hr |].
    destruct Hcases as [(-> & _) | (k & -> & _ & (Hfit & _) & _)].
    + left. reflexivity.
    + right.
      assert (Lh := contents_length T m haystack h Hvh Hh).
      assert (Ln := contents_length T m needle n Hvn Hn).
      lia.
Qed.

Lemma qfind_total_and_safe_witness :
  valid (view_at 16 "abc") /\ valid (view_at 4096 "abcd")
  /\ qfind3 (@no_memory char) (view_at 16 "abc") (view_at 4096 "abcd")
       asciiCaseInsensitive = Ret npos.
Proof.
  assert (V1 : valid (view_at 16 "abc")) by (unfold valid, view_at; cbn; lia).
  assert (V2 : valid (view_at 4096 "abcd")) by (unfold valid, view_at; cbn; lia).
  split; [exact V1 |]. split; [exact V2 |].
  apply (qfind_total_and_safe char (view_at 16 "abc") (view_at 4096 "abcd")
           V1 V2).
  cbn. lia.
Defined.

(** ** The skip *)

(** With a needle that is not empty and fits in the haystack, a call runs
    the outer loop on these values. *)
Lemma qfind3_enters_loop (T : Type) (m : memory T) (haystack needle : Range)
    (eq : T -> T -> bool) (lastNeedle : T) :
  valid haystack -> valid needle ->
  1 <= e_ needle - b_ needle <= e_ haystack - b_ haystack ->
  m (b_ needle + (e_ needle - b_ needle - 1)) = Some lastNeedle ->
  qfind3 m haystack needle eq
  = outer_loop m haystack needle eq
      (e_ needle - b_ needle) (e_ needle - b_ needle - 1) lastNeedle
      (e_ haystack - (e_ needle - b_ needle - 1))
      (S (Z.to_nat (e_ haystack - b_ haystack))) (begin haystack) 0.
Proof.
  intros Hvh Hvn Hfit Hlast. unfold qfind3.
  rewrite (size_valid needle Hvn), (size_valid haystack Hvh). cbn [bind].
  assert (E1 : (e_ haystack - b_ haystack <? e_ needle - b_ needle) = false)
    by (apply Z.ltb_ge; lia).
  assert (E2 : (e_ needle - b_ needle =? 0) = false)
    by (apply Z.eqb_neq; lia).
  rewrite E1, E2.
  rewrite wrap64_small by (destruct Hvn as (? & ? & ?); lia).
  rewrite index_valid by (try assumption; lia). cbn [bind].
  unfold load at 1. rewrite Hlast. reflexivity.
Qed.

Lemma qfind3_erase (T : Type) (m : memory T) (haystack needle : Range)
    (eq : T -> T -> bool) :
  qfind3 m haystack needle eq
  = (p <- qfind3_counted m haystack needle eq ;; Ret (returned p)).
Proof.
  unfold qfind3, qfind3_counted.
  destruct (size needle) as [nsize | | | |]; try reflexivity. cbn [bind].
  destruct (size haystack) as [hsize | | | |]; try reflexivity. cbn [bind].
  destruct (hsize <? nsize); [reflexivity |].
  destruct (nsize =? 0); [reflexivity |]. cbv zeta.
  destruct (index needle (wrap64 (nsize - 1))) as [r | | | |];
    try reflexivity.
  cbn [bind].
  destruct (load m r) as [lastNeedle | | | |]; try reflexivity. cbn [bind].
  apply outer_loop_erase.
Qed.

Lemma lazy_skip_reuses (T : Type) (m : memory T) (needle : Range)
    (eq : T -> T -> bool) (nsize_1 : Z) (lastNeedle : T) (skip : Z) :
  skip <> 0 -> lazy_skip m needle eq nsize_1 lastNeedle skip = Ret skip.
Proof.
  intros Hne. unfold lazy_skip. apply Z.eqb_neq in Hne. rewrite Hne.
  reflexivity.
Qed.

(** With a needle that is not empty and fits in the haystack, a counted
    call runs the counted outer loop on these values. *)
Lemma qfind3_counted_enters_loop (T : Type) (m : memory T)
    (haystack needle : Range) (eq : T -> T -> bool) (lastNeedle : T) :
  valid haystack -> valid needle ->
  1 <= e_ needle - b_ needle <= e_ haystack - b_ haystack ->
  m (b_ needle + (e_ needle - b_ needle - 1)) = Some lastNeedle ->
  qfind3_counted m haystack needle eq
  = outer_loop_counted m haystack needle eq
      (e_ needle - b_ needle) (e_ needle - b_ needle - 1) lastNeedle
      (e_ haystack - (e_ needle - b_ needle - 1))
      (S (Z.to_nat (e_ haystack - b_ haystack))) (begin haystack) 0.
Proof.
  intros Hvh Hvn Hfit Hlast. unfold qfind3_counted.
  rewrite (size_valid needle Hvn), (size_valid haystack Hvh). cbn [bind].
  assert (E1 : (e_ haystack - b_ haystack <? e_ needle - b_ needle) = false)
    by (apply Z.ltb_ge; lia).
  assert (E2 : (e_ needle - b_ needle =? 0) = false)
    by (apply Z.eqb_neq; lia).
  rewrite E1, E2.
  rewrite wrap64_small by (destruct Hvn as (? & ? & ? & ?); lia).
  rewrite index_valid by (try assumption; lia). cbn [bind].
  unfold load at 1. rewrite Hlast. reflexivity.
Qed.

(** C2. A call of [qfind] with a needle that is not empty (and that fits
    in the haystack, so that the loops are entered), on live views and
    with any comparator.  [qfind3_counted] is [qfind3] with a record of
    what the call did: the value [skip] had at each [i += skip], one per
    mismatch of the inner loop, and the number of times the block that
    computes the skip ran.  The counted loops return what the loops return
    in every storage, so they are the same loops; a skip that is not 0
    comes out of the statement [if (skip == 0) { ... }] as it went in, in
    every storage, live or not: nothing is read or checked again.  The
    block ran at most once: not at all when the call saw no mismatch, once
    when it saw one, and there is one whenever the first alignment that
    passes the probe of the last element is not a match.  At every
    mismatch [skip] had one value, the distance from the last slot of the
    needle back to the nearest earlier slot whose element the comparator
    accepts against the last element, the needle's length when there is no
    such slot. *)
Theorem skip_computed_lazily_once (T : Type) (m : memory T)
    (haystack needle : Range) (eq : T -> T -> bool) (h n : list T)
    (lastNeedle : T) :
  valid haystack -> valid needle ->
  contents m haystack = Some h -> contents m needle = Some n ->
  1 <= e_ needle - b_ needle <= e_ haystack - b_ haystack ->
  m (b_ needle + (e_ needle - b_ needle - 1)) = Some lastNeedle ->
  (forall (m' : memory T) (needle' : Range) (eq' : T -> T -> bool)
          (n1 : Z) (last : T) (skip : Z),
      (skip <> 0 -> lazy_skip m' needle' eq' n1 last skip = Ret skip)
      /\ lazy_skip m' needle' eq' n1 last skip
         = (p <- lazy_skip_counted m' needle' eq' n1 last skip ;;
            Ret (fst p)))
  /\ (forall (m' : memory T) (haystack' needle' : Range)
             (eq' : T -> T -> bool) (ns n1 : Z) (last : T) (fuel : nat)
             (i skip j : Z),
        pedestrian m' haystack' needle' eq' ns n1 last fuel i skip j
        = (p <- pedestrian_counted m' haystack' needle' eq' ns n1 last
                  fuel i skip j ;;
           Ret (fst p)))
  /\ (forall (m' : memory T) (haystack' needle' : Range)
             (eq' : T -> T -> bool),
        qfind3 m' haystack' needle' eq'
        = (p <- qfind3_counted m' haystack' needle' eq' ;;
           Ret (returned p)))
  /\ exists (p : run) (s : Z),
       qfind3_counted m haystack needle eq = Ret p
       /\ is_skip m needle eq (e_ needle - b_ needle)
            (e_ needle - b_ needle - 1) lastNeedle s
       /\ (computed p <= 1)%nat
       /\ (skips p = [] -> computed p = 0%nat)
       /\ (skips p <> [] -> computed p = 1%nat)
       /\ Forall (fun x => x = s) (skips p)
       /\ (forall i1,
             b_ haystack <= i1 < e_ haystack - (e_ needle - b_ needle - 1) ->
             last_ok m eq (e_ needle - b_ needle - 1) lastNeedle i1 ->
             (forall k,
                b_ haystack <= k < i1 ->
                ~ last_ok m eq (e_ needle - b_ needle - 1) lastNeedle k) ->
             ~ hit m needle eq (e_ needle - b_ needle) lastNeedle i1 ->
             skips p <> []).
Proof.
  intros Hvh Hvn Hh Hn Hfit Hlast.
  split.
  { intros m' needle' eq' n1 last skip. split.
    - apply lazy_skip_reuses.
    - apply lazy_skip_erase. }
  split; [intros; apply pedestrian_erase |].
  split; [intros; apply qfind3_erase |].
  assert (Hlive_n := contents_live T m needle n Hvn Hn).
  assert (Hlive_h := contents_live T m haystack h Hvh Hh).
  assert (Hb : b_ haystack <= e_ haystack)
    by (destruct Hvh as (? & ? & ?); lia).
  rewrite (qfind3_counted_enters_loop T m haystack needle eq lastNeedle
             Hvh Hvn Hfit Hlast).
  destruct (outer_loop_counted_spec T m haystack needle eq
              (e_ needle - b_ needle) (e_ needle - b_ needle - 1) lastNeedle
              (e_ haystack - (e_ needle - b_ needle - 1))
              Hvh Hvn eq_refl eq_refl ltac:(lia) eq_refl Hlive_h Hlive_n
              (S (Z.to_nat (e_ haystack - b_ haystack))) (begin haystack) 0
              ltac:(unfold begin; lia) (or_introl eq_refl) ltac:(unfold begin; lia))
    as (p & Hp & Hall & Hzero & _ & Hfirst).
  assert (Hs := lazy_skip_counted_spec T m needle eq
                  (e_ needle - b_ needle) (e_ needle - b_ needle - 1)
                  lastNeedle Hvn eq_refl eq_refl ltac:(lia) Hlive_n 0).
  destruct (lazy_skip_counted m needle eq (e_ needle - b_ needle - 1)
              lastNeedle 0) as [[s c] | | | |]; try contradiction.
  assert (Hskip : is_skip m needle eq (e_ needle - b_ needle)
                    (e_ needle - b_ needle - 1) lastNeedle s).
  { destruct Hs as [(_ & Hs & _) | (Hne & _)]; [exact Hs | contradiction]. }
  exists p, s. split; [exact Hp |]. split; [exact Hskip |].
  specialize (Hzero eq_refl).
  split; [destruct Hzero as [(_ & ->) | (_ & ->)]; lia |].
  split; [intros Hnil; destruct Hzero as [(_ & Hc) | (Hne & _)];
          [exact Hc | contradiction] |].
  split; [intros Hne; destruct Hzero as [(Hnil & _) | (_ & Hc)];
          [contradiction | exact Hc] |].
  split.
  - apply Forall_forall. intros x Hx.
    rewrite Forall_forall in Hall.
    apply (is_skip_unique T m needle eq (e_ needle - b_ needle)
             (e_ needle - b_ needle - 1) lastNeedle eq_refl x s);
      [apply Hall; exact Hx | exact Hskip].
  - intros i1 Hi1 Hl Hk Hno. apply (Hfirst i1); assumption.
Qed.

(** "aba" sought in "cbacbaaba": two mismatches, at offsets 0 and 3, each
    followed by a skip of 2, the block run once, the match at offset 6. *)
Example qfind3_counted_cbacbaaba :
  qfind3_counted (two_strings "cbacbaaba" "aba") (view_at 16 "cbacbaaba")
    (view_at 4096 "aba") asciiCaseSensitive
  = Ret (mkRun 6 [2; 2] 1).
Proof. vm_compute. reflexivity. Qed.

Lemma skip_computed_lazily_once_witness :
  valid (view_at 16 "cbacbaaba") /\ valid (view_at 4096 "aba")
  /\ contents (two_strings "cbacbaaba" "aba") (view_at 16 "cbacbaaba")
     = Some (chars "cbacbaaba")
  /\ contents (two_strings "cbacbaaba" "aba") (view_at 4096 "aba")
     = Some (chars "aba")
  /\ 1 <= e_ (view_at 4096 "aba") - b_ (view_at 4096 "aba")
       <= e_ (view_at 16 "cbacbaaba") - b_ (view_at 16 "cbacbaaba")
  /\ two_strings "cbacbaaba" "aba"
       (b_ (view_at 4096 "aba")
        + (e_ (view_at 4096 "aba") - b_ (view_at 4096 "aba") - 1)) = Some 97
  /\ exists (p : run) (s : Z),
       qfind3_counted (two_strings "cbacbaaba" "aba")
         (view_at 16 "cbacbaaba") (view_at 4096 "aba") asciiCaseSensitive
       = Ret p
       /\ is_skip (two_strings "cbacbaaba" "aba") (view_at 4096 "aba")
            asciiCaseSensitive
            (e_ (view_at 4096 "aba") - b_ (view_at 4096 "aba"))
            (e_ (view_at 4096 "aba") - b_ (view_at 4096 "aba") - 1) 97 s
       /\ (computed p <= 1)%nat
       /\ (skips p = [] -> computed p = 0%nat)
       /\ (skips p <> [] -> computed p = 1%nat)
       /\ Forall (fun x => x = s) (skips p)
       /\ (forall i1,
             b_ (view_at 16 "cbacbaaba") <= i1
             < e_ (view_at 16 "cbacbaaba")
               - (e_ (view_at 4096 "aba") - b_ (view_at 4096 "aba") - 1) ->
             last_ok (two_strings "cbacbaaba" "aba") asciiCaseSensitive
               (e_ (view_at 4096 "aba") - b_ (view_at 4096 "aba") - 1) 97 i1 ->
             (forall k,
                b_ (view_at 16 "cbacbaaba") <= k < i1 ->
                ~ last_ok (two_strings "cbacbaaba" "aba") asciiCaseSensitive
                    (e_ (view_at 4096 "aba") - b_ (view_at 4096 "aba") - 1)
                    97 k) ->
             ~ hit (two_strings "cbacbaaba" "aba") (view_at 4096 "aba")
                 asciiCaseSensitive
                 (e_ (view_at 4096 "aba") - b_ (view_at 4096 "aba")) 97 i1 ->
             skips p <> []).
Proof.
  assert (V1 : valid (view_at 16 "cbacbaaba"))
    by (unfold valid, view_at; cbn; lia).
  assert (V2 : valid (view_at 4096 "aba"))
    by (unfold valid, view_at; cbn; lia).
  assert (C1 : contents (two_strings "cbacbaaba" "aba")
                 (view_at 16 "cbacbaaba") = Some (chars "cbacbaaba"))
    by (vm_compute; reflexivity).
  assert (C2 : contents (two_strings "cbacbaaba" "aba") (view_at 4096 "aba")
               = Some (chars "aba")) by (vm_compute; reflexivity).
  assert (F : 1 <= e_ (view_at 4096 "aba") - b_ (view_at 4096 "aba")
              <= e_ (view_at 16 "cbacbaaba") - b_ (view_at 16 "cbacbaaba"))
    by (cbn; lia).
  assert (L : two_strings "cbacbaaba" "aba"
                (b_ (view_at 4096 "aba")
                 + (e_ (view_at 4096 "aba") - b_ (view_at 4096 "aba") - 1))
              = Some 97) by (vm_compute; reflexivity).
  split; [exact V1 |]. split; [exact V2 |]. split; [exact C1 |].
  split; [exact C2 |]. split; [exact F |]. split; [exact L |].
  exact (proj2 (proj2 (proj2
           (skip_computed_lazily_once char (two_strings "cbacbaaba" "aba")
              (view_at 16 "cbacbaaba") (view_at 4096 "aba")
              asciiCaseSensitive (chars "cbacbaaba") (chars "aba") 97
              V1 V2 C1 C2 F L)))).
Defined.

(** ** Pieces of a view *)

Lemma read_seq_skipn (T : Type) (m : memory T) (n : nat) :
  forall p l k,
    read_seq m p n = Some l -> (k <= n)%nat ->
    read_seq m (p + Z.of_nat k) (n - k) = Some (skipn k l).
Proof.
  induction n as [| n IH]; intros p l k H Hk.
  - assert (k = 0%nat) by lia. subst k. simpl in H. injection H as <-.
    reflexivity.
  - destruct k as [| k].
    + rewrite Z.add_0_r, Nat.sub_0_r. exact H.
    + simpl in H. destruct (m p) as [x |]; [| discriminate].
      destruct (read_seq m (p + 1) n) as [l' |] eqn:Er; [| discriminate].
      injection H as <-.
      replace (p + Z.of_nat (S k)) with (p + 1 + Z.of_nat k) by lia.
      simpl. apply IH; [exact Er | lia].
Qed.

Lemma read_seq_firstn (T : Type) (m : memory T) (n : nat) :
  forall p l k,
    read_seq m p n = Some l -> (k <= n)%nat ->
    read_seq m p k = Some (firstn k l).
Proof.
  induction n as [| n IH]; intros p l k H Hk.
  - assert (k = 0%nat) by lia. subst k. reflexivity.
  - destruct k as [| k]; [reflexivity |].
    simpl in H. destruct (m p) as [x |] eqn:Ep; [| discriminate].
    destruct (read_seq m (p + 1) n) as [l' |] eqn:Er; [| discriminate].
    injection H as <-. simpl. rewrite Ep.
    rewrite (IH (p + 1) l' k Er) by lia. reflexivity.
Qed.

(** The view over slots [first, first + len) of a live view shows that
    slice of its sequence. *)
Lemma contents_slice (T : Type) (m : memory T) (r : Range) (l : list T)
    (first len : Z) :
  valid r -> contents m r = Some l ->
  0 <= first -> 0 <= len -> first + len <= e_ r - b_ r ->
  contents m (mkRange (b_ r + first) (b_ r + first + len))
  = Some (firstn (Z.to_nat len) (skipn (Z.to_nat first) l)).
Proof.
  intros Hv H Hf Hl Hfit. unfold contents in *. simpl.
  replace (b_ r + first + len - (b_ r + first)) with len by lia.
  apply (read_seq_skipn T m _ _ _ (Z.to_nat first)) in H; [| lia].
  replace (b_ r + Z.of_nat (Z.to_nat first)) with (b_ r + first) in H by lia.
  apply (read_seq_firstn T m _ _ _ (Z.to_nat len)) in H; [exact H | lia].
Qed.

Lemma occurs_at_skipn (T : Type) (h n : list T) (p k : nat) :
  (p <= length h)%nat ->
  (occurs_at (skipn p h) n k <-> occurs_at h n (p + k)).
Proof.
  intros Hp. rewrite !occurs_at_nth. rewrite length_skipn.
  split; intros (Hlen & Hnth); (split; [lia |]); intros j Hj.
  - rewrite <- (Hnth j Hj). rewrite nth_error_skipn. f_equal. lia.
  - rewrite <- (Hnth j Hj). rewrite nth_error_skipn. f_equal. lia.
Qed.

(** [subpiece(pos)], with the default length, on a view of at least [pos]
    elements. *)
Lemma subpiece_to_end (this : Range) (pos : Z) :
  valid this -> 0 <= pos <= e_ this - b_ this ->
  subpiece this pos npos
  = Ret (mkRange (b_ this + pos) (b_ this + pos + (e_ this - b_ this - pos))).
Proof.
  intros Hv Hp. unfold subpiece. rewrite (size_valid this Hv). cbn [bind].
  assert (E : (pos <=? e_ this - b_ this) = true) by (apply Z.leb_le; lia).
  rewrite E. cbn [bind check]. unfold Range_of_size.
  destruct Hv as (H0 & H1 & H2).
  rewrite wrap64_small by lia. rewrite npos_value.
  rewrite Z.min_r by lia. reflexivity.
Qed.

(** C6. For a view [this] and an offset [pos]: when [pos] exceeds the size
    of the view, [find(str, pos)] returns [npos] whatever the storage and
    the needle, without a search; otherwise, on live views, it returns the
    smallest index of [this], counted from its beginning, that is at least
    [pos] and at which the needle occurs, and it returns [npos] if and only
    if the needle occurs at no index from [pos] on. *)
Theorem find_from_offset (m : memory char) (this str : StringPiece) (pos : Z) :
  valid this -> 0 <= pos < 2 ^ 64 ->
  (e_ this - b_ this < pos -> find_from m this str pos = Ret npos)
  /\ (pos <= e_ this - b_ this ->
      forall h n : list char,
        valid str ->
        contents m this = Some h -> contents m str = Some n ->
        (forall k,
           (Z.to_nat pos <= k)%nat -> occurs_at h n k ->
           (forall k', (Z.to_nat pos <= k')%nat -> occurs_at h n k' ->
                       (k <= k')%nat) ->
           find_from m this str pos = Ret (Z.of_nat k) /\ Z.of_nat k <> npos)
        /\ ((exists k, (Z.to_nat pos <= k)%nat /\ occurs_at h n k) ->
            exists k,
              (Z.to_nat pos <= k)%nat /\ occurs_at h n k
              /\ find_from m this str pos = Ret (Z.of_nat k))
        /\ (find_from m this str pos = Ret npos <->
            forall k, (Z.to_nat pos <= k)%nat -> ~ occurs_at h n k)).
Proof.
  intros Hv Hpos. split.
  - intros Hgt. unfold find_from. rewrite (size_valid this Hv). cbn [bind].
    assert (E : (pos >? e_ this - b_ this) = true) by (apply Z.gtb_lt; lia).
    rewrite E. reflexivity.
  - intros Hle h n Hvs Hh Hn.
    assert (Lh := contents_length char m this h Hv Hh).
    assert (Hfind :
      exists r, find_from m this str pos = Ret r
        /\ ((r = npos /\ forall k, (Z.to_nat pos <= k)%nat -> ~ occurs_at h n k)
            \/ (exists k, r = Z.of_nat k /\ r <> npos
                  /\ (Z.to_nat pos <= k)%nat /\ occurs_at h n k
                  /\ forall k', (Z.to_nat pos <= k')%nat ->
                                occurs_at h n k' -> (k <= k')%nat))).
    { unfold find_from. rewrite (size_valid this Hv). cbn [bind].
      assert (E : (pos >? e_ this - b_ this) = false)
        by (rewrite Z.gtb_ltb; apply Z.ltb_ge; lia).
      rewrite E. rewrite subpiece_to_end by (try assumption; lia).
      cbn [bind].
      set (sub := mkRange (b_ this + pos)
                    (b_ this + pos + (e_ this - b_ this - pos))).
      assert (Hvsub : valid sub)
        by (destruct Hv as (? & ? & ?); unfold valid, sub; simpl; lia).
      assert (Hsub : contents m sub = Some (skipn (Z.to_nat pos) h)).
      { unfold sub.
        rewrite (contents_slice char m this h pos (e_ this - b_ this - pos)
                   Hv Hh) by lia.
        f_equal. apply firstn_all2. rewrite length_skipn. lia. }
      destruct (qfind_correct m sub str (skipn (Z.to_nat pos) h) n
                  Hvsub Hvs Hsub Hn) as (r & Hr & Hcases).
      rewrite Hr. cbn [bind].
      assert (Hshift := fun k =>
        occurs_at_skipn char h n (Z.to_nat pos) k ltac:(lia)).
      destruct Hcases as [(-> & Hno) | (k & -> & Hne & Hocc & Hmin)].
      - exists npos. rewrite Z.eqb_refl. split; [reflexivity |]. left.
        split; [reflexivity |]. intros k Hk Hocc.
        apply (Hno (k - Z.to_nat pos)%nat). apply Hshift.
        replace (Z.to_nat pos + (k - Z.to_nat pos))%nat with k by lia.
        exact Hocc.
      - apply Z.eqb_neq in Hne as Hne'. rewrite Hne'.
        assert (Hf : (Z.to_nat pos + k + length n <= length h)%nat).
        { apply Hshift in Hocc. apply occurs_at_nth in Hocc. lia. }
        assert (Hw : wrap64 (Z.of_nat k + pos)
                     = Z.of_nat (Z.to_nat pos + k)).
        { rewrite wrap64_small; [lia |].
          destruct Hv as (? & ? & ?). lia. }
        rewrite Hw. exists (Z.of_nat (Z.to_nat pos + k)).
        split; [reflexivity |]. right. exists (Z.to_nat pos + k)%nat.
        split; [reflexivity |].
        split; [rewrite npos_value; destruct Hv as (? & ? & ?); lia |].
        split; [lia |]. split; [apply Hshift; exact Hocc |].
        intros k' Hk' Hocc'.
        assert (Hm := Hmin (k' - Z.to_nat pos)%nat).
        assert (k <= k' - Z.to_nat pos)%nat; [| lia].
        apply Hm. apply Hshift.
        replace (Z.to_nat pos + (k' - Z.to_nat pos))%nat with k' by lia.
        exact Hocc'. }
    destruct Hfind as (r & Hr & Hcases). rewrite Hr.
    destruct Hcases as [(-> & Hno) | (k0 & -> & Hne & Hge & Hocc & Hmin)].
    + split; [| split; [| split]].
      * intros k Hk Ho _. exfalso. exact (Hno k Hk Ho).
      * intros (k & Hk & Ho). exfalso. exact (Hno k Hk Ho).
      * intros _. exact Hno.
      * intros _. reflexivity.
    + split; [| split; [| split]].
      * intros k Hk Ho Hkmin.
        assert (k = k0)
          by (apply Nat.le_antisymm; [apply Hkmin | apply Hmin]; assumption).
        subst k. split; [reflexivity | exact Hne].
      * intros _. exists k0. split; [exact Hge |]. split; [exact Hocc |].
        reflexivity.
      * intros E. injection E as E. contradiction.
      * intros Hno. exfalso. exact (Hno k0 Hge Hocc).
Qed.

Example find_from_second_abc :
  find_from (two_strings "abcabc" "abc") (view_at 16 "abcabc")
    (view_at 4096 "abc") 1 = Ret 3.
Proof. vm_compute. reflexivity. Qed.

Lemma find_from_offset_witness :
  valid (view_at 16 "abc") /\ 0 <= 4 < 2 ^ 64
  /\ e_ (view_at 16 "abc") - b_ (view_at 16 "abc") < 4
  /\ find_from (two_strings "abc" "c") (view_at 16 "abc") (view_at 4096 "c") 4
     = Ret npos.
Proof.
  assert (V : valid (view_at 16 "abc")) by (unfold valid, view_at; cbn; lia).
  assert (P : 0 <= 4 < 2 ^ 64) by lia.
  assert (G : e_ (view_at 16 "abc") - b_ (view_at 16 "abc") < 4) by (cbn; lia).
  split; [exact V |]. split; [exact P |]. split; [exact G |].
  apply (find_from_offset (two_strings "abc" "c") (view_at 16 "abc")
           (view_at 4096 "c") 4 V P).
  exact G.
Defined.

(** ** Checked access *)

(** C7. For a view [v] and an index [i]: the call leaves the view as it
    was; it throws the out-of-range exception if and only if [i] is at
    least the size of the view; otherwise it returns the reference to the
    element at index [i], the [i]-th element of the sequence the view
    shows. *)
Theorem at_out_of_range (v : Range) (i : Z) :
  valid v -> 0 <= i < 2 ^ 64 ->
  snd (at_ v i) = v
  /\ fst (at_ v i) = at_const v i
  /\ ((exists what, at_const v i = Throw what) <-> e_ v - b_ v <= i)
  /\ (i < e_ v - b_ v ->
      at_const v i = Ret (b_ v + i)
      /\ forall (T : Type) (m : memory T) (l : list T),
           contents m v = Some l ->
           exists x,
             nth_error l (Z.to_nat i) = Some x
             /\ (r <- at_const v i ;; load m r) = Ret x).
Proof.
  intros Hv Hi. split; [reflexivity |]. split; [reflexivity |].
  unfold at_const. rewrite (size_valid v Hv). cbn [bind].
  destruct (i >=? e_ v - b_ v) eqn:E.
  - rewrite Z.geb_leb in E. apply Z.leb_le in E. split.
    + split; [intros _; exact E | intros _; eexists; reflexivity].
    + intros Hlt. lia.
  - rewrite Z.geb_leb in E. apply Z.leb_gt in E. split.
    + split; [intros (w & Hw); discriminate Hw | intros Hle; lia].
    + intros _. split; [reflexivity |]. intros T m l Hl. cbn [bind].
      assert (L := contents_length T m v l Hv Hl).
      assert (N := contents_nth T m v l (Z.to_nat i) Hl ltac:(lia)).
      replace (b_ v + Z.of_nat (Z.to_nat i)) with (b_ v + i) in N by lia.
      unfold load. rewrite N.
      destruct (nth_error l (Z.to_nat i)) as [x |] eqn:Ex.
      * exists x. split; reflexivity.
      * apply nth_error_None in Ex. lia.
Qed.

Lemma at_out_of_range_witness :
  valid (view_at 16 "abc") /\ 0 <= 3 < 2 ^ 64
  /\ ((exists what, at_const (view_at 16 "abc") 3 = Throw what)
      <-> e_ (view_at 16 "abc") - b_ (view_at 16 "abc") <= 3).
Proof.
  assert (V : valid (view_at 16 "abc")) by (unfold valid, view_at; cbn; lia).
  assert (I : 0 <= 3 < 2 ^ 64) by lia.
  split; [exact V |]. split; [exact I |].
  apply (at_out_of_range (view_at 16 "abc") 3 V I).
Defined.

(** ** subpiece *)

(** C8. For a view [this] and [first] not beyond its size, [subpiece(first,
    length)] returns a view of [min(length, size - first)] elements whose
    element at each index [j] is the element of [this] at index [first + j]
    (the same address, hence the slice of the sequence [this] shows);
    [subpiece] is a const member: [this] is not written. *)
Theorem subpiece_slice (this : Range) (first length : Z) :
  valid this -> 0 <= first <= e_ this - b_ this -> 0 <= length < 2 ^ 64 ->
  exists s,
    subpiece this first length = Ret s
    /\ valid s
    /\ size s = Ret (Z.min length (e_ this - b_ this - first))
    /\ (forall j,
          0 <= j < Z.min length (e_ this - b_ this - first) ->
          index s j = Ret (b_ this + (first + j))
          /\ index this (first + j) = Ret (b_ this + (first + j)))
    /\ (forall (T : Type) (m : memory T) (l : list T),
          contents m this = Some l ->
          contents m s
          = Some (firstn (Z.to_nat length) (skipn (Z.to_nat first) l))).
Proof.
  intros Hv Hf Hl. unfold subpiece. rewrite (size_valid this Hv).
  cbn [bind].
  assert (E : (first <=? e_ this - b_ this) = true) by (apply Z.leb_le; lia).
  rewrite E. cbn [bind check]. unfold Range_of_size.
  assert (Hb : 0 <= b_ this /\ e_ this < 2 ^ 64)
    by (destruct Hv as (? & ? & ? & ?); lia).
  rewrite wrap64_small by lia.
  set (len := Z.min length (e_ this - b_ this - first)).
  assert (Hlen : 0 <= len <= e_ this - b_ this - first) by (unfold len; lia).
  assert (Hvs : valid (mkRange (b_ this + first) (b_ this + first + len))).
  { destruct Hv as (? & ? & ? & ?). unfold valid. simpl. lia. }
  eexists. split; [reflexivity |]. split; [exact Hvs |].
  split; [rewrite (size_valid _ Hvs); simpl; f_equal; lia |].
  split.
  - intros j Hj. split.
    + rewrite index_valid by (try assumption; simpl; lia). simpl.
      f_equal. lia.
    + rewrite index_valid by (try assumption; lia). reflexivity.
  - intros T m l Hc.
    assert (L := contents_length T m this l Hv Hc).
    rewrite (contents_slice T m this l first len Hv Hc) by lia.
    f_equal. unfold len.
    destruct (Z.le_gt_cases length (e_ this - b_ this - first)) as [Le | Gt].
    + rewrite Z.min_l by lia. reflexivity.
    + rewrite Z.min_r by lia.
      rewrite !firstn_all2 by (rewrite length_skipn; lia). reflexivity.
Qed.

Lemma subpiece_slice_witness :
  valid (view_at 16 "abcdef")
  /\ 0 <= 2 <= e_ (view_at 16 "abcdef") - b_ (view_at 16 "abcdef")
  /\ 0 <= 3 < 2 ^ 64
  /\ exists s,
       subpiece (view_at 16 "abcdef") 2 3 = Ret s
       /\ valid s
       /\ size s
          = Ret (Z.min 3 (e_ (view_at 16 "abcdef")
                          - b_ (view_at 16 "abcdef") - 2))
       /\ (forall j,
             0 <= j < Z.min 3 (e_ (view_at 16 "abcdef")
                               - b_ (view_at 16 "abcdef") - 2) ->
             index s j = Ret (b_ (view_at 16 "abcdef") + (2 + j))
             /\ index (view_at 16 "abcdef") (2 + j)
                = Ret (b_ (view_at 16 "abcdef") + (2 + j)))
       /\ (forall (T : Type) (m : memory T) (l : list T),
             contents m (view_at 16 "abcdef") = Some l ->
             contents m s
             = Some (firstn (Z.to_nat 3) (skipn (Z.to_nat 2) l))).
Proof.
  assert (V : valid (view_at 16 "abcdef"))
    by (unfold valid, view_at; cbn; lia).
  assert (F : 0 <= 2 <= e_ (view_at 16 "abcdef") - b_ (view_at 16 "abcdef"))
    by (cbn; lia).
  assert (L : 0 <= 3 < 2 ^ 64) by lia.
  split; [exact V |]. split; [exact F |]. split; [exact L |].
  exact (subpiece_slice (view_at 16 "abcdef") 2 3 V F L).
Defined.

Example subpiece_cde :
  (s <- subpiece (view_at 16 "abcdef") 2 3 ;;
   match contents (two_strings "abcdef" "") s with
   | Some l => Ret l
   | None => Abort
   end) = Ret (chars "cde").
Proof. vm_compute. reflexivity. Qed.

(** ** hash *)

Lemma hash_step (h c : Z) :
  wrap32 (wrap32 (wrap32 (Z.shiftl h 5) + h) + c) = (h * 33 + c) mod 2 ^ 32.
Proof.
  unfold wrap32. rewrite Z.shiftl_mul_pow2 by lia.
  rewrite Z.add_mod_idemp_l by lia. rewrite <- Z.add_assoc.
  rewrite Z.add_mod_idemp_l by lia. f_equal. lia.
Qed.

Lemma skipn_cons_nth (T : Type) (l : list T) :
  forall i x, nth_error l i = Some x -> skipn i l = x :: skipn (S i) l.
Proof.
  induction l as [| y l IH]; intros [| i] x H; try discriminate H.
  - injection H as ->. reflexivity.
  - simpl in H. apply IH in H. exact H.
Qed.

Lemma hash_loop_spec (m : memory char) (this : StringPiece) (l : list char)
    (fuel : nat) :
  valid this -> contents m this = Some l ->
  forall ix acc,
    0 <= ix <= e_ this - b_ this ->
    (Z.to_nat (e_ this - b_ this - ix) < fuel)%nat ->
    hash_loop m this fuel ix acc
    = Ret (fold_left (fun h c => (h * 33 + c) mod 2 ^ 32)
             (skipn (Z.to_nat ix) l) acc).
Proof.
  intros Hv Hc. assert (L := contents_length char m this l Hv Hc).
  induction fuel as [| fuel IH]; intros ix acc Hix Hfuel.
  - lia.
  - cbn [hash_loop]. rewrite (size_valid this Hv). cbn [bind].
    destruct (ix <? e_ this - b_ this) eqn:E.
    + apply Z.ltb_lt in E.
      assert (N := contents_nth char m this l (Z.to_nat ix) Hc ltac:(lia)).
      replace (b_ this + Z.of_nat (Z.to_nat ix)) with (b_ this + ix) in N
        by lia.
      destruct (nth_error l (Z.to_nat ix)) as [x |] eqn:Ex.
      2:{ apply nth_error_None in Ex. lia. }
      unfold load. rewrite N. cbn [bind].
      rewrite wrap64_small by (destruct Hv as (? & ? & ? & ?); lia).
      rewrite IH by lia. rewrite hash_step.
      rewrite (skipn_cons_nth char l _ x Ex). simpl fold_left.
      replace (Z.to_nat (ix + 1)) with (S (Z.to_nat ix)) by lia.
      reflexivity.
    + apply Z.ltb_ge in E. rewrite skipn_all2 by lia. reflexivity.
Qed.

Lemma hash_bernstein (m : memory char) (this : StringPiece) (l : list char) :
  valid this -> contents m this = Some l -> hash m this = Ret (bernstein l).
Proof.
  intros Hv Hc. unfold hash, bernstein.
  rewrite (hash_loop_spec m this l _ Hv Hc) by (destruct Hv; lia).
  reflexivity.
Qed.

(** C9. The hash of a live view is the value obtained from seed 5381 by
    [hash = hash * 33 + element] over its elements in order, in arithmetic
    modulo 2^32; so two views that show the same sequence, in whatever
    storage and at whatever addresses, have the same hash. *)
Theorem hash_deterministic_bernstein (m : memory char) (this : StringPiece)
    (l : list char) :
  valid this -> contents m this = Some l ->
  hash m this = Ret (bernstein l)
  /\ forall (m' : memory char) (that : StringPiece),
       valid that -> contents m' that = Some l -> hash m' that = hash m this.
Proof.
  intros Hv Hc. split.
  - apply hash_bernstein; assumption.
  - intros m' that Hv' Hc'.
    rewrite (hash_bernstein m this l Hv Hc).
    apply hash_bernstein; assumption.
Qed.

Lemma hash_deterministic_bernstein_witness :
  valid (view_at 16 "abc")
  /\ contents (two_strings "abc" "abc") (view_at 16 "abc")
     = Some (chars "abc")
  /\ hash (two_strings "abc" "abc") (view_at 16 "abc")
     = Ret (bernstein (chars "abc"))
  /\ hash (two_strings "abc" "abc") (view_at 4096 "abc")
     = hash (two_strings "abc" "abc") (view_at 16 "abc").
Proof.
  assert (V : valid (view_at 16 "abc")) by (unfold valid, view_at; cbn; lia).
  assert (V' : valid (view_at 4096 "abc"))
    by (unfold valid, view_at; cbn; lia).
  assert (C : contents (two_strings "abc" "abc") (view_at 16 "abc")
              = Some (chars "abc")) by (vm_compute; reflexivity).
  split; [exact V |]. split; [exact C |].
  destruct (hash_deterministic_bernstein (two_strings "abc" "abc")
              (view_at 16 "abc") (chars "abc") V C) as (H1 & H2).
  split; [exact H1 |].
  apply (H2 (two_strings "abc" "abc") (view_at 4096 "abc") V').
  vm_compute. reflexivity.
Defined.

(** ** The element overload of qfind *)

(** On live views [qfind] depends only on the sequences shown. *)
Lemma qfind_same_contents (m m' : memory char)
    (haystack haystack' needle needle' : StringPiece) (h n : list char) :
  valid haystack -> valid needle -> valid haystack' -> valid needle' ->
  contents m haystack = Some h -> contents m needle = Some n ->
  contents m' haystack' = Some h -> contents m' needle' = Some n ->
  qfind m haystack needle = qfind m' haystack' needle'.
Proof.
  intros Hvh Hvn Hvh' Hvn' Hh Hn Hh' Hn'.
  destruct (qfind_correct m haystack needle h n Hvh Hvn Hh Hn)
    as (r & Hr & Hcases).
  destruct (qfind_correct m' haystack' needle' h n Hvh' Hvn' Hh' Hn')
    as (r' & Hr' & Hcases').
  rewrite Hr, Hr'. f_equal.
  destruct Hcases as [(-> & Hno) | (k & -> & _ & Hocc & Hmin)];
    destruct Hcases' as [(-> & Hno') | (k' & -> & _ & Hocc' & Hmin')].
  - reflexivity.
  - exfalso. exact (Hno k' Hocc').
  - exfalso. exact (Hno' k Hocc).
  - f_equal. apply Nat.le_antisymm; [apply Hmin | apply Hmin']; assumption.
Qed.

(** C10. On a live haystack, the search for the element found at address
    [needle] returns what the search for any live one-element view showing
    that element returns; and the two-argument [qfind] is the
    three-argument one with the comparator that is equality of
    characters. *)
Theorem qfind_elem_is_qfind (m : memory char) (haystack one : StringPiece)
    (needle : Z) (h : list char) (c : char) :
  valid haystack -> contents m haystack = Some h ->
  valid one -> contents m one = Some [c] ->
  0 <= needle -> needle + 1 < 2 ^ 64 -> m needle = Some c ->
  qfind_elem m haystack needle = qfind m haystack one
  /\ qfind m haystack one = qfind3 m haystack one Z.eqb.
Proof.
  intros Hvh Hh Hvo Ho Hn0 Hn1 Hm.
  split; [| reflexivity].
  unfold qfind_elem, makeRange, Range_of_iters, reachable.
  assert (E : (needle <=? needle + 1) = true) by (apply Z.leb_le; lia).
  rewrite E. cbn [bind check].
  apply (qfind_same_contents m m haystack haystack
           (mkRange needle (needle + 1)) one h [c]); try assumption.
  - unfold valid. simpl. lia.
  - unfold contents. simpl.
    replace (needle + 1 - needle) with 1 by lia. simpl. rewrite Hm.
    reflexivity.
Qed.

Lemma qfind_elem_is_qfind_witness :
  valid (view_at 16 "hello") /\ valid (view_at 4096 "l")
  /\ contents (two_strings "hello" "l") (view_at 16 "hello")
     = Some (chars "hello")
  /\ contents (two_strings "hello" "l") (view_at 4096 "l") = Some [108]
  /\ 0 <= 18 /\ 18 + 1 < 2 ^ 64
  /\ two_strings "hello" "l" 18 = Some 108
  /\ qfind_elem (two_strings "hello" "l") (view_at 16 "hello") 18
     = qfind (two_strings "hello" "l") (view_at 16 "hello")
         (view_at 4096 "l").
Proof.
  assert (V1 : valid (view_at 16 "hello"))
    by (unfold valid, view_at; cbn; lia).
  assert (V2 : valid (view_at 4096 "l"))
    by (unfold valid, view_at; cbn; lia).
  assert (C1 : contents (two_strings "hello" "l") (view_at 16 "hello")
               = Some (chars "hello")) by (vm_compute; reflexivity).
  assert (C2 : contents (two_strings "hello" "l") (view_at 4096 "l")
               = Some [108]) by (vm_compute; reflexivity).
  assert (M : two_strings "hello" "l" 18 = Some 108)
    by (vm_compute; reflexivity).
  split; [exact V1 |]. split; [exact V2 |]. split; [exact C1 |].
  split; [exact C2 |]. split; [lia |]. split; [lia |]. split; [exact M |].
  apply (qfind_elem_is_qfind (two_strings "hello" "l") (view_at 16 "hello")
           (view_at 4096 "l") 18 (chars "hello") 108 V1 C1 V2 C2);
    [lia | lia | exact M].
Defined.

Example qfind_elem_hello :
  qfind_elem (two_strings "hello" "l") (view_at 16 "hello") 18 = Ret 2.
Proof. vm_compute. reflexivity. Qed.

(** ** compare on views of four gigabytes and more *)

(** C5. [compare] loses the high bits of [tsize - osize] when it stores the
    difference in an [int], so that it is not the order the documentation
    describes on views whose sizes differ by 2^31 or more.  In storage
    where the 6 GiB from address 0 on are live zero characters: the empty
    view against the valid view of 2^32 characters compares as 0 although
    the sizes differ and [==] tells the two apart; and the view of
    2^31 + 1 characters sorts before the empty view, its own prefix, while
    the empty view does not sort before it. *)
Theorem compare_truncates_size_difference :
  (forall p, 0 <= p < 2 ^ 32 + 2 ^ 31 -> six_gib p = Some 0)
  /\ valid (mkRange 0 0)
  /\ valid (mkRange 0 (2 ^ 32))
  /\ valid (mkRange 0 (2 ^ 31 + 1))
  /\ size (mkRange 0 0) = Ret 0
  /\ size (mkRange 0 (2 ^ 32)) = Ret (2 ^ 32)
  /\ compare six_gib (mkRange 0 0) (mkRange 0 (2 ^ 32)) = Ret 0
  /\ op_eq six_gib (mkRange 0 0) (mkRange 0 (2 ^ 32)) = Ret false
  /\ op_lt six_gib (mkRange 0 (2 ^ 31 + 1)) (mkRange 0 0) = Ret true
  /\ op_lt six_gib (mkRange 0 0) (mkRange 0 (2 ^ 31 + 1)) = Ret false.
Proof.
  split.
  { intros p Hp. unfold six_gib.
    assert (E1 : (0 <=? p) = true) by (apply Z.leb_le; lia).
    assert (E2 : (p <? 2 ^ 32 + 2 ^ 31) = true) by (apply Z.ltb_lt; lia).
    rewrite E1, E2. reflexivity. }
  split; [unfold valid; simpl; lia |].
  split; [unfold valid; simpl; lia |].
  split; [unfold valid; simpl; lia |].
  repeat split; vm_compute; reflexivity.
Qed.

(** [std::char_traits<char>::compare] on two live stretches of [n]
    characters. *)
Lemma traits_compare_spec (m : memory char) (n : nat) :
  forall p q la lb,
    read_seq m p n = Some la -> read_seq m q n = Some lb ->
    traits_compare m p q n = Ret (lexicographic la lb).
Proof.
  induction n as [| n IH]; intros p q la lb Ha Hb; simpl in Ha, Hb.
  - injection Ha as <-. injection Hb as <-. reflexivity.
  - destruct (m p) as [x |] eqn:Ep; [| discriminate].
    destruct (read_seq m (p + 1) n) as [la' |] eqn:Ea; [| discriminate].
    destruct (m q) as [y |] eqn:Eq; [| discriminate].
    destruct (read_seq m (q + 1) n) as [lb' |] eqn:Eb; [| discriminate].
    injection Ha as <-. injection Hb as <-.
    cbn [traits_compare lexicographic]. unfold load. rewrite Ep, Eq.
    cbn [bind].
    destruct (x <? y); [reflexivity |].
    destruct (y <? x); [reflexivity |].
    apply IH; assumption.
Qed.

Lemma lexicographic_common_prefix (la : list char) :
  forall lb,
    lexicographic la lb
    = if lexicographic (firstn (Nat.min (length la) (length lb)) la)
           (firstn (Nat.min (length la) (length lb)) lb) =? 0
      then Z.sgn (Z.of_nat (length la) - Z.of_nat (length lb))
      else lexicographic (firstn (Nat.min (length la) (length lb)) la)
             (firstn (Nat.min (length la) (length lb)) lb).
Proof.
  induction la as [| x la IH]; intros [| y lb].
  - reflexivity.
  - reflexivity.
  - reflexivity.
  - cbn [length Nat.min firstn lexicographic].
    destruct (x <? y); [reflexivity |].
    destruct (y <? x); [reflexivity |].
    rewrite (IH lb) at 1.
    replace (Z.of_nat (S (length la)) - Z.of_nat (S (length lb)))
      with (Z.of_nat (length la) - Z.of_nat (length lb)) by lia.
    reflexivity.
Qed.

Lemma lexicographic_range (la : list char) :
  forall lb, -1 <= lexicographic la lb <= 1.
Proof.
  induction la as [| x la IH]; intros [| y lb]; simpl; try lia.
  destruct (x <? y); [lia |].
  destruct (y <? x); [lia |]. apply IH.
Qed.

Lemma lexicographic_zero (la : list char) :
  forall lb,
    Forall is_char la -> Forall is_char lb ->
    (lexicographic la lb = 0 <-> la = lb).
Proof.
  induction la as [| x la IH]; intros [| y lb] Ha Hb; simpl.
  - split; reflexivity.
  - split; discriminate.
  - split; discriminate.
  - inversion Ha as [| ? ? Hx Ha']. inversion Hb as [| ? ? Hy Hb']. subst.
    unfold is_char in Hx, Hy.
    destruct (x <? y) eqn:E1.
    { apply Z.ltb_lt in E1. split; [discriminate |].
      intros E. injection E as -> _. lia. }
    destruct (y <? x) eqn:E2.
    { apply Z.ltb_lt in E2. split; [discriminate |].
      intros E. injection E as -> _. lia. }
    apply Z.ltb_ge in E1, E2.
    assert (Hxy : x = y) by lia.
    subst y. rewrite (IH lb Ha' Hb'). split; [intros ->; reflexivity |].
    intros E. injection E as ->. reflexivity.
Qed.

Lemma to_int_small (d : Z) :
  - 2 ^ 31 <= d < 2 ^ 31 -> to_int (wrap64 d) = d.
Proof.
  intros Hd. unfold to_int, wrap64.
  assert (E : (d mod 2 ^ 64 + 2 ^ 31) mod 2 ^ 32 = d + 2 ^ 31).
  { destruct (Z_lt_le_dec d 0) as [Neg | Pos].
    - replace (d mod 2 ^ 64) with (d + 2 ^ 64).
      + replace (d + 2 ^ 64 + 2 ^ 31) with (d + 2 ^ 31 + 2 ^ 32 * 2 ^ 32)
          by lia.
        rewrite Z.mod_add by lia. apply Z.mod_small. lia.
      + apply (Z.mod_unique _ _ (-1)); lia.
    - rewrite (Z.mod_small d) by lia. apply Z.mod_small. lia. }
  rewrite E. lia.
Qed.

(** Away from the truncation, [compare] is the order of the documentation:
    on live views whose sizes differ by less than 2^31 its sign is that of
    the lexicographic comparison, and it is 0 exactly for equal
    sequences. *)
Lemma compare_small_difference (m : memory char) (a b : StringPiece)
    (la lb : list char) :
  valid a -> valid b ->
  contents m a = Some la -> contents m b = Some lb ->
  - 2 ^ 31 <= Z.of_nat (length la) - Z.of_nat (length lb) < 2 ^ 31 ->
  exists r,
    compare m a b = Ret r
    /\ Z.sgn r = lexicographic la lb
    /\ (Forall is_char la -> Forall is_char lb -> (r = 0 <-> la = lb)).
Proof.
  intros Hva Hvb Ha Hb Hd.
  assert (La := contents_length char m a la Hva Ha).
  assert (Lb := contents_length char m b lb Hvb Hb).
  unfold compare. rewrite (size_valid a Hva), (size_valid b Hvb).
  cbn [bind]. unfold data.
  set (ms := Nat.min (length la) (length lb)).
  assert (Hms : Z.to_nat (Z.min (e_ a - b_ a) (e_ b - b_ b)) = ms)
    by (unfold ms; lia).
  rewrite Hms.
  assert (Ra : read_seq m (b_ a) ms = Some (firstn ms la)).
  { apply (read_seq_firstn char m (Z.to_nat (e_ a - b_ a))); [exact Ha |].
    unfold ms. lia. }
  assert (Rb : read_seq m (b_ b) ms = Some (firstn ms lb)).
  { apply (read_seq_firstn char m (Z.to_nat (e_ b - b_ b))); [exact Hb |].
    unfold ms. lia. }
  rewrite (traits_compare_spec m ms _ _ _ _ Ra Rb). cbn [bind].
  eexists. split; [reflexivity |].
  assert (Hlex := lexicographic_common_prefix la lb). fold ms in Hlex.
  assert (Hr := lexicographic_range (firstn ms la) (firstn ms lb)).
  rewrite <- La, <- Lb. rewrite to_int_small by lia.
  assert (Hsgn :
    Z.sgn (if lexicographic (firstn ms la) (firstn ms lb) =? 0
           then Z.of_nat (length la) - Z.of_nat (length lb)
           else lexicographic (firstn ms la) (firstn ms lb))
    = lexicographic la lb).
  { rewrite Hlex.
    destruct (lexicographic (firstn ms la) (firstn ms lb) =? 0) eqn:E;
      [reflexivity |].
    apply Z.eqb_neq in E.
    destruct (Z.eq_dec (lexicographic (firstn ms la) (firstn ms lb)) 1)
      as [-> | ?]; [reflexivity |].
    replace (lexicographic (firstn ms la) (firstn ms lb)) with (-1) by lia.
    reflexivity. }
  split; [exact Hsgn |].
  intros Ca Cb. rewrite <- (lexicographic_zero la lb Ca Cb), <- Hsgn.
  split; [intros ->; reflexivity | apply Z.sgn_null_iff].
Qed.

(** * Further properties of the header *)

(** ** Shrinking a view *)

(** The view between two addresses inside a live view. *)
Lemma contents_between (T : Type) (m : memory T) (r : Range) (l : list T)
    (b e : Z) :
  valid r -> contents m r = Some l ->
  b_ r <= b -> b <= e -> e <= e_ r ->
  contents m (mkRange b e)
  = Some (firstn (Z.to_nat (e - b)) (skipn (Z.to_nat (b - b_ r)) l)).
Proof.
  intros Hv Hc Hb Hbe He.
  assert (H := contents_slice T m r l (b - b_ r) (e - b) Hv Hc
                 ltac:(lia) ltac:(lia) ltac:(lia)).
  replace (b_ r + (b - b_ r)) with b in H by lia.
  replace (b + (e - b)) with e in H by lia. exact H.
Qed.

Lemma valid_between (r : Range) (b e : Z) :
  valid r -> b_ r <= b -> b <= e -> e <= e_ r -> valid (mkRange b e).
Proof.
  intros (H0 & H1 & H2 & H3) Hb Hbe He. unfold valid. simpl. lia.
Qed.

Lemma advance_ret (this : Range) (n : Z) :
  valid this -> n <= e_ this - b_ this ->
  advance this n = Ret (mkRange (b_ this + n) (e_ this)).
Proof.
  intros Hv Hn. unfold advance. rewrite (size_valid this Hv). cbn [bind].
  assert (E : (n <=? e_ this - b_ this) = true) by (apply Z.leb_le; lia).
  rewrite E. reflexivity.
Qed.

Lemma subtract_ret (this : Range) (n : Z) :
  valid this -> n <= e_ this - b_ this ->
  subtract this n = Ret (mkRange (b_ this) (e_ this - n)).
Proof.
  intros Hv Hn. unfold subtract. rewrite (size_valid this Hv). cbn [bind].
  assert (E : (n <=? e_ this - b_ this) = true) by (apply Z.leb_le; lia).
  rewrite E. reflexivity.
Qed.

(** X1. [advance(n)] stops the program when [n] exceeds the size of the
    view; otherwise it leaves a valid view of [size - n] elements that shows
    the sequence without its first [n] elements. *)
Theorem advance_drops_front (this : Range) (n : Z) :
  valid this -> 0 <= n < 2 ^ 64 ->
  (e_ this - b_ this < n -> advance this n = Abort)
  /\ (n <= e_ this - b_ this ->
      exists r,
        advance this n = Ret r
        /\ valid r
        /\ size r = Ret (e_ this - b_ this - n)
        /\ forall (T : Type) (m : memory T) (l : list T),
             contents m this = Some l ->
             contents m r = Some (skipn (Z.to_nat n) l)).
Proof.
  intros Hv Hn. split.
  - intros Hgt. unfold advance. rewrite (size_valid this Hv). cbn [bind].
    assert (E : (n <=? e_ this - b_ this) = false) by (apply Z.leb_gt; lia).
    rewrite E. reflexivity.
  - intros Hle. rewrite (advance_ret this n Hv Hle).
    assert (Hvr : valid (mkRange (b_ this + n) (e_ this)))
      by (apply (valid_between this); try assumption; lia).
    eexists. split; [reflexivity |]. split; [exact Hvr |].
    split; [rewrite (size_valid _ Hvr); simpl; f_equal; lia |].
    intros T m l Hc.
    assert (L := contents_length T m this l Hv Hc).
    rewrite (contents_between T m this l _ _ Hv Hc) by lia.
    replace (b_ this + n - b_ this) with n by lia.
    rewrite firstn_all2 by (rewrite length_skipn; lia). reflexivity.
Qed.

Lemma advance_drops_front_witness :
  valid (view_at 16 "abcdef") /\ 0 <= 2 < 2 ^ 64
  /\ 2 <= e_ (view_at 16 "abcdef") - b_ (view_at 16 "abcdef")
  /\ exists r,
       advance (view_at 16 "abcdef") 2 = Ret r
       /\ valid r
       /\ size r
          = Ret (e_ (view_at 16 "abcdef") - b_ (view_at 16 "abcdef") - 2)
       /\ forall (T : Type) (m : memory T) (l : list T),
            contents m (view_at 16 "abcdef") = Some l ->
            contents m r = Some (skipn (Z.to_nat 2) l).
Proof.
  assert (V : valid (view_at 16 "abcdef"))
    by (unfold valid, view_at; cbn; lia).
  assert (N : 0 <= 2 < 2 ^ 64) by lia.
  assert (L : 2 <= e_ (view_at 16 "abcdef") - b_ (view_at 16 "abcdef"))
    by (cbn; lia).
  split; [exact V |]. split; [exact N |]. split; [exact L |].
  apply (advance_drops_front (view_at 16 "abcdef") 2 V N). exact L.
Defined.

(** X2. [subtract(n)] stops the program when [n] exceeds the size of the
    view; otherwise it leaves a valid view of [size - n] elements that shows
    the sequence without its last [n] elements. *)
Theorem subtract_drops_back (this : Range) (n : Z) :
  valid this -> 0 <= n < 2 ^ 64 ->
  (e_ this - b_ this < n -> subtract this n = Abort)
  /\ (n <= e_ this - b_ this ->
      exists r,
        subtract this n = Ret r
        /\ valid r
        /\ size r = Ret (e_ this - b_ this - n)
        /\ forall (T : Type) (m : memory T) (l : list T),
             contents m this = Some l ->
             contents m r = Some (firstn (length l - Z.to_nat n) l)).
Proof.
  intros Hv Hn. split.
  - intros Hgt. unfold subtract. rewrite (size_valid this Hv). cbn [bind].
    assert (E : (n <=? e_ this - b_ this) = false) by (apply Z.leb_gt; lia).
    rewrite E. reflexivity.
  - intros Hle. rewrite (subtract_ret this n Hv Hle).
    assert (Hvr : valid (mkRange (b_ this) (e_ this - n)))
      by (apply (valid_between this); try assumption; lia).
    eexists. split; [reflexivity |]. split; [exact Hvr |].
    split; [rewrite (size_valid _ Hvr); simpl; f_equal; lia |].
    intros T m l Hc.
    assert (L := contents_length T m this l Hv Hc).
    rewrite (contents_between T m this l _ _ Hv Hc) by lia.
    rewrite Z.sub_diag. simpl skipn. f_equal. f_equal. lia.
Qed.

Lemma subtract_drops_back_witness :
  valid (view_at 16 "abcdef") /\ 0 <= 7 < 2 ^ 64
  /\ e_ (view_at 16 "abcdef") - b_ (view_at 16 "abcdef") < 7
  /\ subtract (view_at 16 "abcdef") 7 = Abort.
Proof.
  assert (V : valid (view_at 16 "abcdef"))
    by (unfold valid, view_at; cbn; lia).
  assert (N : 0 <= 7 < 2 ^ 64) by lia.
  assert (L : e_ (view_at 16 "abcdef") - b_ (view_at 16 "abcdef") < 7)
    by (cbn; lia).
  split; [exact V |]. split; [exact N |]. split; [exact L |].
  apply (subtract_drops_back (view_at 16 "abcdef") 7 V N). exact L.
Defined.

(** X3. Calling [pop_front()] [n] times in a row on a view of at least [n]
    elements leaves what [advance(n)] leaves; on a view of fewer elements
    the calls run into the failed assertion of the empty view, however
    many more are made. *)
Theorem pop_front_times (n : nat) :
  forall this : Range,
    valid this ->
    (Z.of_nat n <= e_ this - b_ this ->
     times pop_front n this = advance this (Z.of_nat n))
    /\ (e_ this - b_ this < Z.of_nat n -> times pop_front n this = Abort).
Proof.
  induction n as [| n IH]; intros this Hv.
  - split; [| destruct Hv as (? & ? & ?); lia].
    intros _. rewrite advance_ret by (try assumption; simpl; destruct Hv as (? & ? & ?); lia).
    simpl. destruct this as [b e]. simpl. f_equal. f_equal. lia.
  - cbn [times].
    destruct (b_ this <? e_ this) eqn:E.
    + assert (P : pop_front this = Ret (mkRange (b_ this + 1) (e_ this)))
        by (unfold pop_front; rewrite E; reflexivity).
      rewrite P. apply Z.ltb_lt in E. cbn [bind].
      assert (Hv' : valid (mkRange (b_ this + 1) (e_ this)))
        by (apply (valid_between this); try assumption; lia).
      destruct (IH _ Hv') as (Hle & Hgt). simpl in Hle, Hgt. split.
      * intros Hn. rewrite Hle by lia.
        rewrite !advance_ret by (try assumption; simpl; lia).
        simpl. f_equal. f_equal. lia.
      * intros Hn. apply Hgt. lia.
    + assert (P : pop_front this = Abort)
        by (unfold pop_front; rewrite E; reflexivity).
      rewrite P. apply Z.ltb_ge in E. cbn [bind]. split; [| reflexivity].
      intros Hn. lia.
Qed.

Lemma pop_front_times_witness :
  valid (view_at 16 "abc")
  /\ e_ (view_at 16 "abc") - b_ (view_at 16 "abc") < Z.of_nat 4
  /\ times pop_front 4 (view_at 16 "abc") = Abort.
Proof.
  assert (V : valid (view_at 16 "abc")) by (unfold valid, view_at; cbn; lia).
  assert (L : e_ (view_at 16 "abc") - b_ (view_at 16 "abc") < Z.of_nat 4)
    by (cbn; lia).
  split; [exact V |]. split; [exact L |].
  apply (pop_front_times 4 (view_at 16 "abc") V). exact L.
Defined.

(** X4. Calling [pop_back()] [n] times in a row on a view of at least [n]
    elements leaves what [subtract(n)] leaves; on a view of fewer elements
    the calls run into the failed assertion of the empty view. *)
Theorem pop_back_times (n : nat) :
  forall this : Range,
    valid this ->
    (Z.of_nat n <= e_ this - b_ this ->
     times pop_back n this = subtract this (Z.of_nat n))
    /\ (e_ this - b_ this < Z.of_nat n -> times pop_back n this = Abort).
Proof.
  induction n as [| n IH]; intros this Hv.
  - split; [| destruct Hv as (? & ? & ?); lia].
    intros _. rewrite subtract_ret by (try assumption; simpl; destruct Hv as (? & ? & ?); lia).
    simpl. destruct this as [b e]. simpl. f_equal. f_equal. lia.
  - cbn [times].
    destruct (b_ this <? e_ this) eqn:E.
    + assert (P : pop_back this = Ret (mkRange (b_ this) (e_ this - 1)))
        by (unfold pop_back; rewrite E; reflexivity).
      rewrite P. apply Z.ltb_lt in E. cbn [bind].
      assert (Hv' : valid (mkRange (b_ this) (e_ this - 1)))
        by (apply (valid_between this); try assumption; lia).
      destruct (IH _ Hv') as (Hle & Hgt). simpl in Hle, Hgt. split.
      * intros Hn. rewrite Hle by lia.
        rewrite !subtract_ret by (try assumption; simpl; lia).
        simpl. f_equal. f_equal. lia.
      * intros Hn. apply Hgt. lia.
    + assert (P : pop_back this = Abort)
        by (unfold pop_back; rewrite E; reflexivity).
      rewrite P. apply Z.ltb_ge in E. cbn [bind]. split; [| reflexivity].
      intros Hn. lia.
Qed.

Lemma pop_back_times_witness :
  valid (view_at 16 "abc")
  /\ Z.of_nat 2 <= e_ (view_at 16 "abc") - b_ (view_at 16 "abc")
  /\ times pop_back 2 (view_at 16 "abc")
     = subtract (view_at 16 "abc") (Z.of_nat 2).
Proof.
  assert (V : valid (view_at 16 "abc")) by (unfold valid, view_at; cbn; lia).
  assert (L : Z.of_nat 2 <= e_ (view_at 16 "abc") - b_ (view_at 16 "abc"))
    by (cbn; lia).
  split; [exact V |]. split; [exact L |].
  apply (pop_back_times 2 (view_at 16 "abc") V). exact L.
Defined.

Lemma subpiece_ret (this : Range) (first length : Z) :
  valid this -> 0 <= first <= e_ this - b_ this -> 0 <= length ->
  subpiece this first length
  = Ret (mkRange (b_ this + first)
           (b_ this + first + Z.min length (e_ this - b_ this - first))).
Proof.
  intros Hv Hf Hl. unfold subpiece. rewrite (size_valid this Hv). cbn [bind].
  assert (E : (first <=? e_ this - b_ this) = true) by (apply Z.leb_le; lia).
  rewrite E. cbn [bind check]. unfold Range_of_size.
  rewrite wrap64_small by (destruct Hv as (? & ? & ? & ?); lia).
  reflexivity.
Qed.

(** X5. Dropping [a] elements at the front and [c] at the back of a view of
    at least [a + c] elements gives one view in either order of the two
    calls, the view [subpiece(a, size - a - c)] returns. *)
Theorem advance_subtract_commute (this : Range) (a c : Z) :
  valid this -> 0 <= a -> 0 <= c -> a + c <= e_ this - b_ this ->
  (r <- advance this a ;; subtract r c)
  = (r <- subtract this c ;; advance r a)
  /\ (r <- advance this a ;; subtract r c)
     = subpiece this a (e_ this - b_ this - a - c).
Proof.
  intros Hv Ha Hc Hfit.
  rewrite (advance_ret this a Hv) by lia.
  rewrite (subtract_ret this c Hv) by lia. cbn [bind].
  assert (V1 : valid (mkRange (b_ this + a) (e_ this)))
    by (apply (valid_between this); try assumption; lia).
  assert (V2 : valid (mkRange (b_ this) (e_ this - c)))
    by (apply (valid_between this); try assumption; lia).
  rewrite (subtract_ret _ c V1) by (simpl; lia).
  rewrite (advance_ret _ a V2) by (simpl; lia).
  rewrite (subpiece_ret this a _ Hv) by lia. simpl.
  split; [reflexivity |]. f_equal. f_equal. lia.
Qed.

Lemma advance_subtract_commute_witness :
  valid (view_at 16 "abcdef") /\ 0 <= 1 /\ 0 <= 2
  /\ 1 + 2 <= e_ (view_at 16 "abcdef") - b_ (view_at 16 "abcdef")
  /\ (r <- advance (view_at 16 "abcdef") 1 ;; subtract r 2)
     = (r <- subtract (view_at 16 "abcdef") 2 ;; advance r 1).
Proof.
  assert (V : valid (view_at 16 "abcdef"))
    by (unfold valid, view_at; cbn; lia).
  assert (L : 1 + 2 <= e_ (view_at 16 "abcdef") - b_ (view_at 16 "abcdef"))
    by (cbn; lia).
  split; [exact V |]. split; [lia |]. split; [lia |]. split; [exact L |].
  apply (advance_subtract_commute (view_at 16 "abcdef") 1 2 V); [lia | lia |].
  exact L.
Defined.

(** ** First and last element, and the unchecked index *)

(** X6. On an empty view [front()] and [back()] stop on their assertion.
    On a view that is not empty they return the references [operator[]]
    returns for index 0 and for index [size - 1], and reading through them
    gives the first and the last element of the sequence shown. *)
Theorem front_back_ends (this : Range) :
  valid this ->
  (empty this = true -> front this = Abort /\ back this = Abort)
  /\ (empty this = false ->
      front this = index this 0
      /\ back this = index this (e_ this - b_ this - 1)
      /\ forall (T : Type) (m : memory T) (l : list T),
           contents m this = Some l ->
           exists x y,
             nth_error l 0 = Some x
             /\ nth_error l (length l - 1) = Some y
             /\ (r <- front this ;; load m r) = Ret x
             /\ (r <- back this ;; load m r) = Ret y).
Proof.
  intros Hv. unfold empty, front, back, value_before.
  assert (Hb : b_ this <= e_ this) by (destruct Hv as (? & ? & ?); lia).
  split.
  - intros E. apply Z.eqb_eq in E.
    assert (F : (b_ this <? e_ this) = false) by (apply Z.ltb_ge; lia).
    rewrite F. split; reflexivity.
  - intros E. apply Z.eqb_neq in E.
    assert (F : (b_ this <? e_ this) = true) by (apply Z.ltb_lt; lia).
    rewrite F. cbn [bind check].
    rewrite !index_valid by (try assumption; lia).
    split; [f_equal; lia |]. split; [f_equal; lia |].
    intros T m l Hc.
    assert (L := contents_length T m this l Hv Hc).
    assert (N0 := contents_nth T m this l 0 Hc ltac:(lia)).
    assert (N1 := contents_nth T m this l (length l - 1) Hc ltac:(lia)).
    replace (b_ this + Z.of_nat 0) with (b_ this) in N0 by lia.
    replace (b_ this + Z.of_nat (length l - 1)) with (e_ this - 1) in N1
      by lia.
    destruct (nth_error l 0) as [x |] eqn:E0.
    2:{ apply nth_error_None in E0. lia. }
    destruct (nth_error l (length l - 1)) as [y |] eqn:E1.
    2:{ apply nth_error_None in E1. lia. }
    exists x, y. unfold load. rewrite N0, N1. repeat split; reflexivity.
Qed.

Lemma front_back_ends_witness :
  valid (view_at 16 "") /\ empty (view_at 16 "") = true
  /\ front (view_at 16 "") = Abort /\ back (view_at 16 "") = Abort.
Proof.
  assert (V : valid (view_at 16 "")) by (unfold valid, view_at; cbn; lia).
  split; [exact V |]. split; [reflexivity |].
  apply (front_back_ends (view_at 16 "") V). reflexivity.
Defined.

(** X7. [operator[]] stops the program exactly when the index is not below
    the size, where [at] throws; below the size the two return the same
    reference. *)
Theorem index_checked_like_at (v : Range) (i : Z) :
  valid v -> 0 <= i < 2 ^ 64 ->
  (index v i = Abort <-> e_ v - b_ v <= i)
  /\ (i < e_ v - b_ v -> index v i = at_const v i).
Proof.
  intros Hv Hi. unfold index, at_const. rewrite (size_valid v Hv).
  cbn [bind]. rewrite Z.gtb_ltb, Z.geb_leb.
  destruct (i <? e_ v - b_ v) eqn:E.
  - apply Z.ltb_lt in E.
    assert (F : (e_ v - b_ v <=? i) = false) by (apply Z.leb_gt; lia).
    rewrite F. cbn [bind check].
    split; [split; [discriminate | lia] | reflexivity].
  - apply Z.ltb_ge in E. cbn [bind check].
    split; [split; [intros _; exact E | reflexivity] | lia].
Qed.

Lemma index_checked_like_at_witness :
  valid (view_at 16 "abc") /\ 0 <= 1 < 2 ^ 64
  /\ 1 < e_ (view_at 16 "abc") - b_ (view_at 16 "abc")
  /\ index (view_at 16 "abc") 1 = at_const (view_at 16 "abc") 1.
Proof.
  assert (V : valid (view_at 16 "abc")) by (unfold valid, view_at; cbn; lia).
  assert (I : 0 <= 1 < 2 ^ 64) by lia.
  assert (L : 1 < e_ (view_at 16 "abc") - b_ (view_at 16 "abc"))
    by (cbn; lia).
  split; [exact V |]. split; [exact I |]. split; [exact L |].
  apply (index_checked_like_at (view_at 16 "abc") 1 V I). exact L.
Defined.

(** ** subpiece again *)

(** X8. [subpiece(first, length)] stops the program when [first] exceeds
    the size; [subpiece(0)] with the default length returns the view
    itself; and [advance(n)] leaves the view [subpiece(n)] returns. *)
Theorem subpiece_edges (this : Range) (first length : Z) :
  valid this -> 0 <= first < 2 ^ 64 ->
  (e_ this - b_ this < first -> subpiece this first length = Abort)
  /\ subpiece this 0 npos = Ret this
  /\ (first <= e_ this - b_ this ->
      advance this first = subpiece this first npos).
Proof.
  intros Hv Hf.
  assert (Hb : 0 <= e_ this - b_ this < 2 ^ 63)
    by (destruct Hv as (? & ? & ? & ?); lia).
  split; [| split].
  - intros Hgt. unfold subpiece. rewrite (size_valid this Hv). cbn [bind].
    assert (E : (first <=? e_ this - b_ this) = false)
      by (apply Z.leb_gt; lia).
    rewrite E. reflexivity.
  - rewrite (subpiece_ret this 0 npos Hv) by (rewrite ?npos_value; lia).
    rewrite npos_value. rewrite Z.min_r by lia.
    destruct this as [b e]. simpl. f_equal. f_equal; lia.
  - intros Hle. rewrite (advance_ret this first Hv Hle).
    rewrite (subpiece_ret this first npos Hv) by (rewrite ?npos_value; lia).
    rewrite npos_value. rewrite Z.min_r by lia. f_equal. f_equal. lia.
Qed.

Lemma subpiece_edges_witness :
  valid (view_at 16 "abc") /\ 0 <= 4 < 2 ^ 64
  /\ e_ (view_at 16 "abc") - b_ (view_at 16 "abc") < 4
  /\ subpiece (view_at 16 "abc") 4 1 = Abort.
Proof.
  assert (V : valid (view_at 16 "abc")) by (unfold valid, view_at; cbn; lia).
  assert (F : 0 <= 4 < 2 ^ 64) by lia.
  assert (L : e_ (view_at 16 "abc") - b_ (view_at 16 "abc") < 4)
    by (cbn; lia).
  split; [exact V |]. split; [exact F |]. split; [exact L |].
  exact (proj1 (subpiece_edges (view_at 16 "abc") 4 1 V F) L).
Defined.

(** X9. A piece of a piece is a piece: for [f1 + f2] within the size,
    [subpiece(f1).subpiece(f2, length)] is [subpiece(f1 + f2, length)]. *)
Theorem subpiece_of_subpiece (this : Range) (f1 f2 length : Z) :
  valid this -> 0 <= f1 -> 0 <= f2 -> f1 + f2 <= e_ this - b_ this ->
  0 <= length < 2 ^ 64 ->
  (s <- subpiece this f1 npos ;; subpiece s f2 length)
  = subpiece this (f1 + f2) length.
Proof.
  intros Hv H1 H2 Hfit Hl.
  assert (Hb : 0 <= e_ this - b_ this < 2 ^ 63)
    by (destruct Hv as (? & ? & ? & ?); lia).
  rewrite (subpiece_ret this f1 npos Hv) by (rewrite ?npos_value; lia).
  rewrite npos_value. rewrite Z.min_r by lia. cbn [bind].
  assert (V1 : valid (mkRange (b_ this + f1)
                        (b_ this + f1 + (e_ this - b_ this - f1))))
    by (apply (valid_between this); try assumption; lia).
  rewrite (subpiece_ret _ f2 length V1) by (simpl; lia).
  rewrite (subpiece_ret this (f1 + f2) length Hv) by lia.
  simpl. f_equal. f_equal; [lia |].
  replace (b_ this + f1 + (e_ this - b_ this - f1) - (b_ this + f1) - f2)
    with (e_ this - b_ this - (f1 + f2)) by lia.
  lia.
Qed.

Lemma subpiece_of_subpiece_witness :
  valid (view_at 16 "abcdef") /\ 0 <= 1 /\ 0 <= 2
  /\ 1 + 2 <= e_ (view_at 16 "abcdef") - b_ (view_at 16 "abcdef")
  /\ 0 <= 2 < 2 ^ 64
  /\ (s <- subpiece (view_at 16 "abcdef") 1 npos ;; subpiece s 2 2)
     = subpiece (view_at 16 "abcdef") (1 + 2) 2.
Proof.
  assert (V : valid (view_at 16 "abcdef"))
    by (unfold valid, view_at; cbn; lia).
  assert (L : 1 + 2 <= e_ (view_at 16 "abcdef") - b_ (view_at 16 "abcdef"))
    by (cbn; lia).
  split; [exact V |]. split; [lia |]. split; [lia |]. split; [exact L |].
  split; [lia |].
  apply (subpiece_of_subpiece (view_at 16 "abcdef") 1 2 2 V);
    [lia | lia | exact L | lia].
Defined.

(** ** qfind under other comparators *)

(** X10. Whatever the comparator, an offset [qfind] returns on live views
    is an offset at which the needle fits in the haystack and every element
    of the haystack passes the comparator against the element of the needle
    laid over it. *)
Theorem qfind3_returns_a_match (T : Type) (m : memory T)
    (haystack needle : Range) (eq : T -> T -> bool) (h n : list T) (r : Z) :
  valid haystack -> valid needle ->
  contents m haystack = Some h -> contents m needle = Some n ->
  qfind3 m haystack needle eq = Ret r -> r <> npos ->
  exists k, r = Z.of_nat k /\ matches_at eq h n k.
Proof.
  intros Hvh Hvn Hh Hn Hr Hne.
  destruct (qfind3_correct T m haystack needle eq h n Hvh Hvn Hh Hn)
    as (r' & Hr' & Hcases).
  rewrite Hr in Hr'. injection Hr' as <-.
  destruct Hcases as [(-> & _) | (k & -> & _ & Hm & _)]; [contradiction |].
  exists k. split; [reflexivity | exact Hm].
Qed.

Lemma qfind3_returns_a_match_witness :
  valid (view_at 16 "xABC") /\ valid (view_at 4096 "abc")
  /\ contents (two_strings "xABC" "abc") (view_at 16 "xABC")
     = Some (chars "xABC")
  /\ contents (two_strings "xABC" "abc") (view_at 4096 "abc")
     = Some (chars "abc")
  /\ qfind3 (two_strings "xABC" "abc") (view_at 16 "xABC")
       (view_at 4096 "abc") asciiCaseInsensitive = Ret 1
  /\ 1 <> npos
  /\ exists k,
       1 = Z.of_nat k
       /\ matches_at asciiCaseInsensitive (chars "xABC") (chars "abc") k.
Proof.
  assert (V1 : valid (view_at 16 "xABC"))
    by (unfold valid, view_at; cbn; lia).
  assert (V2 : valid (view_at 4096 "abc"))
    by (unfold valid, view_at; cbn; lia).
  assert (C1 : contents (two_strings "xABC" "abc") (view_at 16 "xABC")
               = Some (chars "xABC")) by (vm_compute; reflexivity).
  assert (C2 : contents (two_strings "xABC" "abc") (view_at 4096 "abc")
               = Some (chars "abc")) by (vm_compute; reflexivity).
  assert (R : qfind3 (two_strings "xABC" "abc") (view_at 16 "xABC")
                (view_at 4096 "abc") asciiCaseInsensitive = Ret 1)
    by (vm_compute; reflexivity).
  assert (N : 1 <> npos) by (vm_compute; discriminate).
  split; [exact V1 |]. split; [exact V2 |]. split; [exact C1 |].
  split; [exact C2 |]. split; [exact R |]. split; [exact N |].
  exact (qfind3_returns_a_match char (two_strings "xABC" "abc")
           (view_at 16 "xABC") (view_at 4096 "abc") asciiCaseInsensitive
           (chars "xABC") (chars "abc") 1 V1 V2 C1 C2 R N).
Defined.

Lemma asciiCaseInsensitive_euclidean : euclidean asciiCaseInsensitive.
Proof.
  intros a b c Hab Hac.
  unfold asciiCaseInsensitive, AsciiCaseInsensitive in *.
  apply Z.eqb_eq in Hab, Hac. apply Z.eqb_eq. congruence.
Qed.

(** X11. Under every comparator that never accepts one element against two
    it tells apart (every equivalence, among them the case-insensitive
    comparator), [qfind] on live views returns the smallest offset at which
    the needle matches the haystack under the comparator, and [npos] when
    there is no such offset. *)
Theorem qfind3_leftmost_match (T : Type) (m : memory T)
    (haystack needle : Range) (eq : T -> T -> bool) (h n : list T) :
  euclidean eq ->
  valid haystack -> valid needle ->
  contents m haystack = Some h -> contents m needle = Some n ->
  exists r,
    qfind3 m haystack needle eq = Ret r
    /\ ((r = npos /\ forall k, ~ matches_at eq h n k)
        \/ (exists k,
              r = Z.of_nat k /\ r <> npos /\ matches_at eq h n k
              /\ forall k', matches_at eq h n k' -> (k <= k')%nat)).
Proof.
  intros He Hvh Hvn Hh Hn.
  destruct (qfind3_correct T m haystack needle eq h n Hvh Hvn Hh Hn)
    as (r & Hr & Hcases).
  exists r. split; [exact Hr |].
  destruct Hcases as [(-> & Hno) | (k & -> & Hne & Hm & Hmin)].
  - left. split; [reflexivity | exact (Hno He)].
  - right. exists k. split; [reflexivity |]. split; [exact Hne |].
    split; [exact Hm | exact (Hmin He)].
Qed.

Lemma qfind3_leftmost_match_witness :
  euclidean asciiCaseInsensitive
  /\ valid (view_at 16 "xABC") /\ valid (view_at 4096 "abc")
  /\ contents (two_strings "xABC" "abc") (view_at 16 "xABC")
     = Some (chars "xABC")
  /\ contents (two_strings "xABC" "abc") (view_at 4096 "abc")
     = Some (chars "abc")
  /\ exists r,
       qfind3 (two_strings "xABC" "abc") (view_at 16 "xABC")
         (view_at 4096 "abc") asciiCaseInsensitive = Ret r
       /\ ((r = npos
            /\ forall k,
                 ~ matches_at asciiCaseInsensitive (chars "xABC")
                     (chars "abc") k)
           \/ (exists k,
                 r = Z.of_nat k /\ r <> npos
                 /\ matches_at asciiCaseInsensitive (chars "xABC")
                      (chars "abc") k
                 /\ forall k',
                      matches_at asciiCaseInsensitive (chars "xABC")
                        (chars "abc") k' -> (k <= k')%nat)).
Proof.
  assert (V1 : valid (view_at 16 "xABC"))
    by (unfold valid, view_at; cbn; lia).
  assert (V2 : valid (view_at 4096 "abc"))
    by (unfold valid, view_at; cbn; lia).
  assert (C1 : contents (two_strings "xABC" "abc") (view_at 16 "xABC")
               = Some (chars "xABC")) by (vm_compute; reflexivity).
  assert (C2 : contents (two_strings "xABC" "abc") (view_at 4096 "abc")
               = Some (chars "abc")) by (vm_compute; reflexivity).
  split; [exact asciiCaseInsensitive_euclidean |].
  split; [exact V1 |]. split; [exact V2 |]. split; [exact C1 |].
  split; [exact C2 |].
  exact (qfind3_leftmost_match char (two_strings "xABC" "abc")
           (view_at 16 "xABC") (view_at 4096 "abc") asciiCaseInsensitive
           (chars "xABC") (chars "abc") asciiCaseInsensitive_euclidean
           V1 V2 C1 C2).
Defined.

(** ** Search for one element *)

Lemma occurs_at_singleton (T : Type) (h : list T) (c : T) (k : nat) :
  occurs_at h [c] k <-> nth_error h k = Some c.
Proof.
  rewrite occurs_at_nth. simpl. split.
  - intros (_ & Hn). specialize (Hn 0%nat ltac:(lia)).
    rewrite Nat.add_0_r in Hn. exact Hn.
  - intros Hk. split.
    + assert (k < length h)%nat
        by (apply nth_error_Some; rewrite Hk; discriminate). lia.
    + intros j Hj. assert (j = 0%nat) by lia. subst j.
      rewrite Nat.add_0_r. exact Hk.
Qed.

(** What a search for the element [c] in [h] has to return. *)
Lemma first_index_or_npos (res : outcome Z) (h : list char) (c : char) :
  finds_leftmost res h [c] ->
  (forall k,
     nth_error h k = Some c ->
     (forall k', nth_error h k' = Some c -> (k <= k')%nat) ->
     res = Ret (Z.of_nat k))
  /\ (res = Ret npos <-> ~ In c h).
Proof.
  intros (Hmin & _ & Hnone). split.
  - intros k Hk Hkmin. apply Hmin.
    + apply occurs_at_singleton. exact Hk.
    + intros k' Hk'. apply Hkmin. apply occurs_at_singleton. exact Hk'.
  - rewrite Hnone. split.
    + intros Hno Hin. apply In_nth_error in Hin. destruct Hin as (k & Hk).
      apply (Hno k). apply occurs_at_singleton. exact Hk.
    + intros Hnot k Hk. apply Hnot. apply occurs_at_singleton in Hk.
      apply (nth_error_In h k Hk).
Qed.

Lemma qfind_elem_leftmost (m : memory char) (haystack : StringPiece)
    (needle : Z) (h : list char) (c : char) :
  valid haystack -> contents m haystack = Some h ->
  0 <= needle -> needle + 1 < 2 ^ 64 -> m needle = Some c ->
  finds_leftmost (qfind_elem m haystack needle) h [c].
Proof.
  intros Hv Hh Hn0 Hn1 Hm.
  unfold qfind_elem, makeRange, Range_of_iters, reachable.
  assert (E : (needle <=? needle + 1) = true) by (apply Z.leb_le; lia).
  rewrite E. cbn [bind check].
  apply leftmost_or_npos. apply qfind_correct; try assumption.
  - unfold valid. simpl. lia.
  - unfold contents. simpl.
    replace (needle + 1 - needle) with 1 by lia. simpl. rewrite Hm.
    reflexivity.
Qed.

(** X12. On a live haystack, the search for the element found at address
    [needle] returns the smallest index at which the haystack holds that
    element, and [npos] exactly when the haystack does not hold it. *)
Theorem qfind_elem_first_index (m : memory char) (haystack : StringPiece)
    (needle : Z) (h : list char) (c : char) :
  valid haystack -> contents m haystack = Some h ->
  0 <= needle -> needle + 1 < 2 ^ 64 -> m needle = Some c ->
  (forall k,
     nth_error h k = Some c ->
     (forall k', nth_error h k' = Some c -> (k <= k')%nat) ->
     qfind_elem m haystack needle = Ret (Z.of_nat k))
  /\ (qfind_elem m haystack needle = Ret npos <-> ~ In c h).
Proof.
  intros Hv Hh Hn0 Hn1 Hm. apply first_index_or_npos.
  apply qfind_elem_leftmost; assumption.
Qed.

Lemma qfind_elem_first_index_witness :
  valid (view_at 16 "hello")
  /\ contents (two_strings "hello" "z") (view_at 16 "hello")
     = Some (chars "hello")
  /\ 0 <= 4096 /\ 4096 + 1 < 2 ^ 64
  /\ two_strings "hello" "z" 4096 = Some 122
  /\ (qfind_elem (two_strings "hello" "z") (view_at 16 "hello") 4096
      = Ret npos <-> ~ In 122 (chars "hello")).
Proof.
  assert (V : valid (view_at 16 "hello"))
    by (unfold valid, view_at; cbn; lia).
  assert (C : contents (two_strings "hello" "z") (view_at 16 "hello")
              = Some (chars "hello")) by (vm_compute; reflexivity).
  assert (M : two_strings "hello" "z" 4096 = Some 122)
    by (vm_compute; reflexivity).
  split; [exact V |]. split; [exact C |]. split; [lia |]. split; [lia |].
  split; [exact M |].
  exact (proj2 (qfind_elem_first_index (two_strings "hello" "z")
                  (view_at 16 "hello") 4096 (chars "hello") 122 V C
                  ltac:(lia) ltac:(lia) M)).
Defined.

(** ** The overloads of find *)

Lemma subpiece_zero (this : Range) :
  valid this -> subpiece this 0 npos = Ret this.
Proof.
  intros Hv.
  assert (Hb : 0 <= e_ this - b_ this < 2 ^ 63)
    by (destruct Hv as (? & ? & ? & ?); lia).
  rewrite (subpiece_ret this 0 npos Hv) by (rewrite ?npos_value; lia).
  rewrite npos_value. rewrite Z.min_r by lia.
  destruct this as [b e]. simpl. f_equal. f_equal; lia.
Qed.

(** [find(str, pos)] for [pos] within the view: the first occurrence from
    [pos] on, or [npos]. *)
Lemma find_from_correct (m : memory char) (this str : StringPiece) (pos : Z)
    (h n : list char) :
  valid this -> valid str ->
  contents m this = Some h -> contents m str = Some n ->
  0 <= pos <= e_ this - b_ this ->
  exists r,
    find_from m this str pos = Ret r
    /\ ((r = npos /\ forall k, (Z.to_nat pos <= k)%nat -> ~ occurs_at h n k)
        \/ (exists k,
              r = Z.of_nat k /\ r <> npos
              /\ (Z.to_nat pos <= k)%nat /\ occurs_at h n k
              /\ forall k', (Z.to_nat pos <= k')%nat ->
                            occurs_at h n k' -> (k <= k')%nat)).
Proof.
  intros Hv Hvs Hh Hn Hpos.
  assert (Lh := contents_length char m this h Hv Hh).
  assert (Hb : 0 <= e_ this - b_ this < 2 ^ 63)
    by (destruct Hv as (? & ? & ? & ?); lia).
  unfold find_from. rewrite (size_valid this Hv). cbn [bind].
  assert (E : (pos >? e_ this - b_ this) = false)
    by (rewrite Z.gtb_ltb; apply Z.ltb_ge; lia).
  rewrite E.
  rewrite (subpiece_ret this pos npos Hv) by (rewrite ?npos_value; lia).
  assert (Hend : Z.min npos (e_ this - b_ this - pos)
                = e_ this - b_ this - pos) by (rewrite npos_value; lia).
  rewrite Hend. cbn [bind].
  set (sub := mkRange (b_ this + pos)
                (b_ this + pos + (e_ this - b_ this - pos))).
  assert (Hvsub : valid sub)
    by (apply (valid_between this); try assumption; lia).
  assert (Hsub : contents m sub = Some (skipn (Z.to_nat pos) h)).
  { unfold sub. rewrite (contents_between char m this h _ _ Hv Hh) by lia.
    replace (b_ this + pos - b_ this) with pos by lia.
    rewrite firstn_all2 by (rewrite length_skipn; lia). reflexivity. }
  destruct (qfind_correct m sub str (skipn (Z.to_nat pos) h) n
              Hvsub Hvs Hsub Hn) as (r & Hr & Hcases).
  rewrite Hr. cbn [bind].
  assert (Hshift := fun k =>
    occurs_at_skipn char h n (Z.to_nat pos) k ltac:(lia)).
  destruct Hcases as [(-> & Hno) | (k & -> & Hne & Hocc & Hmin)].
  - exists npos. rewrite Z.eqb_refl. split; [reflexivity |]. left.
    split; [reflexivity |]. intros k Hk Hocc.
    apply (Hno (k - Z.to_nat pos)%nat). apply Hshift.
    replace (Z.to_nat pos + (k - Z.to_nat pos))%nat with k by lia.
    exact Hocc.
  - apply Z.eqb_neq in Hne as Hne'. rewrite Hne'.
    assert (Hf : (Z.to_nat pos + k + length n <= length h)%nat).
    { apply Hshift in Hocc. apply occurs_at_nth in Hocc. lia. }
    assert (Hw : wrap64 (Z.of_nat k + pos) = Z.of_nat (Z.to_nat pos + k))
      by (rewrite wrap64_small; lia).
    rewrite Hw. exists (Z.of_nat (Z.to_nat pos + k)).
    split; [reflexivity |]. right. exists (Z.to_nat pos + k)%nat.
    split; [reflexivity |]. split; [rewrite npos_value; lia |].
    split; [lia |]. split; [apply Hshift; exact Hocc |].
    intros k' Hk' Hocc'.
    assert (Hm := Hmin (k' - Z.to_nat pos)%nat).
    assert (k <= k' - Z.to_nat pos)%nat; [| lia].
    apply Hm. apply Hshift.
    replace (Z.to_nat pos + (k' - Z.to_nat pos))%nat with k' by lia.
    exact Hocc'.
Qed.

(** X13. Searching from offset 0 is searching: on live views
    [find(str, 0)] returns what [find(str)] returns. *)
Theorem find_from_zero (m : memory char) (this str : StringPiece)
    (h n : list char) :
  valid this -> valid str ->
  contents m this = Some h -> contents m str = Some n ->
  find_from m this str 0 = find m this str.
Proof.
  intros Hv Hvs Hh Hn.
  assert (Hb : 0 <= e_ this - b_ this)
    by (destruct Hv as (? & ? & ? & ?); lia).
  unfold find_from, find. rewrite (size_valid this Hv). cbn [bind].
  assert (E : (0 >? e_ this - b_ this) = false)
    by (rewrite Z.gtb_ltb; apply Z.ltb_ge; lia).
  rewrite E. rewrite (subpiece_zero this Hv). cbn [bind].
  destruct (qfind_correct m this str h n Hv Hvs Hh Hn) as (r & Hr & Hcases).
  rewrite Hr. cbn [bind]. f_equal.
  destruct Hcases as [(-> & _) | (k & -> & Hne & _)].
  - rewrite Z.eqb_refl. reflexivity.
  - apply Z.eqb_neq in Hne as Hne'. rewrite Hne'.
    rewrite npos_value in Hne. rewrite Z.add_0_r.
    destruct (Z_lt_le_dec (Z.of_nat k) (2 ^ 64)) as [Lt | Ge].
    + apply wrap64_small. lia.
    + exfalso.
      assert (Hr' := Hr). unfold qfind in Hr'.
      destruct (qfind3_correct char m this str asciiCaseSensitive h n
                  Hv Hvs Hh Hn) as (r' & Hr2 & Hc2).
      rewrite Hr' in Hr2. injection Hr2 as <-.
      assert (Lh := contents_length char m this h Hv Hh).
      destruct Hv as (? & ? & ? & ?).
      destruct Hc2 as [(Hc2 & _) | (k2 & Hk2 & _ & (Hfit & _) & _)];
        [rewrite npos_value in Hc2; lia | lia].
Qed.

Lemma find_from_zero_witness :
  valid (view_at 16 "abcabc") /\ valid (view_at 4096 "bc")
  /\ contents (two_strings "abcabc" "bc") (view_at 16 "abcabc")
     = Some (chars "abcabc")
  /\ contents (two_strings "abcabc" "bc") (view_at 4096 "bc")
     = Some (chars "bc")
  /\ find_from (two_strings "abcabc" "bc") (view_at 16 "abcabc")
       (view_at 4096 "bc") 0
     = find (two_strings "abcabc" "bc") (view_at 16 "abcabc")
         (view_at 4096 "bc").
Proof.
  assert (V1 : valid (view_at 16 "abcabc"))
    by (unfold valid, view_at; cbn; lia).
  assert (V2 : valid (view_at 4096 "bc"))
    by (unfold valid, view_at; cbn; lia).
  assert (C1 : contents (two_strings "abcabc" "bc") (view_at 16 "abcabc")
               = Some (chars "abcabc")) by (vm_compute; reflexivity).
  assert (C2 : contents (two_strings "abcabc" "bc") (view_at 4096 "bc")
               = Some (chars "bc")) by (vm_compute; reflexivity).
  split; [exact V1 |]. split; [exact V2 |]. split; [exact C1 |].
  split; [exact C2 |].
  exact (find_from_zero (two_strings "abcabc" "bc") (view_at 16 "abcabc")
           (view_at 4096 "bc") (chars "abcabc") (chars "bc") V1 V2 C1 C2).
Defined.

(** X14. [find(s, pos, n)] is [find(Range(s, n), pos)]: the shortcut it
    takes for [pos == 0], searching the view itself instead of
    [subpiece(0)], changes nothing. *)
Theorem find_ptr_n_is_find_from (m : memory char) (this : StringPiece)
    (s pos n : Z) :
  valid this ->
  find_ptr_n m this s pos n = find_from m this (Range_of_size s n) pos.
Proof.
  intros Hv. unfold find_ptr_n, find_from.
  destruct (pos =? 0) eqn:E; [| reflexivity].
  apply Z.eqb_eq in E. subst pos.
  rewrite (subpiece_zero this Hv). reflexivity.
Qed.

Lemma find_ptr_n_is_find_from_witness :
  valid (view_at 16 "abcabc")
  /\ find_ptr_n (two_strings "abcabc" "bc") (view_at 16 "abcabc") 4096 0 2
     = find_from (two_strings "abcabc" "bc") (view_at 16 "abcabc")
         (Range_of_size 4096 2) 0.
Proof.
  assert (V : valid (view_at 16 "abcabc"))
    by (unfold valid, view_at; cbn; lia).
  split; [exact V |].
  exact (find_ptr_n_is_find_from (two_strings "abcabc" "bc")
           (view_at 16 "abcabc") 4096 0 2 V).
Defined.

Lemma read_seq_ext (T : Type) (m m' : memory T) (n : nat) :
  forall p,
    (forall q, p <= q < p + Z.of_nat n -> m' q = m q) ->
    read_seq m' p n = read_seq m p n.
Proof.
  induction n as [| n IH]; intros p Hq; [reflexivity |].
  simpl. rewrite (Hq p) by lia. rewrite (IH (p + 1)); [reflexivity |].
  intros q Hq'. apply Hq. lia.
Qed.

(** An object placed outside a view leaves what the view shows. *)
Lemma contents_place_outside (T : Type) (m : memory T) (r : Range)
    (arg : Z) (c : T) :
  valid r -> arg < b_ r \/ e_ r <= arg ->
  contents (place arg [c] m) r = contents m r.
Proof.
  intros Hv Hout. unfold contents. apply read_seq_ext.
  intros q Hq. unfold place. simpl length.
  destruct Hv as (? & ? & ? & ?).
  destruct ((arg <=? q) && (q <? arg + Z.of_nat 1)) eqn:E; [| reflexivity].
  apply andb_true_iff in E. destruct E as (E1 & E2).
  apply Z.leb_le in E1. apply Z.ltb_lt in E2. lia.
Qed.

Lemma place_at (T : Type) (m : memory T) (arg : Z) (c : T) :
  place arg [c] m arg = Some c.
Proof.
  unfold place. simpl length.
  assert (E : ((arg <=? arg) && (arg <? arg + Z.of_nat 1)) = true).
  { apply andb_true_iff. split; [apply Z.leb_le | apply Z.ltb_lt]; lia. }
  rewrite E. rewrite Z.sub_diag. reflexivity.
Qed.

(** X15. [find(c)] on a live view, the parameter [c] being an object
    outside the view: the smallest index at which the view holds [c], and
    [npos] exactly when the view does not hold [c]. *)
Theorem find_char_first_index (m : memory char) (this : StringPiece)
    (c : char) (arg : Z) (h : list char) :
  valid this -> contents m this = Some h ->
  0 <= arg -> arg + 1 < 2 ^ 64 -> arg < b_ this \/ e_ this <= arg ->
  (forall k,
     nth_error h k = Some c ->
     (forall k', nth_error h k' = Some c -> (k <= k')%nat) ->
     find_char m this c arg = Ret (Z.of_nat k))
  /\ (find_char m this c arg = Ret npos <-> ~ In c h).
Proof.
  intros Hv Hh Ha0 Ha1 Hout. unfold find_char.
  apply first_index_or_npos. apply qfind_elem_leftmost; try assumption.
  - rewrite contents_place_outside by assumption. exact Hh.
  - apply place_at.
Qed.

Lemma find_char_first_index_witness :
  valid (view_at 16 "hello")
  /\ contents (two_strings "hello" "") (view_at 16 "hello")
     = Some (chars "hello")
  /\ 0 <= 8 /\ 8 + 1 < 2 ^ 64
  /\ (8 < b_ (view_at 16 "hello") \/ e_ (view_at 16 "hello") <= 8)
  /\ (find_char (two_strings "hello" "") (view_at 16 "hello") 108 8
      = Ret npos <-> ~ In 108 (chars "hello")).
Proof.
  assert (V : valid (view_at 16 "hello"))
    by (unfold valid, view_at; cbn; lia).
  assert (C : contents (two_strings "hello" "") (view_at 16 "hello")
              = Some (chars "hello")) by (vm_compute; reflexivity).
  assert (O : 8 < b_ (view_at 16 "hello") \/ e_ (view_at 16 "hello") <= 8)
    by (left; cbn; lia).
  split; [exact V |]. split; [exact C |]. split; [lia |]. split; [lia |].
  split; [exact O |].
  exact (proj2 (find_char_first_index (two_strings "hello" "")
                  (view_at 16 "hello") 108 8 (chars "hello") V C
                  ltac:(lia) ltac:(lia) O)).
Defined.

Example find_char_hello :
  find_char (two_strings "hello" "") (view_at 16 "hello") 108 8 = Ret 2.
Proof. vm_compute. reflexivity. Qed.

Lemma find_char_from_unfold (m : memory char) (this : StringPiece)
    (c : char) (pos arg : Z) :
  find_char_from m this c pos arg
  = find_from (place arg [c] m) this (mkRange arg (arg + 1)) pos.
Proof.
  unfold find_char_from, find_from, qfind_elem, makeRange, Range_of_iters,
    reachable.
  assert (E : (arg <=? arg + 1) = true) by (apply Z.leb_le; lia).
  rewrite E. reflexivity.
Qed.

(** X16. [find(c, pos)] on a live view, the parameter [c] being an object
    outside the view: [npos] when [pos] exceeds the size; otherwise the
    smallest index from [pos] on at which the view holds [c], and [npos]
    exactly when it holds [c] at no index from [pos] on. *)
Theorem find_char_from_first_index (m : memory char) (this : StringPiece)
    (c : char) (pos arg : Z) (h : list char) :
  valid this -> contents m this = Some h ->
  0 <= arg -> arg + 1 < 2 ^ 64 -> arg < b_ this \/ e_ this <= arg ->
  0 <= pos < 2 ^ 64 ->
  (e_ this - b_ this < pos -> find_char_from m this c pos arg = Ret npos)
  /\ (pos <= e_ this - b_ this ->
      (forall k,
         (Z.to_nat pos <= k)%nat -> nth_error h k = Some c ->
         (forall k', (Z.to_nat pos <= k')%nat -> nth_error h k' = Some c ->
                     (k <= k')%nat) ->
         find_char_from m this c pos arg = Ret (Z.of_nat k))
      /\ (find_char_from m this c pos arg = Ret npos <->
          forall k, (Z.to_nat pos <= k)%nat -> nth_error h k <> Some c)).
Proof.
  intros Hv Hh Ha0 Ha1 Hout Hpos. split.
  - intros Hgt. unfold find_char_from. rewrite (size_valid this Hv).
    cbn [bind].
    assert (E : (pos >? e_ this - b_ this) = true) by (apply Z.gtb_lt; lia).
    rewrite E. reflexivity.
  - intros Hle. rewrite find_char_from_unfold.
    assert (Hva : valid (mkRange arg (arg + 1)))
      by (unfold valid; simpl; lia).
    assert (Hca : contents (place arg [c] m) (mkRange arg (arg + 1))
                  = Some [c]).
    { unfold contents. simpl.
      replace (arg + 1 - arg) with 1 by lia. simpl.
      rewrite place_at. reflexivity. }
    assert (Hh' : contents (place arg [c] m) this = Some h)
      by (rewrite contents_place_outside by assumption; exact Hh).
    destruct (find_from_correct (place arg [c] m) this
                (mkRange arg (arg + 1)) pos h [c] Hv Hva Hh' Hca
                ltac:(lia)) as (r & Hr & Hcases).
    rewrite Hr.
    destruct Hcases as [(-> & Hno) | (k0 & -> & Hne & Hge & Hocc & Hmin)].
    + split.
      * intros k Hk Hc _. exfalso. apply (Hno k Hk).
        apply occurs_at_singleton. exact Hc.
      * split; [| reflexivity]. intros _ k Hk Hc. apply (Hno k Hk).
        apply occurs_at_singleton. exact Hc.
    + apply occurs_at_singleton in Hocc. split.
      * intros k Hk Hc Hkmin.
        assert (k = k0).
        { apply Nat.le_antisymm; [apply Hkmin; assumption |].
          apply Hmin; [exact Hk | apply occurs_at_singleton; exact Hc]. }
        subst k. reflexivity.
      * split.
        -- intros E. injection E as E. contradiction.
        -- intros Hno. exfalso. exact (Hno k0 Hge Hocc).
Qed.

Lemma find_char_from_first_index_witness :
  valid (view_at 16 "hello")
  /\ contents (two_strings "hello" "") (view_at 16 "hello")
     = Some (chars "hello")
  /\ 0 <= 8 /\ 8 + 1 < 2 ^ 64
  /\ (8 < b_ (view_at 16 "hello") \/ e_ (view_at 16 "hello") <= 8)
  /\ 0 <= 6 < 2 ^ 64
  /\ e_ (view_at 16 "hello") - b_ (view_at 16 "hello") < 6
  /\ find_char_from (two_strings "hello" "") (view_at 16 "hello") 108 6 8
     = Ret npos.
Proof.
  assert (V : valid (view_at 16 "hello"))
    by (unfold valid, view_at; cbn; lia).
  assert (C : contents (two_strings "hello" "") (view_at 16 "hello")
              = Some (chars "hello")) by (vm_compute; reflexivity).
  assert (O : 8 < b_ (view_at 16 "hello") \/ e_ (view_at 16 "hello") <= 8)
    by (left; cbn; lia).
  assert (P : 0 <= 6 < 2 ^ 64) by lia.
  assert (G : e_ (view_at 16 "hello") - b_ (view_at 16 "hello") < 6)
    by (cbn; lia).
  split; [exact V |]. split; [exact C |]. split; [lia |]. split; [lia |].
  split; [exact O |]. split; [exact P |]. split; [exact G |].
  exact (proj1 (find_char_from_first_index (two_strings "hello" "")
                  (view_at 16 "hello") 108 6 8 (chars "hello") V C
                  ltac:(lia) ltac:(lia) O P) G).
Defined.

Example find_char_from_hello :
  find_char_from (two_strings "hello" "") (view_at 16 "hello") 108 3 8
  = Ret 3.
Proof. vm_compute. reflexivity. Qed.

(** ** Equality and order of character views *)

Lemma lexicographic_refl (l : list char) : lexicographic l l = 0.
Proof.
  induction l as [| x l IH]; [reflexivity |]. simpl.
  rewrite Z.ltb_irrefl. exact IH.
Qed.

Lemma lexicographic_antisym (la : list char) :
  forall lb, lexicographic lb la = - lexicographic la lb.
Proof.
  induction la as [| x la IH]; intros [| y lb]; try reflexivity.
  simpl.
  destruct (x <? y) eqn:E1;
    destruct (y <? x) eqn:E2; try reflexivity.
  - apply Z.ltb_lt in E1, E2. lia.
  - apply IH.
Qed.

Lemma lexicographic_trans (la : list char) :
  forall lb lc,
    lexicographic la lb = -1 -> lexicographic lb lc = -1 ->
    lexicographic la lc = -1.
Proof.
  induction la as [| x la IH]; intros [| y lb] [| z lc]; simpl;
    try discriminate; try reflexivity.
  destruct (x <? y) eqn:E1;
    destruct (y <? x) eqn:E2;
    destruct (y <? z) eqn:E3;
    destruct (z <? y) eqn:E4;
    destruct (x <? z) eqn:E5;
    destruct (z <? x) eqn:E6;
    try discriminate; try reflexivity;
    try (apply Z.ltb_lt in E1); try (apply Z.ltb_ge in E1);
    try (apply Z.ltb_lt in E2); try (apply Z.ltb_ge in E2);
    try (apply Z.ltb_lt in E3); try (apply Z.ltb_ge in E3);
    try (apply Z.ltb_lt in E4); try (apply Z.ltb_ge in E4);
    try (apply Z.ltb_lt in E5); try (apply Z.ltb_ge in E5);
    try (apply Z.ltb_lt in E6); try (apply Z.ltb_ge in E6);
    try lia.
  apply IH.
Qed.

(** Two views that show one sequence are equal. *)
Lemma op_eq_same (m : memory char) (a b : StringPiece) (l : list char) :
  valid a -> valid b ->
  contents m a = Some l -> contents m b = Some l ->
  op_eq m a b = Ret true.
Proof.
  intros Hva Hvb Ha Hb.
  assert (La := contents_length char m a l Hva Ha).
  assert (Lb := contents_length char m b l Hvb Hb).
  unfold op_eq. rewrite (size_valid a Hva), (size_valid b Hvb). cbn [bind].
  assert (E : (e_ a - b_ a =? e_ b - b_ b) = true) by (apply Z.eqb_eq; lia).
  rewrite E.
  destruct (compare_small_difference m a b l l Hva Hvb Ha Hb ltac:(lia))
    as (r & Hr & Hs & _).
  rewrite Hr. cbn [bind]. rewrite lexicographic_refl in Hs.
  apply (proj1 (Z.sgn_null_iff r)) in Hs. subst r. reflexivity.
Qed.

Lemma op_eq_iff (m : memory char) (a b : StringPiece) (la lb : list char) :
  valid a -> valid b ->
  contents m a = Some la -> contents m b = Some lb ->
  Forall is_char la -> Forall is_char lb ->
  exists r, op_eq m a b = Ret r /\ (r = true <-> la = lb).
Proof.
  intros Hva Hvb Ha Hb Ca Cb.
  assert (La := contents_length char m a la Hva Ha).
  assert (Lb := contents_length char m b lb Hvb Hb).
  unfold op_eq. rewrite (size_valid a Hva), (size_valid b Hvb). cbn [bind].
  destruct (e_ a - b_ a =? e_ b - b_ b) eqn:E.
  - apply Z.eqb_eq in E.
    destruct (compare_small_difference m a b la lb Hva Hvb Ha Hb
                ltac:(lia)) as (r & Hr & _ & Hz).
    rewrite Hr. cbn [bind]. eexists. split; [reflexivity |].
    rewrite Z.eqb_eq. apply Hz; assumption.
  - apply Z.eqb_neq in E. exists false. split; [reflexivity |].
    split; [discriminate |]. intros ->. lia.
Qed.

(** X17. [operator==] on live character views returns, the same for
    [a == b] and [b == a], and it returns true exactly when the two views
    show the same sequence, whatever their sizes: it tests the sizes itself
    before it asks [compare]. *)
Theorem op_eq_exact (m : memory char) (a b : StringPiece)
    (la lb : list char) :
  valid a -> valid b ->
  contents m a = Some la -> contents m b = Some lb ->
  Forall is_char la -> Forall is_char lb ->
  exists r,
    op_eq m a b = Ret r /\ op_eq m b a = Ret r /\ (r = true <-> la = lb).
Proof.
  intros Hva Hvb Ha Hb Ca Cb.
  destruct (op_eq_iff m a b la lb Hva Hvb Ha Hb Ca Cb) as (r & Hr & Ir).
  destruct (op_eq_iff m b a lb la Hvb Hva Hb Ha Cb Ca) as (r' & Hr' & Ir').
  exists r. split; [exact Hr |]. split; [| exact Ir].
  rewrite Hr'. f_equal.
  destruct r, r'; try reflexivity.
  - assert (la = lb) by (apply Ir; reflexivity).
    apply (proj2 Ir'). congruence.
  - assert (lb = la) by (apply Ir'; reflexivity).
    symmetry. apply (proj2 Ir). congruence.
Qed.

Lemma op_eq_exact_witness :
  valid (view_at 16 "abc") /\ valid (view_at 4096 "abc")
  /\ contents (two_strings "abc" "abc") (view_at 16 "abc")
     = Some (chars "abc")
  /\ contents (two_strings "abc" "abc") (view_at 4096 "abc")
     = Some (chars "abc")
  /\ Forall is_char (chars "abc")
  /\ exists r,
       op_eq (two_strings "abc" "abc") (view_at 16 "abc")
         (view_at 4096 "abc") = Ret r
       /\ op_eq (two_strings "abc" "abc") (view_at 4096 "abc")
            (view_at 16 "abc") = Ret r
       /\ (r = true <-> chars "abc" = chars "abc").
Proof.
  assert (V1 : valid (view_at 16 "abc")) by (unfold valid, view_at; cbn; lia).
  assert (V2 : valid (view_at 4096 "abc"))
    by (unfold valid, view_at; cbn; lia).
  assert (C1 : contents (two_strings "abc" "abc") (view_at 16 "abc")
               = Some (chars "abc")) by (vm_compute; reflexivity).
  assert (C2 : contents (two_strings "abc" "abc") (view_at 4096 "abc")
               = Some (chars "abc")) by (vm_compute; reflexivity).
  assert (F : Forall is_char (chars "abc"))
    by (repeat constructor; unfold is_char; simpl; lia).
  split; [exact V1 |]. split; [exact V2 |]. split; [exact C1 |].
  split; [exact C2 |]. split; [exact F |].
  exact (op_eq_exact (two_strings "abc" "abc") (view_at 16 "abc")
           (view_at 4096 "abc") (chars "abc") (chars "abc")
           V1 V2 C1 C2 F F).
Defined.

Lemma op_lt_lexicographic (m : memory char) (a b : StringPiece)
    (la lb : list char) :
  valid a -> valid b ->
  contents m a = Some la -> contents m b = Some lb ->
  - 2 ^ 31 <= Z.of_nat (length la) - Z.of_nat (length lb) < 2 ^ 31 ->
  exists r, op_lt m a b = Ret r /\ (r = true <-> lexicographic la lb = -1).
Proof.
  intros Hva Hvb Ha Hb Hd.
  destruct (compare_small_difference m a b la lb Hva Hvb Ha Hb Hd)
    as (r & Hr & Hs & _).
  unfold op_lt. rewrite Hr. cbn [bind]. eexists. split; [reflexivity |].
  rewrite Z.ltb_lt. rewrite <- Hs. split.
  - intros Hlt. apply Z.sgn_neg. exact Hlt.
  - intros Hsgn. apply Z.sgn_neg_iff. exact Hsgn.
Qed.

(** X18. On live character views of fewer than 2^31 characters,
    [operator<] with [operator==] is a strict total order: of [a < b],
    [a == b] and [b < a] exactly one is true, and [a < b] with [b < c]
    gives [a < c]. *)
Theorem op_lt_strict_total_order (m : memory char) (a b c : StringPiece)
    (la lb lc : list char) :
  valid a -> valid b -> valid c ->
  contents m a = Some la -> contents m b = Some lb ->
  contents m c = Some lc ->
  Forall is_char la -> Forall is_char lb ->
  Z.of_nat (length la) < 2 ^ 31 -> Z.of_nat (length lb) < 2 ^ 31 ->
  Z.of_nat (length lc) < 2 ^ 31 ->
  (exists lt_ab eq_ab lt_ba,
      op_lt m a b = Ret lt_ab /\ op_eq m a b = Ret eq_ab
      /\ op_lt m b a = Ret lt_ba
      /\ ((lt_ab = true /\ eq_ab = false /\ lt_ba = false)
          \/ (lt_ab = false /\ eq_ab = true /\ lt_ba = false)
          \/ (lt_ab = false /\ eq_ab = false /\ lt_ba = true)))
  /\ (op_lt m a b = Ret true -> op_lt m b c = Ret true ->
      op_lt m a c = Ret true).
Proof.
  intros Hva Hvb Hvc Ha Hb Hc Ca Cb Sa Sb Sc.
  destruct (op_lt_lexicographic m a b la lb Hva Hvb Ha Hb ltac:(lia))
    as (lt_ab & Hab & Iab).
  destruct (op_lt_lexicographic m b a lb la Hvb Hva Hb Ha ltac:(lia))
    as (lt_ba & Hba & Iba).
  destruct (op_lt_lexicographic m b c lb lc Hvb Hvc Hb Hc ltac:(lia))
    as (lt_bc & Hbc & Ibc).
  destruct (op_lt_lexicographic m a c la lc Hva Hvc Ha Hc ltac:(lia))
    as (lt_ac & Hac & Iac).
  destruct (op_eq_iff m a b la lb Hva Hvb Ha Hb Ca Cb)
    as (eq_ab & Heq & Ieq).
  rewrite (lexicographic_antisym la lb) in Iba.
  assert (Hr := lexicographic_range la lb).
  assert (Hz := lexicographic_zero la lb Ca Cb).
  split.
  - exists lt_ab, eq_ab, lt_ba.
    split; [exact Hab |]. split; [exact Heq |]. split; [exact Hba |].
    destruct (Z.eq_dec (lexicographic la lb) (-1)) as [Em | Nm];
      [| destruct (Z.eq_dec (lexicographic la lb) 0) as [E0 | N0]].
    + left. split; [apply Iab; exact Em |]. split.
      * destruct eq_ab; [| reflexivity]. exfalso.
        assert (la = lb) by (apply Ieq; reflexivity).
        assert (lexicographic la lb = 0) by (apply Hz; assumption). lia.
      * destruct lt_ba; [| reflexivity]. exfalso.
        assert (- lexicographic la lb = -1) by (apply Iba; reflexivity).
        lia.
    + right. left. split.
      * destruct lt_ab; [| reflexivity]. exfalso.
        assert (lexicographic la lb = -1) by (apply Iab; reflexivity). lia.
      * split; [apply Ieq; apply Hz; exact E0 |].
        destruct lt_ba; [| reflexivity]. exfalso.
        assert (- lexicographic la lb = -1) by (apply Iba; reflexivity).
        lia.
    + right. right. split.
      * destruct lt_ab; [| reflexivity]. exfalso.
        assert (lexicographic la lb = -1) by (apply Iab; reflexivity). lia.
      * split.
        -- destruct eq_ab; [| reflexivity]. exfalso.
           assert (la = lb) by (apply Ieq; reflexivity).
           apply N0. apply Hz. assumption.
        -- apply Iba. lia.
  - intros Tab Tbc. rewrite Hab in Tab. injection Tab as ->.
    rewrite Hbc in Tbc. injection Tbc as ->.
    rewrite Hac. f_equal. apply Iac.
    apply (lexicographic_trans la lb lc);
      [apply Iab; reflexivity | apply Ibc; reflexivity].
Qed.

Lemma op_lt_strict_total_order_witness :
  valid (view_at 16 "ab") /\ valid (view_at 4096 "abc")
  /\ contents (two_strings "ab" "abc") (view_at 16 "ab") = Some (chars "ab")
  /\ contents (two_strings "ab" "abc") (view_at 4096 "abc")
     = Some (chars "abc")
  /\ Forall is_char (chars "ab") /\ Forall is_char (chars "abc")
  /\ Z.of_nat (length (chars "ab")) < 2 ^ 31
  /\ Z.of_nat (length (chars "abc")) < 2 ^ 31
  /\ exists lt_ab eq_ab lt_ba,
       op_lt (two_strings "ab" "abc") (view_at 16 "ab") (view_at 4096 "abc")
       = Ret lt_ab
       /\ op_eq (two_strings "ab" "abc") (view_at 16 "ab")
            (view_at 4096 "abc") = Ret eq_ab
       /\ op_lt (two_strings "ab" "abc") (view_at 4096 "abc")
            (view_at 16 "ab") = Ret lt_ba
       /\ ((lt_ab = true /\ eq_ab = false /\ lt_ba = false)
           \/ (lt_ab = false /\ eq_ab = true /\ lt_ba = false)
           \/ (lt_ab = false /\ eq_ab = false /\ lt_ba = true)).
Proof.
  assert (V1 : valid (view_at 16 "ab")) by (unfold valid, view_at; cbn; lia).
  assert (V2 : valid (view_at 4096 "abc"))
    by (unfold valid, view_at; cbn; lia).
  assert (C1 : contents (two_strings "ab" "abc") (view_at 16 "ab")
               = Some (chars "ab")) by (vm_compute; reflexivity).
  assert (C2 : contents (two_strings "ab" "abc") (view_at 4096 "abc")
               = Some (chars "abc")) by (vm_compute; reflexivity).
  assert (F1 : Forall is_char (chars "ab"))
    by (repeat constructor; unfold is_char; simpl; lia).
  assert (F2 : Forall is_char (chars "abc"))
    by (repeat constructor; unfold is_char; simpl; lia).
  assert (S1 : Z.of_nat (length (chars "ab")) < 2 ^ 31) by (simpl; lia).
  assert (S2 : Z.of_nat (length (chars "abc")) < 2 ^ 31) by (simpl; lia).
  split; [exact V1 |]. split; [exact V2 |]. split; [exact C1 |].
  split; [exact C2 |]. split; [exact F1 |]. split; [exact F2 |].
  split; [exact S1 |]. split; [exact S2 |].
  exact (proj1 (op_lt_strict_total_order (two_strings "ab" "abc")
                  (view_at 16 "ab") (view_at 4096 "abc") (view_at 4096 "abc")
                  (chars "ab") (chars "abc") (chars "abc")
                  V1 V2 V2 C1 C2 C2 F1 F2 S1 S2 S2)).
Defined.

Example op_lt_ab_abc :
  op_lt (two_strings "ab" "abc") (view_at 16 "ab") (view_at 4096 "abc")
  = Ret true
  /\ op_lt (two_strings "ab" "abc") (view_at 4096 "abc") (view_at 16 "ab")
     = Ret false.
Proof. vm_compute. split; reflexivity. Qed.

Lemma compare_antisym_small (m : memory char) (a b : StringPiece)
    (la lb : list char) :
  valid a -> valid b ->
  contents m a = Some la -> contents m b = Some lb ->
  Z.of_nat (length la) < 2 ^ 31 -> Z.of_nat (length lb) < 2 ^ 31 ->
  exists r r',
    compare m a b = Ret r /\ compare m b a = Ret r'
    /\ Z.sgn r = lexicographic la lb /\ Z.sgn r' = - Z.sgn r.
Proof.
  intros Hva Hvb Ha Hb Sa Sb.
  destruct (compare_small_difference m a b la lb Hva Hvb Ha Hb ltac:(lia))
    as (r & Hr & Hs & _).
  destruct (compare_small_difference m b a lb la Hvb Hva Hb Ha ltac:(lia))
    as (r' & Hr' & Hs' & _).
  exists r, r'. split; [exact Hr |]. split; [exact Hr' |].
  split; [exact Hs |]. rewrite Hs, Hs'. apply lexicographic_antisym.
Qed.

(** X19. On live character views of fewer than 2^31 characters, [compare]
    is the three-way lexicographic comparison of the characters by their
    values ([char] is signed: -128 sorts before 97), a sequence sorting
    before its proper extensions: its sign is that of the comparison of the
    two sequences, [b.compare(a)] has the opposite sign of [a.compare(b)],
    and the result is 0 exactly for equal sequences. *)
Theorem compare_three_way (m : memory char) (a b : StringPiece)
    (la lb : list char) :
  valid a -> valid b ->
  contents m a = Some la -> contents m b = Some lb ->
  Forall is_char la -> Forall is_char lb ->
  Z.of_nat (length la) < 2 ^ 31 -> Z.of_nat (length lb) < 2 ^ 31 ->
  exists r r',
    compare m a b = Ret r /\ compare m b a = Ret r'
    /\ Z.sgn r = lexicographic la lb
    /\ Z.sgn r' = - Z.sgn r
    /\ (r = 0 <-> la = lb).
Proof.
  intros Hva Hvb Ha Hb Ca Cb Sa Sb.
  destruct (compare_antisym_small m a b la lb Hva Hvb Ha Hb Sa Sb)
    as (r & r' & Hr & Hr' & Hs & Hs').
  exists r, r'. split; [exact Hr |]. split; [exact Hr' |].
  split; [exact Hs |]. split; [exact Hs' |].
  rewrite <- (lexicographic_zero la lb Ca Cb), <- Hs.
  split; [intros ->; reflexivity | apply (proj1 (Z.sgn_null_iff r))].
Qed.

Lemma compare_three_way_witness :
  valid (mkRange 16 17) /\ valid (mkRange 4096 4097)
  /\ contents (place 16 [-128] (place 4096 [97] no_memory)) (mkRange 16 17)
     = Some [-128]
  /\ contents (place 16 [-128] (place 4096 [97] no_memory))
       (mkRange 4096 4097) = Some [97]
  /\ Forall is_char [-128] /\ Forall is_char [97]
  /\ Z.of_nat (length [-128]) < 2 ^ 31
  /\ Z.of_nat (length [97]) < 2 ^ 31
  /\ exists r r',
       compare (place 16 [-128] (place 4096 [97] no_memory))
         (mkRange 16 17) (mkRange 4096 4097) = Ret r
       /\ compare (place 16 [-128] (place 4096 [97] no_memory))
            (mkRange 4096 4097) (mkRange 16 17) = Ret r'
       /\ Z.sgn r = lexicographic [-128] [97]
       /\ Z.sgn r' = - Z.sgn r
       /\ (r = 0 <-> [-128] = [97]).
Proof.
  assert (V1 : valid (mkRange 16 17)) by (unfold valid; cbn; lia).
  assert (V2 : valid (mkRange 4096 4097)) by (unfold valid; cbn; lia).
  assert (C1 : contents (place 16 [-128] (place 4096 [97] no_memory))
                 (mkRange 16 17) = Some [-128]) by (vm_compute; reflexivity).
  assert (C2 : contents (place 16 [-128] (place 4096 [97] no_memory))
                 (mkRange 4096 4097) = Some [97])
    by (vm_compute; reflexivity).
  assert (F1 : Forall is_char [-128])
    by (repeat constructor; unfold is_char; lia).
  assert (F2 : Forall is_char [97])
    by (repeat constructor; unfold is_char; lia).
  assert (S1 : Z.of_nat (length [-128]) < 2 ^ 31) by (simpl; lia).
  assert (S2 : Z.of_nat (length [97]) < 2 ^ 31) by (simpl; lia).
  split; [exact V1 |]. split; [exact V2 |]. split; [exact C1 |].
  split; [exact C2 |]. split; [exact F1 |]. split; [exact F2 |].
  split; [exact S1 |]. split; [exact S2 |].
  exact (compare_three_way (place 16 [-128] (place 4096 [97] no_memory))
           (mkRange 16 17) (mkRange 4096 4097) [-128] [97]
           V1 V2 C1 C2 F1 F2 S1 S2).
Defined.

Example compare_signed_chars :
  compare (place 16 [-128] (place 4096 [97] no_memory))
    (mkRange 16 17) (mkRange 4096 4097) = Ret (-1)
  /\ compare (place 16 [-128] (place 4096 [97] no_memory))
       (mkRange 4096 4097) (mkRange 16 17) = Ret 1.
Proof. vm_compute. split; reflexivity. Qed.

(** ** What find finds is the needle *)

Lemma occurs_at_firstn_skipn (T : Type) (h n : list T) (k : nat) :
  occurs_at h n k -> firstn (length n) (skipn k h) = n.
Proof.
  intros (pre & post & -> & <-).
  rewrite skipn_app, skipn_all, Nat.sub_diag. simpl.
  rewrite firstn_app, firstn_all, Nat.sub_diag. simpl.
  apply app_nil_r.
Qed.

(** X20. When [find(str)] on live views returns an offset, the piece of the
    view of the size of [str] at that offset is equal to [str]:
    [subpiece(find(str), str.size()) == str]. *)
Theorem found_piece_equals_needle (m : memory char) (this str : StringPiece)
    (h n : list char) (r : Z) :
  valid this -> valid str ->
  contents m this = Some h -> contents m str = Some n ->
  find m this str = Ret r -> r <> npos ->
  (s <- subpiece this r (e_ str - b_ str) ;; op_eq m s str) = Ret true.
Proof.
  intros Hv Hvs Hh Hn Hr Hne.
  assert (Lh := contents_length char m this h Hv Hh).
  assert (Ln := contents_length char m str n Hvs Hn).
  destruct (qfind_correct m this str h n Hv Hvs Hh Hn) as (r' & Hr' & Hc).
  unfold find in Hr. rewrite Hr in Hr'. injection Hr' as <-.
  destruct Hc as [(-> & _) | (k & -> & _ & Hocc & _)]; [contradiction |].
  assert (Hfit := proj1 (proj1 (occurs_at_nth char h n k) Hocc)).
  rewrite (subpiece_ret this (Z.of_nat k) _ Hv) by lia.
  rewrite Z.min_l by lia. cbn [bind].
  apply (op_eq_same m _ str n); try assumption.
  - apply (valid_between this); try assumption; lia.
  - rewrite (contents_between char m this h _ _ Hv Hh) by lia.
    replace (b_ this + Z.of_nat k + (e_ str - b_ str)
             - (b_ this + Z.of_nat k)) with (Z.of_nat (length n)) by lia.
    replace (b_ this + Z.of_nat k - b_ this) with (Z.of_nat k) by lia.
    rewrite !Nat2Z.id. f_equal. apply occurs_at_firstn_skipn. exact Hocc.
Qed.

Lemma found_piece_equals_needle_witness :
  valid (view_at 16 "abcabd") /\ valid (view_at 4096 "abd")
  /\ contents (two_strings "abcabd" "abd") (view_at 16 "abcabd")
     = Some (chars "abcabd")
  /\ contents (two_strings "abcabd" "abd") (view_at 4096 "abd")
     = Some (chars "abd")
  /\ find (two_strings "abcabd" "abd") (view_at 16 "abcabd")
       (view_at 4096 "abd") = Ret 3
  /\ 3 <> npos
  /\ (s <- subpiece (view_at 16 "abcabd") 3
            (e_ (view_at 4096 "abd") - b_ (view_at 4096 "abd")) ;;
      op_eq (two_strings "abcabd" "abd") s (view_at 4096 "abd")) = Ret true.
Proof.
  assert (V1 : valid (view_at 16 "abcabd"))
    by (unfold valid, view_at; cbn; lia).
  assert (V2 : valid (view_at 4096 "abd"))
    by (unfold valid, view_at; cbn; lia).
  assert (C1 : contents (two_strings "abcabd" "abd") (view_at 16 "abcabd")
               = Some (chars "abcabd")) by (vm_compute; reflexivity).
  assert (C2 : contents (two_strings "abcabd" "abd") (view_at 4096 "abd")
               = Some (chars "abd")) by (vm_compute; reflexivity).
  assert (R : find (two_strings "abcabd" "abd") (view_at 16 "abcabd")
                (view_at 4096 "abd") = Ret 3) by (vm_compute; reflexivity).
  assert (N : 3 <> npos) by (vm_compute; discriminate).
  split; [exact V1 |]. split; [exact V2 |]. split; [exact C1 |].
  split; [exact C2 |]. split; [exact R |]. split; [exact N |].
  exact (found_piece_equals_needle (two_strings "abcabd" "abd")
           (view_at 16 "abcabd") (view_at 4096 "abd")
           (chars "abcabd") (chars "abd") 3 V1 V2 C1 C2 R N).
Defined.

(** ** Views of a string *)

(** X21. For a string whose characters lie in the address space and
    [startFrom + size] that does not wrap around: the constructor
    [Range(str, startFrom, size)] stops the program when
    [startFrom + size] exceeds the size of the string, and otherwise
    returns a valid view of [size] elements that lies inside the view of
    the whole string and shows its slice from [startFrom] on. *)
Theorem Range_of_string_slice_inside (str : cxx_string) (startFrom size_ : Z) :
  valid (Range_of_string str) ->
  0 <= startFrom -> 0 <= size_ -> startFrom + size_ < 2 ^ 64 ->
  (str_size str < startFrom + size_ ->
   Range_of_string_slice str startFrom size_ = Abort)
  /\ (startFrom + size_ <= str_size str ->
      exists r,
        Range_of_string_slice str startFrom size_ = Ret r
        /\ valid r
        /\ b_ (Range_of_string str) <= b_ r
        /\ e_ r <= e_ (Range_of_string str)
        /\ size r = Ret size_
        /\ forall (T : Type) (m : memory T) (l : list T),
             contents m (Range_of_string str) = Some l ->
             contents m r
             = Some (firstn (Z.to_nat size_) (skipn (Z.to_nat startFrom) l))).
Proof.
  intros Hv Hs Hz Hw. unfold Range_of_string_slice.
  assert (Hd : 0 <= str_data str /\ str_data str + str_size str < 2 ^ 64)
    by (destruct Hv as (? & ? & ? & ?); simpl in *; lia).
  rewrite wrap64_small by lia. split.
  - intros Hgt.
    assert (E : (startFrom + size_ <=? str_size str) = false)
      by (apply Z.leb_gt; lia).
    rewrite E. reflexivity.
  - intros Hle.
    assert (E : (startFrom + size_ <=? str_size str) = true)
      by (apply Z.leb_le; lia).
    rewrite E. cbn [bind check]. cbv zeta.
    rewrite (wrap64_small (str_data str + startFrom)) by lia.
    rewrite (wrap64_small (str_data str + startFrom + size_)) by lia.
    assert (Hvr : valid (mkRange (str_data str + startFrom)
                           (str_data str + startFrom + size_)))
      by (apply (valid_between (Range_of_string str)); try assumption;
          simpl; lia).
    eexists. split; [reflexivity |]. split; [exact Hvr |].
    simpl. split; [lia |]. split; [lia |].
    split; [rewrite (size_valid _ Hvr); simpl; f_equal; lia |].
    intros T m l Hc.
    rewrite (contents_between T m (Range_of_string str) l _ _ Hv Hc)
      by (simpl; lia).
    simpl. f_equal. f_equal; [f_equal; lia | f_equal; f_equal; lia].
Qed.

Lemma Range_of_string_slice_inside_witness :
  valid (Range_of_string (mkString 16 6))
  /\ 0 <= 2 /\ 0 <= 3 /\ 2 + 3 < 2 ^ 64
  /\ 2 + 3 <= str_size (mkString 16 6)
  /\ exists r,
       Range_of_string_slice (mkString 16 6) 2 3 = Ret r
       /\ valid r
       /\ b_ (Range_of_string (mkString 16 6)) <= b_ r
       /\ e_ r <= e_ (Range_of_string (mkString 16 6))
       /\ size r = Ret 3
       /\ forall (T : Type) (m : memory T) (l : list T),
            contents m (Range_of_string (mkString 16 6)) = Some l ->
            contents m r
            = Some (firstn (Z.to_nat 3) (skipn (Z.to_nat 2) l)).
Proof.
  assert (V : valid (Range_of_string (mkString 16 6)))
    by (unfold valid, Range_of_string; cbn; lia).
  assert (L : 2 + 3 <= str_size (mkString 16 6)) by (cbn; lia).
  split; [exact V |]. split; [lia |]. split; [lia |]. split; [lia |].
  split; [exact L |].
  exact (proj2 (Range_of_string_slice_inside (mkString 16 6) 2 3 V
                  ltac:(lia) ltac:(lia) ltac:(lia)) L).
Defined.

(** X22. [Range(str, startFrom)] stops the program when [startFrom]
    exceeds the size of the string, and otherwise returns the view the
    three-argument constructor returns for the rest of the string,
    [Range(str, startFrom, str.size() - startFrom)]. *)
Theorem Range_of_string_from_rest (str : cxx_string) (startFrom : Z) :
  valid (Range_of_string str) -> 0 <= startFrom ->
  (str_size str < startFrom -> Range_of_string_from str startFrom = Abort)
  /\ (startFrom <= str_size str ->
      Range_of_string_from str startFrom
      = Range_of_string_slice str startFrom (str_size str - startFrom)).
Proof.
  intros Hv Hs. unfold Range_of_string_from, Range_of_string_slice.
  assert (Hb : 0 <= str_size str < 2 ^ 63)
    by (destruct Hv as (? & ? & ? & ?); simpl in *; lia).
  assert (Hd : 0 <= str_data str /\ str_data str + str_size str < 2 ^ 64)
    by (destruct Hv as (? & ? & ? & ?); simpl in *; lia).
  split.
  - intros Hgt.
    assert (E : (startFrom <=? str_size str) = false)
      by (apply Z.leb_gt; lia).
    rewrite E. reflexivity.
  - intros Hle.
    assert (E : (startFrom <=? str_size str) = true)
      by (apply Z.leb_le; lia).
    rewrite E.
    replace (startFrom + (str_size str - startFrom)) with (str_size str)
      by lia.
    rewrite (wrap64_small (str_size str)) by lia.
    rewrite Z.leb_refl. cbn [bind check]. cbv zeta.
    rewrite (wrap64_small (str_data str + startFrom)) by lia.
    rewrite wrap64_small by lia.
    f_equal. f_equal. lia.
Qed.

Lemma Range_of_string_from_rest_witness :
  valid (Range_of_string (mkString 16 6)) /\ 0 <= 7
  /\ str_size (mkString 16 6) < 7
  /\ Range_of_string_from (mkString 16 6) 7 = Abort.
Proof.
  assert (V : valid (Range_of_string (mkString 16 6)))
    by (unfold valid, Range_of_string; cbn; lia).
  assert (L : str_size (mkString 16 6) < 7) by (cbn; lia).
  split; [exact V |]. split; [lia |]. split; [exact L |].
  exact (proj1 (Range_of_string_from_rest (mkString 16 6) 7 V ltac:(lia)) L).
Defined.

Lemma wrap64_once (z : Z) :
  0 <= z < 2 ^ 65 ->
  (z < 2 ^ 64 /\ wrap64 z = z) \/ (2 ^ 64 <= z /\ wrap64 z = z - 2 ^ 64).
Proof.
  intros Hz. destruct (Z_lt_le_dec z (2 ^ 64)) as [Lt | Ge].
  - left. split; [exact Lt | apply wrap64_small; lia].
  - right. split; [exact Ge |]. unfold wrap64. symmetry.
    apply (Z.mod_unique _ _ 1); lia.
Qed.

(** X23. The check of [Range(str, startFrom, size)] adds [startFrom] and
    [size] as [size_t]: when the sum wraps around to a value within the
    size of the string the constructor does not stop the program, and what
    it returns is not a view inside the string: its bounds are out of
    order or outside the bounds of the string. *)
Theorem Range_of_string_slice_wraps (str : cxx_string) (startFrom size_ : Z) :
  valid (Range_of_string str) ->
  0 <= startFrom < 2 ^ 64 -> 0 <= size_ < 2 ^ 64 ->
  2 ^ 64 <= startFrom + size_ ->
  startFrom + size_ - 2 ^ 64 <= str_size str ->
  exists r,
    Range_of_string_slice str startFrom size_ = Ret r
    /\ ~ (b_ (Range_of_string str) <= b_ r
          /\ b_ r <= e_ r
          /\ e_ r <= e_ (Range_of_string str)).
Proof.
  intros Hv Hs Hz Hw Hle. unfold Range_of_string_slice.
  assert (Hb : 0 <= str_size str < 2 ^ 63)
    by (destruct Hv as (? & ? & ? & ?); simpl in *; lia).
  assert (Hd : 0 <= str_data str /\ str_data str + str_size str < 2 ^ 64)
    by (destruct Hv as (? & ? & ? & ?); simpl in *; lia).
  assert (W : wrap64 (startFrom + size_) = startFrom + size_ - 2 ^ 64).
  { destruct (wrap64_once (startFrom + size_)) as [(? & ?) | (_ & E)];
      [lia | lia | exact E]. }
  rewrite W.
  assert (E : (startFrom + size_ - 2 ^ 64 <=? str_size str) = true)
    by (apply Z.leb_le; lia).
  rewrite E. cbn [bind check]. cbv zeta.
  eexists. split; [reflexivity |]. simpl.
  destruct (wrap64_once (str_data str + startFrom)) as [(L1 & ->) | (L1 & ->)];
    [lia | |].
  - destruct (wrap64_once (str_data str + startFrom + size_))
      as [(L2 & ->) | (L2 & ->)]; [lia | lia |]. lia.
  - destruct (wrap64_once (str_data str + startFrom - 2 ^ 64 + size_))
      as [(L2 & ->) | (L2 & ->)]; [lia | lia |]. lia.
Qed.

Lemma Range_of_string_slice_wraps_witness :
  valid (Range_of_string (mkString 16 6))
  /\ 0 <= 1 < 2 ^ 64 /\ 0 <= 2 ^ 64 - 1 < 2 ^ 64
  /\ 2 ^ 64 <= 1 + (2 ^ 64 - 1)
  /\ 1 + (2 ^ 64 - 1) - 2 ^ 64 <= str_size (mkString 16 6)
  /\ exists r,
       Range_of_string_slice (mkString 16 6) 1 (2 ^ 64 - 1) = Ret r
       /\ ~ (b_ (Range_of_string (mkString 16 6)) <= b_ r
             /\ b_ r <= e_ r
             /\ e_ r <= e_ (Range_of_string (mkString 16 6))).
Proof.
  assert (V : valid (Range_of_string (mkString 16 6)))
    by (unfold valid, Range_of_string; cbn; lia).
  assert (A : 0 <= 1 < 2 ^ 64) by lia.
  assert (B : 0 <= 2 ^ 64 - 1 < 2 ^ 64) by lia.
  assert (C : 2 ^ 64 <= 1 + (2 ^ 64 - 1)) by lia.
  assert (D : 1 + (2 ^ 64 - 1) - 2 ^ 64 <= str_size (mkString 16 6))
    by (cbn; lia).
  split; [exact V |]. split; [exact A |]. split; [exact B |].
  split; [exact C |]. split; [exact D |].
  exact (Range_of_string_slice_wraps (mkString 16 6) 1 (2 ^ 64 - 1)
           V A B C D).
Defined.

Example Range_of_string_slice_wrapped :
  Range_of_string_slice (mkString 16 6) (2 ^ 64 - 1) 2 = Ret (mkRange 15 17)
  /\ Range_of_string_slice (mkString 16 6) 1 (2 ^ 64 - 1)
     = Ret (mkRange 17 16).
Proof. vm_compute. split; reflexivity. Qed.

(** ** A view from its data and size *)

(** X24. A valid view is the view of its [data()] and [size()]:
    [Range(v.data(), v.size())] is [v]; and the view made of a start and a
    size [n] below 2^63 has size [n]. *)
Theorem Range_of_data_and_size (v : Range) (start n : Z) :
  valid v ->
  (sz <- size v ;; Ret (Range_of_size (data v) sz)) = Ret v
  /\ (0 <= n < 2 ^ 63 -> size (Range_of_size start n) = Ret n).
Proof.
  intros Hv. split.
  - rewrite (size_valid v Hv). cbn [bind]. unfold Range_of_size, data.
    destruct v as [b e]. simpl. f_equal. f_equal. lia.
  - intros Hn. unfold size, Range_of_size. simpl.
    assert (E : (start <=? start + n) = true) by (apply Z.leb_le; lia).
    rewrite E. cbn [bind check].
    replace (start + n - start) with n by lia.
    rewrite wrap64_small by lia. reflexivity.
Qed.

Lemma Range_of_data_and_size_witness :
  valid (view_at 16 "abc")
  /\ (sz <- size (view_at 16 "abc") ;;
      Ret (Range_of_size (data (view_at 16 "abc")) sz))
     = Ret (view_at 16 "abc").
Proof.
  assert (V : valid (view_at 16 "abc")) by (unfold valid, view_at; cbn; lia).
  split; [exact V |].
  exact (proj1 (Range_of_data_and_size (view_at 16 "abc") 0 0 V)).
Defined.

(** ** The hash, one element at a time *)

Lemma bernstein_snoc (l : list char) (c : char) :
  bernstein (l ++ [c]) = (bernstein l * 33 + c) mod 2 ^ 32.
Proof. unfold bernstein. rewrite fold_left_app. reflexivity. Qed.

(** X25. The hash rolls: the hash of a live view that is not empty is the
    hash of the view without its last element, times 33, plus the last
    element, in [uint32_t]. *)
Theorem hash_rolls (m : memory char) (this : StringPiece) (l : list char)
    (c : char) :
  valid this -> contents m this = Some (l ++ [c]) ->
  hash m this
  = (r <- subtract this 1 ;; h <- hash m r ;; Ret (wrap32 (h * 33 + c))).
Proof.
  intros Hv Hc.
  assert (L := contents_length char m this _ Hv Hc).
  rewrite length_app in L. simpl in L.
  rewrite (hash_bernstein m this _ Hv Hc).
  rewrite (subtract_ret this 1 Hv) by lia. cbn [bind].
  assert (Hvr : valid (mkRange (b_ this) (e_ this - 1)))
    by (apply (valid_between this); try assumption; lia).
  assert (Hcr : contents m (mkRange (b_ this) (e_ this - 1)) = Some l).
  { rewrite (contents_between char m this _ _ _ Hv Hc) by lia.
    rewrite Z.sub_diag. simpl skipn.
    replace (Z.to_nat (e_ this - 1 - b_ this)) with (length l) by lia.
    rewrite firstn_app, firstn_all, Nat.sub_diag. simpl.
    rewrite app_nil_r. reflexivity. }
  rewrite (hash_bernstein m _ l Hvr Hcr). cbn [bind].
  rewrite bernstein_snoc. reflexivity.
Qed.

Lemma hash_rolls_witness :
  valid (view_at 16 "abc")
  /\ contents (two_strings "abc" "") (view_at 16 "abc")
     = Some (chars "ab" ++ [99])
  /\ hash (two_strings "abc" "") (view_at 16 "abc")
     = (r <- subtract (view_at 16 "abc") 1 ;;
        h <- hash (two_strings "abc" "") r ;;
        Ret (wrap32 (h * 33 + 99))).
Proof.
  assert (V : valid (view_at 16 "abc")) by (unfold valid, view_at; cbn; lia).
  assert (C : contents (two_strings "abc" "") (view_at 16 "abc")
              = Some (chars "ab" ++ [99])) by (vm_compute; reflexivity).
  split; [exact V |]. split; [exact C |].
  exact (hash_rolls (two_strings "abc" "") (view_at 16 "abc")
           (chars "ab") 99 V C).
Defined.
